(** * OpenClaw Voice: the voice server

    A shallow embedding of the server of [src/server]: in [main.py] the
    resampler, the sentence segmentation loop, the websocket message
    handler with the admission of a connection, the key endpoint and the
    choices of [startup]; the realtime session and its callback of
    [aliyun_stt.py]; the token manager of [auth.py]; the chat backend of
    [backend.py]; the synthesis stream of [aliyun_tts.py]; the sentence
    streams of [streaming.py].  Part I holds the definitions, Part II the
    properties: first those the specification states, then properties
    read off the code.

    Conventions of the embedding.
    - A Python [str] is a list of Unicode code points ([N]); [bytes] is a
      list of [Byte.byte].
    - A float ([float32] sample, [float64] intermediate) is an exact
      rational ([Q]): rounding of floating-point arithmetic is not modelled.
    - External collaborators (speech-to-text, chat backend, synthesis, local
      voice-activity detection, the realtime engine) are oracles: functions
      of a tick that counts the external calls made so far on the
      connection, so that a collaborator may answer differently every time
      it is called.  Services behind a single call (the completions API,
      the synthesis service, [sha256], the random source, the clock) are
      arguments of the functions that use them.
    - [websocket.send_json] always succeeds; what it sends is appended to
      the trace of the handler.
    - An object that is shared and written to (an [APIKey]) lives in a
      heap and is known by its address. *)

From Stdlib Require Import Ascii String.
From Stdlib.Strings Require Import Byte.
From Stdlib Require Import List Bool Arith ZArith NArith QArith Qround Qabs Lia.
From Stdlib Require Import Sorted Lqa.
Import ListNotations.

Close Scope Q_scope.
Open Scope nat_scope.

Set Implicit Arguments.
Unset Strict Implicit.

(* ================================================================== *)
(** * Part I: definitions *)
(* ================================================================== *)

(** ** Python strings *)

Module PyStr.

Definition char := N.
Definition str := list char.

(** A literal: the code points of an ASCII string. *)
Definition py (s : string) : str :=
  List.map N_of_ascii (list_ascii_of_string s).
Arguments py s%_string.

(** [str.isspace] on one code point: the characters [str.strip()]
    removes. *)
Definition is_space (c : char) : bool :=
  ((9 <=? c) && (c <=? 13) || (28 <=? c) && (c <=? 32)
   || (c =? 133) || (c =? 160) || (c =? 5760)
   || (8192 <=? c) && (c <=? 8202)
   || (c =? 8232) || (c =? 8233) || (c =? 8239) || (c =? 8287)
   || (c =? 12288))%N.

Fixpoint lstrip (s : str) : str :=
  match s with
  | c :: s' => if is_space c then lstrip s' else s
  | [] => []
  end.

Definition rstrip (s : str) : str := rev (lstrip (rev s)).

(** [s.strip()] *)
Definition strip (s : str) : str := rstrip (lstrip s).

(** Truthiness of a string: [if s:]. *)
Definition truthy (s : str) : bool :=
  match s with [] => false | _ :: _ => true end.

Fixpoint starts_with (p s : str) : bool :=
  match p, s with
  | [], _ => true
  | a :: p', b :: s' => (a =? b)%N && starts_with p' s'
  | _ :: _, [] => false
  end.

(** [s.find(sub)]: the lowest index at which [sub] occurs, [None] for
    Python's [-1]. *)
Fixpoint find (sub s : str) : option nat :=
  if starts_with sub s then Some 0
  else match s with
       | [] => None
       | _ :: s' => option_map S (find sub s')
       end.

(** [sub in s] *)
Definition contains (sub s : str) : bool :=
  match find sub s with Some _ => true | None => false end.

(** The characters that are not whitespace, in order. *)
Definition nonspace (s : str) : str :=
  filter (fun c => negb (is_space c)) s.

End PyStr.
Import PyStr.

(** ** Sentence segmentation (main.py, lines 404-462) *)

Module Segmenter.

Definition dot : char := 46%N.
Definition bang : char := 33%N.
Definition qmark : char := 63%N.
Definition space : char := 32%N.
Definition newline : char := 10%N.

(** [['. ', '! ', '? ', '.\n', '!\n', '?\n']] *)
Definition separators : list str :=
  [ [dot; space]; [bang; space]; [qmark; space];
    [dot; newline]; [bang; newline]; [qmark; newline] ].

(** The condition of the [while]:
    [any(sep in sentence_buffer for sep in [...])]. *)
Definition has_boundary (buf : str) : bool :=
  existsb (fun sep => contains sep buf) separators.

(** The [for sep in [...]] loop that computes [earliest_idx], started
    at [len(sentence_buffer)]. *)
Definition earliest_idx (buf : str) : nat :=
  fold_left
    (fun earliest sep =>
       match find sep buf with
       | Some idx =>
           if idx <? earliest then idx + length sep else earliest
       | None => earliest
       end)
    separators (length buf).

(** One turn of the [while] loop: [Some (sentence, rest)] when a
    sentence is cut off the buffer, [None] when the loop is left (its
    condition is false, or the [break] is reached). *)
Definition next_sentence (buf : str) : option (str * str) :=
  if has_boundary buf then
    let e := earliest_idx buf in
    if e <? length buf
    then Some (strip (firstn e buf), skipn e buf)
    else None
  else None.

(** The [while] loop with the synthesis of its body left out: the
    sentences it hands to synthesis (those that are not empty after
    trimming) and the buffer it leaves.  Every turn shortens the buffer,
    so [length buf] turns are enough. *)
Fixpoint drain_fuel (fuel : nat) (buf : str) : list str * str :=
  match fuel with
  | O => ([], buf)
  | S fuel' =>
      match next_sentence buf with
      | None => ([], buf)
      | Some (sentence, rest) =>
          let (more, final) := drain_fuel fuel' rest in
          ((if truthy sentence then [sentence] else []) ++ more, final)
      end
  end.

Definition drain (buf : str) : list str * str :=
  drain_fuel (length buf) buf.

(** One fragment of the stream: [sentence_buffer += chunk], then the
    [while] loop. *)
Definition feed (buf chunk : str) : list str * str :=
  drain (buf ++ chunk).

(** After the stream: [if sentence_buffer.strip(): ...]. *)
Definition flush (buf : str) : list str :=
  if truthy (strip buf) then [strip buf] else [].

(** The whole stream: the sentences cut while fragment [i] is
    processed, for every fragment, and the buffer left at the end. *)
Fixpoint feed_all (buf : str) (chunks : list str)
  : list (list str) * str :=
  match chunks with
  | [] => ([], buf)
  | chunk :: chunks' =>
      let (now, buf') := feed buf chunk in
      let (later, final) := feed_all buf' chunks' in
      (now :: later, final)
  end.

(** All sentences of a stream, in the order they reach synthesis. *)
Definition sentences (chunks : list str) : list str :=
  let (during, final) := feed_all [] chunks in
  concat during ++ flush final.

(** A separator occurs in [buf] at index [i]. *)
Definition boundary_at (buf : str) (i : nat) : Prop :=
  exists sep, In sep separators /\ starts_with sep (skipn i buf) = true.

(** Index [i] is the earliest occurrence of a separator in [buf]. *)
Definition earliest_boundary (buf : str) (i : nat) : Prop :=
  boundary_at buf i /\ forall j, boundary_at buf j -> i <= j.

Definition is_punct (c : char) : Prop := c = dot \/ c = bang \/ c = qmark.
Definition is_gap (c : char) : Prop := c = space \/ c = newline.

(** The state of the [for sep in ...] loop after the separators of [done]:
    nothing found yet, or the end of the earliest occurrence so far. *)
Definition scan_inv (buf : str) (done : list str) (e : nat) : Prop :=
  (e = length buf /\ forall sep, In sep done -> find sep buf = None)
  \/ (exists i, e = i + 2 /\ boundary_at buf i /\
                forall sep j, In sep done -> find sep buf = Some j -> i <= j).

End Segmenter.

(** ** Results of fallible calls *)

Inductive exn : Type :=
| WebSocketDisconnect   (* the client went away *)
| Error.                (* any other [Exception] *)

Inductive result (A : Type) : Type :=
| Ok (a : A)
| Raise (e : exn).
Arguments Ok {A} a.
Arguments Raise {A} e.

(** ** The resampler (main.py, lines 94-112) *)

Module Resampler.

Definition bytes := list byte.

Definition byte_val (b : byte) : Z := Z.of_N (Byte.to_N b).

Definition byte_of_Z (z : Z) : byte :=
  match Byte.of_N (Z.to_N (z mod 256)) with
  | Some b => b
  | None => "000"%byte
  end.

(** One little-endian two's-complement 16-bit sample. *)
Definition int16_of_bytes (lo hi : byte) : Z :=
  let u := (byte_val lo + 256 * byte_val hi)%Z in
  if (u <? 32768)%Z then u else (u - 65536)%Z.

(** [np.frombuffer(b, dtype=np.int16)]: [None] stands for the
    [ValueError] numpy raises when the size is not a multiple of 2. *)
Fixpoint frombuffer_int16 (b : bytes) : option (list Z) :=
  match b with
  | [] => Some []
  | [_] => None
  | lo :: hi :: rest =>
      option_map (cons (int16_of_bytes lo hi)) (frombuffer_int16 rest)
  end.

(** [a.tobytes()] of an int16 array. *)
Definition tobytes_int16 (a : list Z) : bytes :=
  flat_map (fun z => let u := (z mod 65536)%Z in
                     [byte_of_Z u; byte_of_Z (u / 256)]) a.

(** Python's [round]: to the nearest integer, halves to the even one. *)
Definition round_half_even (q : Q) : Z :=
  let f := Qfloor q in
  match ((q - inject_Z f) ?= (1 # 2))%Q with
  | Lt => f
  | Gt => (f + 1)%Z
  | Eq => if Z.even f then f else (f + 1)%Z
  end.

(** [np.linspace(start, stop, num)] *)
Definition linspace (start stop : Q) (num : nat) : list Q :=
  match num with
  | 0 => []
  | 1 => [start]
  | _ =>
      let step := ((stop - start) / inject_Z (Z.of_nat (num - 1)))%Q in
      map (fun i => (start + inject_Z (Z.of_nat i) * step)%Q) (seq 0 num)
  end.

(** [np.interp] at [x] on the knots that follow [(x0, y0)], for an [x]
    beyond [x0]: linear on the segment that holds [x], the last ordinate
    beyond the last knot. *)
Fixpoint interp_from (x x0 y0 : Q) (knots : list (Q * Q)) : Q :=
  match knots with
  | [] => y0
  | (x1, y1) :: rest =>
      if Qlt_le_dec x x1
      then (y0 + (y1 - y0) / (x1 - x0) * (x - x0))%Q
      else interp_from x x1 y1 rest
  end.

(** [np.interp(x, xp, fp)] for one [x] *)
Definition interp (x : Q) (xp fp : list Q) : Q :=
  match combine xp fp with
  | [] => 0%Q
  | (x0, y0) :: rest =>
      if Qlt_le_dec x0 x then interp_from x x0 y0 rest else y0
  end.

(** [np.clip(v, -32768, 32767)] *)
Definition clip (v : Q) : Q :=
  if Qlt_le_dec v (-32768) then (-32768)%Q
  else if Qlt_le_dec 32767 v then 32767%Q else v.

(** [.astype(np.int16)] of a float in range: truncation towards zero. *)
Definition astype_int16 (v : Q) : Z := Z.quot (Qnum v) (Zpos (Qden v)).

(** The number of destination samples:
    [max(1, int(round(src_len * dst_rate / src_rate)))]. *)
Definition dst_len (src_len : nat) (src_rate dst_rate : Z) : Z :=
  Z.max 1 (round_half_even
             (inject_Z (Z.of_nat src_len * dst_rate) / inject_Z src_rate)).

(** The samples of the output, from the samples of the input. *)
Definition resample_samples (audio_i16 : list Z) (src_rate dst_rate : Z)
  : list Z :=
  let src := map inject_Z audio_i16 in
  let src_len := length src in
  let n := Z.to_nat (dst_len src_len src_rate dst_rate) in
  let last := inject_Z (Z.of_nat src_len - 1) in
  let src_idx := linspace 0 last src_len in
  let dst_idx := linspace 0 last n in
  let dst := map (fun x => interp x src_idx src) dst_idx in
  map (fun v => astype_int16 (clip v)) dst.

(** The position of destination sample [i] among [n] source samples,
    for [m] destination samples: [dst_idx[i]]. *)
Definition position (i n m : nat) : Q :=
  if m =? 1 then 0%Q
  else (inject_Z (Z.of_nat i) * inject_Z (Z.of_nat n - 1)
        / inject_Z (Z.of_nat m - 1))%Q.

(** Linear interpolation between the two source samples around position
    [x], in the words of the specification: with [j] the integer part of
    [x], the value at [x] lies on the line from sample [j] to sample
    [j + 1]. *)
Definition lerp (src : list Z) (x : Q) : Q :=
  let j := Qfloor x in
  let a := nth (Z.to_nat j) src 0%Z in
  let b := nth (S (Z.to_nat j)) src a in
  (inject_Z a + (x - inject_Z j) * inject_Z (b - a))%Q.

Definition _resample_pcm16 (audio_bytes : bytes) (src_rate dst_rate : Z)
  : result bytes :=
  if (src_rate =? dst_rate)%Z || (length audio_bytes =? 0)
  then Ok audio_bytes
  else
    match frombuffer_int16 audio_bytes with
    | None => Raise Error
    | Some audio_i16 =>
        if length audio_i16 =? 0 then Ok audio_bytes
        else if (src_rate =? 0)%Z then Raise Error
        else Ok (tobytes_int16
                   (resample_samples audio_i16 src_rate dst_rate))
    end.

End Resampler.

(** ** The realtime session (aliyun_stt.py, lines 157-278) *)

Module AliyunSTT.

(** The dictionaries [_RealtimeCallback] puts on the queue. *)
Inductive session_event : Type :=
| SpeechStarted
| SpeechStopped
| PartialText (text : str)
| FinalText (text : str)
| Closed (code : Z) (msg : str).

(** The fields of [AliyunASRRealtimeSession] the methods below read or
    write.  [conversation] is [self._conversation is not None];
    [event_queue] holds what the callback thread has put and
    [drain_events] has not yet taken. *)
Record session : Type := {
  conversation : bool;
  event_queue : list session_event;
  final_transcript : str;
  partial_transcript : str;
  saw_speech_started : bool;
}.

(** [__init__] *)
Definition new_session : session :=
  {| conversation := false; event_queue := [];
     final_transcript := []; partial_transcript := [];
     saw_speech_started := false |}.

(** [start]: [self._conversation] is set, then the engine is connected
    and configured, which may fail. *)
Definition start (engine_up : bool) (s : session)
  : session * result unit :=
  ({| conversation := true;
      event_queue := event_queue s;
      final_transcript := final_transcript s;
      partial_transcript := partial_transcript s;
      saw_speech_started := saw_speech_started s |},
   if engine_up then Ok tt else Raise Error).

(** [append_audio_float32]: nothing is sent for a session that was not
    started or for an empty chunk; sending may fail. *)
Definition append_audio_float32 (engine_up : bool) (audio_np : list Q)
    (s : session) : result unit :=
  if negb (conversation s) then Ok tt
  else if length audio_np =? 0 then Ok tt
  else if engine_up then Ok tt else Raise Error.

(** The callback thread puts [evs] on the queue. *)
Definition put (evs : list session_event) (s : session) : session :=
  {| conversation := conversation s;
     event_queue := event_queue s ++ evs;
     final_transcript := final_transcript s;
     partial_transcript := partial_transcript s;
     saw_speech_started := saw_speech_started s |}.

(** The body of the loop of [drain_events] for one event. *)
Definition note_event (s : session) (ev : session_event) : session :=
  {| conversation := conversation s;
     event_queue := event_queue s;
     final_transcript :=
       match ev with FinalText t => strip t | _ => final_transcript s end;
     partial_transcript :=
       match ev with
       | PartialText t => strip t
       | _ => partial_transcript s
       end;
     saw_speech_started :=
       match ev with
       | SpeechStarted => true
       | _ => saw_speech_started s
       end |}.

(** [drain_events]: takes everything off the queue, in order. *)
Definition drain_events (s : session) : list session_event * session :=
  let evs := event_queue s in
  let s0 := {| conversation := conversation s;
               event_queue := [];
               final_transcript := final_transcript s;
               partial_transcript := partial_transcript s;
               saw_speech_started := saw_speech_started s |} in
  (evs, fold_left note_event evs s0).

(** [a or b] on strings *)
Definition py_or (a b : str) : str := if truthy a then a else b.

(** What the outside world does during one call of
    [stop_and_get_transcript]: how long [end_session] takes (in
    milliseconds), and which events the callback thread puts on the queue
    before each [drain_events] of the call. *)
Record stop_world : Type := {
  end_session_ms : Z;
  arrivals : nat -> list session_event;
}.

(** The polling loop.  The clock is in milliseconds; [asyncio.sleep(0.05)]
    moves it by 50 and nothing else moves it.  Returns the session, the
    clock when the loop is left, and the clock readings at which the
    loop polled the queue. *)
Fixpoint poll_loop (fuel : nat) (w : stop_world) (i : nat)
    (now deadline : Z) (s : session) : session * Z * list Z :=
  match fuel with
  | O => (s, now, [])
  | S fuel' =>
      if (now <? deadline)%Z then
        let s1 := snd (drain_events (put (arrivals w i) s)) in
        if truthy (final_transcript s1) then (s1, now, [now])
        else
          let '(s2, t, polls) :=
            poll_loop fuel' w (S i) (now + 50)%Z deadline s1 in
          (s2, t, now :: polls)
      else (s, now, [])
  end.

(** Turns enough for a timeout of [timeout_ms]. *)
Definition poll_fuel (timeout_ms : Z) : nat :=
  S (Z.to_nat (timeout_ms / 50)).

(** [stop_and_get_transcript(timeout_sec)], called when the clock reads
    [t0]: the transcript, the session, and the clock on return.  Whether
    [end_session] raises makes no difference to what follows (the
    exception is caught, the conversation closed), only the time it takes
    does. *)
Definition stop_and_get_transcript (w : stop_world) (timeout_ms t0 : Z)
    (s : session) : str * session * Z :=
  let t1 := if conversation s then (t0 + end_session_ms w)%Z else t0 in
  let deadline := (t1 + timeout_ms)%Z in
  let '(s1, t2, polls) :=
    poll_loop (poll_fuel timeout_ms) w 0 t1 deadline s in
  let s2 := snd (drain_events (put (arrivals w (length polls)) s1)) in
  (py_or (final_transcript s2) (py_or (partial_transcript s2) []), s2, t2).

(** A world in which [end_session] takes no time and no event arrives. *)
Definition quiet_world : stop_world :=
  {| end_session_ms := 0; arrivals := fun _ => [] |}.

End AliyunSTT.

(** ** [base64.b64encode(b).decode()] *)

Module Base64.

Definition alphabet (n : N) : char :=
  (if n <? 26 then 65 + n
   else if n <? 52 then 97 + (n - 26)
   else if n <? 62 then 48 + (n - 52)
   else if n =? 62 then 43 else 47)%N.

Definition pad : char := 61%N.

Fixpoint b64encode (b : list byte) : str :=
  match b with
  | [] => []
  | [x] =>
      let x := Byte.to_N x in
      [alphabet (x / 4); alphabet (x mod 4 * 16); pad; pad]%N
  | [x; y] =>
      let x := Byte.to_N x in
      let y := Byte.to_N y in
      [alphabet (x / 4); alphabet (x mod 4 * 16 + y / 16);
       alphabet (y mod 16 * 4); pad]%N
  | x :: y :: z :: rest =>
      let x := Byte.to_N x in
      let y := Byte.to_N y in
      let z := Byte.to_N z in
      ([alphabet (x / 4); alphabet (x mod 4 * 16 + y / 16);
        alphabet (y mod 16 * 4 + z / 64); alphabet (z mod 64)]%N)
      ++ b64encode rest
  end.

End Base64.

(** ** The websocket handler (main.py, lines 287-535) *)

Module Main.
Import AliyunSTT Resampler Segmenter Base64.

(** A float32 array. *)
Definition ndarray := list Q.

(** What the server sends to the client. *)
Inductive event : Type :=
| ListeningStarted
| VadStatus (speech_detected : bool) (event : option str)
| ListeningStopped
| Transcript (text : str)
| ResponseChunk (text : str)
| AudioChunk (data : str) (sample_rate : Z)
| ResponseComplete (text : str)
| Pong.

(** What the client sends.  [Audio None] is an [audio] message whose
    payload [base64.b64decode] or [np.frombuffer] rejects; [Malformed]
    is a text that is not JSON or has no ["type"]; [Other] has a type the
    handler does not know. *)
Inductive client_msg : Type :=
| StartListening
| StopListening
| Audio (data : option ndarray)
| Ping
| Other
| Malformed.

(** The calls the handler makes to its collaborators. *)
Inductive call : Type :=
| CreateSession
| SessionStart
| SessionAppendAudio (audio_np : ndarray)
| SessionDrainEvents
| SessionStop (timeout_ms : Z)
| Transcribe (audio_data : ndarray)
| IsSpeech (audio_np : ndarray)
| ChatStream (message : str)
| CleanForSpeech (sentence : str)
| SynthesizeStream (text : str)
| WebSocketClose.

(** The trace of the handler: what it sent and what it called. *)
Inductive action : Type :=
| Send (e : event)
| Call (c : call).

(** An asynchronous generator, seen from its consumer: the items it
    yields, then either the end or an exception. *)
Record stream (A : Type) : Type := {
  items : list A;
  fails : bool;
}.

(** The interface of a realtime session, as the handler uses it.  Every
    method gets the tick and the session and returns the session as the
    call leaves it, with its result. *)
Class RealtimeSession (S : Type) : Type := {
  session_start : nat -> S -> S * result unit;
  session_append_audio_float32 : nat -> ndarray -> S -> S * result unit;
  session_drain_events : nat -> S -> S * result (list session_event);
  session_stop_and_get_transcript : nat -> Z -> S -> S * result str;
  session_saw_speech_started : S -> bool;
}.

(** The globals of main.py and what they answer.  [stt_create_session]
    is [None] when [stt] has no attribute [create_session]; [vad] is
    [None] when no local detector is loaded.  The modules [tts], [vad]
    and [text_utils] are not among the sources at hand: the synthesis
    stream, [is_speech] and [clean_for_speech] are taken as they are
    called, with no assumption on what they answer. *)
Record collaborators (S : Type) : Type := {
  stt_create_session : option (nat -> result S);
  stt_transcribe : nat -> ndarray -> result str;
  vad : option (nat -> ndarray -> result bool);
  backend_chat_stream : nat -> str -> stream str;
  tts_synthesize_stream : nat -> str -> stream bytes;
  clean_for_speech : str -> str;
  tts_output_sample_rate : Z;
}.

(** The local variables of [websocket_endpoint] that outlive one
    message, and the tick. *)
Record state (S : Type) : Type := {
  audio_buffer : list ndarray;
  is_listening : bool;
  asr_realtime_session : option S;
  tick : nat;
}.

(** After [websocket.accept()]. *)
Definition initial (S : Type) : state S :=
  {| audio_buffer := []; is_listening := false;
     asr_realtime_session := None; tick := 0 |}.

(** [float(np.mean(np.abs(audio_data)))] *)
Definition mean_abs (a : ndarray) : Q :=
  (fold_right Qplus 0 (map Qabs a) / inject_Z (Z.of_nat (length a)))%Q.

Definition energy_threshold : Q := (8 # 1000)%Q.

(** What was sent, in order. *)
Definition sent (tr : list action) : list event :=
  flat_map (fun a => match a with Send e => [e] | Call _ => [] end) tr.

(** What was called, in order. *)
Definition called (tr : list action) : list call :=
  flat_map (fun a => match a with Call c => [c] | Send _ => [] end) tr.

(** One consultation of the local detector: the call and the
    [vad_status] that reports its verdict. *)
Definition vad_round (ab : ndarray * bool) : list action :=
  [Call (IsSpeech (fst ab)); Send (VadStatus (snd ab) None)].

(** The synthesis of a trace: where a synthesis stream is opened, and
    the audio chunks that are sent. *)
Inductive audio_step : Type :=
| Begin (text : str)
| Chunk (data : str).

Definition audio_view (tr : list action) : list audio_step :=
  flat_map (fun a => match a with
                     | Call (SynthesizeStream text) => [Begin text]
                     | Send (AudioChunk data _) => [Chunk data]
                     | _ => []
                     end) tr.

(** The synthesis of one sentence: its stream is opened, then chunks
    are sent. *)
Definition block (b : str * list str) : list audio_step :=
  Begin (fst b) :: map Chunk (snd b).

(** The sentences handed to [clean_for_speech], in order. *)
Definition spoken (tr : list action) : list str :=
  flat_map (fun a => match a with
                     | Call (CleanForSpeech sentence) => [sentence]
                     | _ => []
                     end) tr.

Definition not_clean (c : call) : Prop :=
  match c with CleanForSpeech _ => False | _ => True end.

(** The texts for which a synthesis stream is opened, in order. *)
Definition begun (tr : list action) : list str :=
  flat_map (fun a => match a with
                     | Call (SynthesizeStream text) => [text]
                     | _ => []
                     end) tr.

(** Calls that neither clean a sentence nor open a synthesis stream. *)
Definition quiet_call (c : call) : Prop :=
  match c with
  | CleanForSpeech _ | SynthesizeStream _ => False
  | _ => True
  end.

Section Handler.
Context {S : Type} {RS : RealtimeSession S} (E : collaborators S).

(** Computations of the handler: they read and write the state, append
    to the trace, and return or raise. *)
Definition M (A : Type) : Type :=
  state S -> result A * state S * list action.

Definition ret {A} (a : A) : M A := fun st => (Ok a, st, []).

Definition raise {A} (e : exn) : M A := fun st => (Raise e, st, []).

Definition bind {A B} (m : M A) (f : A -> M B) : M B :=
  fun st =>
    match m st with
    | (Ok a, st1, tr1) =>
        let '(r, st2, tr2) := f a st1 in (r, st2, tr1 ++ tr2)
    | (Raise e, st1, tr1) => (Raise e, st1, tr1)
    end.

(** [try: m  except Exception: h] *)
Definition try_except {A} (m : M A) (h : M A) : M A :=
  fun st =>
    match m st with
    | (Ok a, st1, tr1) => (Ok a, st1, tr1)
    | (Raise _, st1, tr1) =>
        let '(r, st2, tr2) := h st1 in (r, st2, tr1 ++ tr2)
    end.

Definition get : M (state S) := fun st => (Ok st, st, []).

Definition set_audio_buffer (b : list ndarray) : M unit :=
  fun st => (Ok tt,
             {| audio_buffer := b; is_listening := is_listening st;
                asr_realtime_session := asr_realtime_session st;
                tick := tick st |}, []).

Definition set_is_listening (b : bool) : M unit :=
  fun st => (Ok tt,
             {| audio_buffer := audio_buffer st; is_listening := b;
                asr_realtime_session := asr_realtime_session st;
                tick := tick st |}, []).

Definition set_session (s : option S) : M unit :=
  fun st => (Ok tt,
             {| audio_buffer := audio_buffer st;
                is_listening := is_listening st;
                asr_realtime_session := s;
                tick := tick st |}, []).

(** [await websocket.send_json(...)] *)
Definition send (e : event) : M unit := fun st => (Ok tt, st, [Send e]).

(** A call to a collaborator: it is recorded, answered by the oracle
    at the current tick, and the tick moves on. *)
Definition perform {A} (c : call) (answer : nat -> A) : M A :=
  fun st =>
    (Ok (answer (tick st)),
     {| audio_buffer := audio_buffer st;
        is_listening := is_listening st;
        asr_realtime_session := asr_realtime_session st;
        tick := Datatypes.S (tick st) |}, [Call c]).

Definition of_result {A} (r : result A) : M A :=
  match r with Ok a => ret a | Raise e => raise e end.

(** A method call on the session held in [asr_realtime_session]. *)
Definition on_session {A} (c : call)
    (method : nat -> S -> S * result A) : M A :=
  bind get (fun st =>
    match asr_realtime_session st with
    | None => raise Error
    | Some s =>
        bind (perform c (fun k => method k s)) (fun '(s', r) =>
        bind (set_session (Some s')) (fun _ => of_result r))
    end).

Notation "x <- m ;; k" := (bind m (fun x => k))
  (at level 61, m at next level, right associativity).
Notation "m ;; k" := (bind m (fun _ => k))
  (at level 61, right associativity).

(** [for x in l: body(x)] *)
Fixpoint for_each {A} (l : list A) (body : A -> M unit) : M unit :=
  match l with
  | [] => ret tt
  | x :: l' => body x ;; for_each l' body
  end.

(** [async for x in s: body(x)]: the exception of a failing stream
    comes after its last item. *)
Definition for_stream {A} (s : stream A) (body : A -> M unit) : M unit :=
  for_each (items s) body ;;
  if fails s then raise Error else ret tt.

(** The [async for audio_chunk in tts.synthesize_stream(speech_text)]
    loops (lines 432-443 and 451-462). *)
Definition synthesize (speech_text : str) : M unit :=
  audio <- perform (SynthesizeStream speech_text)
             (fun k => tts_synthesize_stream E k speech_text) ;;
  for_stream audio (fun audio_chunk =>
    out_chunk <- of_result
      (_resample_pcm16 audio_chunk 24000 (tts_output_sample_rate E)) ;;
    send (AudioChunk (b64encode out_chunk)
                     (tts_output_sample_rate E))).

(** Lines 429-443: clean a sentence and synthesize what is left. *)
Definition speak (sentence : str) : M unit :=
  speech_text <- perform (CleanForSpeech sentence)
                   (fun _ => clean_for_speech E sentence) ;;
  if truthy speech_text then synthesize speech_text else ret tt.

(** The [while] loop of lines 415-445, on [sentence_buffer]; it
    returns the buffer it leaves. *)
Fixpoint sentence_loop (fuel : nat) (sentence_buffer : str) : M str :=
  match fuel with
  | O => ret sentence_buffer
  | Datatypes.S fuel' =>
      match next_sentence sentence_buffer with
      | None => ret sentence_buffer
      | Some (sentence, rest) =>
          (if truthy sentence then speak sentence else ret tt) ;;
          sentence_loop fuel' rest
      end
  end.

(** The body of [async for chunk in backend.chat_stream(transcript)],
    on the pair [(full_response, sentence_buffer)]. *)
Definition on_chunk (vars : str * str) (chunk : str) : M (str * str) :=
  let full_response := fst vars ++ chunk in
  let sentence_buffer := snd vars ++ chunk in
  send (ResponseChunk chunk) ;;
  sentence_buffer' <-
    sentence_loop (length sentence_buffer) sentence_buffer ;;
  ret (full_response, sentence_buffer').

Fixpoint on_chunks (vars : str * str) (chunks : list str)
  : M (str * str) :=
  match chunks with
  | [] => ret vars
  | chunk :: chunks' =>
      vars' <- on_chunk vars chunk ;; on_chunks vars' chunks'
  end.

(** Lines 397-469: the response to a transcript. *)
Definition respond (transcript : str) : M unit :=
  reply <- perform (ChatStream transcript)
             (fun k => backend_chat_stream E k transcript) ;;
  vars <- on_chunks ([], []) (items reply) ;;
  (if fails reply then raise Error else ret tt) ;;
  (if truthy (strip (snd vars)) then speak (strip (snd vars))
   else ret tt) ;;
  send (ResponseComplete (fst vars)).

(** [msg["type"] == "start_listening"] (lines 330-346) *)
Definition on_start_listening : M unit :=
  set_is_listening true ;;
  set_audio_buffer [] ;;
  set_session None ;;
  match stt_create_session E with
  | None => ret tt
  | Some create =>
      try_except
        (created <- perform CreateSession create ;;
         s <- of_result created ;;
         set_session (Some s) ;;
         on_session SessionStart session_start)
        (set_session None)
  end ;;
  send ListeningStarted.

(** Lines 354-362: [audio_data] and [audio_energy]. *)
Definition audio_data_of (buffer : list ndarray) : option ndarray :=
  match buffer with
  | [] => None
  | _ :: _ => Some (concat buffer)
  end.

Definition audio_energy_of (audio_data : option ndarray) : Q :=
  match audio_data with
  | Some a => if 0 <? length a then mean_abs a else 0%Q
  | None => 0%Q
  end.

(** Lines 374-384 *)
Definition should_batch_fallback (audio_data : option ndarray)
    (transcript : str) (session : option S) (audio_energy : Q) : bool :=
  match audio_data with Some _ => true | None => false end
  && negb (truthy (strip transcript))
  && (match session with
      | None => true
      | Some s => session_saw_speech_started s
      end
      || if Qlt_le_dec energy_threshold audio_energy then true
         else false).

(** Lines 364-387: the transcript of the turn, from the realtime
    session when it has one, else from batch transcription when
    [should_batch_fallback] allows it. *)
Definition resolve_transcript : M str :=
  st <- get ;;
  let audio_data := audio_data_of (audio_buffer st) in
  let audio_energy := audio_energy_of audio_data in
  transcript <-
    match asr_realtime_session st with
    | Some _ =>
        try_except
          (on_session (SessionStop 3000)
             (fun k => session_stop_and_get_transcript k 3000))
          (ret [])
    | None => ret []
    end ;;
  st <- get ;;
  if should_batch_fallback audio_data transcript
       (asr_realtime_session st) audio_energy
  then
    match audio_data with
    | Some a =>
        heard <- perform (Transcribe a)
                   (fun k => stt_transcribe E k a) ;;
        of_result heard
    | None => ret transcript
    end
  else ret transcript.

(** [msg["type"] == "stop_listening"] (lines 348-481) *)
Definition on_stop_listening : M unit :=
  set_is_listening false ;;
  send ListeningStopped ;;
  transcript <- resolve_transcript ;;
  send (Transcript transcript) ;;
  (if truthy (strip transcript) then respond transcript
   else send (ResponseComplete [])) ;;
  set_audio_buffer [] ;;
  set_session None.

(** Lines 493-506: one drained event. *)
Definition on_session_event (ev : session_event) : M unit :=
  match ev with
  | SpeechStarted =>
      send (VadStatus true (Some (py "speech_started")))
  | SpeechStopped =>
      send (VadStatus false (Some (py "speech_stopped")))
  | _ => ret tt
  end.

(** [msg["type"] == "audio" and is_listening] (lines 483-516) *)
Definition on_audio (data : option ndarray) : M unit :=
  audio_np <- match data with
              | Some a => ret a
              | None => raise Error
              end ;;
  st <- get ;;
  set_audio_buffer (audio_buffer st ++ [audio_np]) ;;
  match asr_realtime_session st with
  | Some _ =>
      try_except
        (on_session (SessionAppendAudio audio_np)
           (fun k => session_append_audio_float32 k audio_np) ;;
         events <- on_session SessionDrainEvents session_drain_events ;;
         for_each events on_session_event)
        (ret tt)
  | None =>
      match vad E with
      | Some is_speech =>
          if 0 <? length audio_np then
            heard <- perform (IsSpeech audio_np)
                       (fun k => is_speech k audio_np) ;;
            has_speech <- of_result heard ;;
            send (VadStatus has_speech None)
          else ret tt
      | None => ret tt
      end
  end.

(** One turn of the [while True] loop, after [json.loads]. *)
Definition handle_message (msg : client_msg) : M unit :=
  match msg with
  | Malformed => raise Error
  | StartListening => on_start_listening
  | StopListening => on_stop_listening
  | Audio data =>
      st <- get ;;
      if is_listening st then on_audio data else ret tt
  | Ping => send Pong
  | Other => ret tt
  end.

(** The [while True] loop on the messages the client sends before it
    goes away: [receive_text] raises [WebSocketDisconnect] after the
    last one. *)
Fixpoint serve (msgs : list client_msg) : M unit :=
  match msgs with
  | [] => raise WebSocketDisconnect
  | msg :: msgs' => handle_message msg ;; serve msgs'
  end.

(** The two [except] clauses of lines 521-535. *)
Definition cleanup (e : exn) : M unit :=
  st <- get ;;
  match asr_realtime_session st with
  | Some _ =>
      try_except
        (on_session (SessionStop 500)
           (fun k => session_stop_and_get_transcript k 500) ;;
         ret tt)
        (ret tt)
  | None => ret tt
  end ;;
  match e with
  | WebSocketDisconnect => ret tt
  | Error => perform WebSocketClose (fun _ => tt)
  end.

(** [websocket_endpoint] from [websocket.accept()] on: the trace of a
    whole connection. *)
Definition websocket_endpoint (msgs : list client_msg) : list action :=
  match serve msgs (initial S) with
  | (Ok _, _, tr) => tr
  | (Raise e, st, tr) => tr ++ snd (cleanup e st)
  end.

(** The trace of a computation run from a state. *)
Definition trace_of {A} (m : M A) (st : state S) : list action :=
  snd (m st).

(** [post m st Q]: running [m] from [st] ends in a result, a state and
    a trace that satisfy [Q]. *)
Definition post {A} (m : M A) (st : state S)
    (Q : result A -> state S -> list action -> Prop) : Prop :=
  let '(r, st', tr) := m st in Q r st' tr.

(** The variables of the connection are the same in both states. *)
Definition same_vars (st st' : state S) : Prop :=
  audio_buffer st' = audio_buffer st /\
  is_listening st' = is_listening st /\
  asr_realtime_session st' = asr_realtime_session st.

(** Every run of [m] leaves a trace in [T] and relates the state
    before to the state after by [R], whether it returns or raises. *)
Definition within (T : list action -> Prop)
    (R : state S -> state S -> Prop) {A} (m : M A) : Prop :=
  forall st, post m st (fun _ st' tr => T tr /\ R st st').

(** [m] sends only events of [P], calls only collaborators of [C], and
    leaves the variables of the connection alone. *)
Definition emits (P : event -> Prop) (C : call -> Prop) {A}
    (m : M A) : Prop :=
  within (fun tr => Forall P (sent tr) /\ Forall C (called tr))
         same_vars m.

(** Creating the realtime session at tick [k], or starting it right
    after, raises. *)
Definition create_fails (k : nat) : Prop :=
  match stt_create_session E with
  | None => False
  | Some create =>
      (exists e, create k = Raise e)
      \/ (exists s e, create k = Ok s /\
                      snd (session_start (Datatypes.S k) s) = Raise e)
  end.

(** [datas] is what the handler sends for [chunks]: each chunk
    resampled from 24000 Hz to the output rate and encoded. *)
Definition encoded (chunks : list bytes) (datas : list str) : Prop :=
  Forall2 (fun c d => exists out,
             _resample_pcm16 c 24000 (tts_output_sample_rate E) = Ok out /\
             d = b64encode out) chunks datas.

(** A block that holds every chunk of its synthesis stream. *)
Definition fully_emitted (b : str * list str) : Prop :=
  exists k, encoded (items (tts_synthesize_stream E k (fst b))) (snd b).

(** A block that holds the first chunks of its synthesis stream. *)
Definition partly_emitted (b : str * list str) : Prop :=
  exists k n,
    encoded (firstn n (items (tts_synthesize_stream E k (fst b)))) (snd b).

(** Sentence after sentence: whole blocks, one after the other. *)
Definition sequential (v : list audio_step) : Prop :=
  exists blocks, v = flat_map block blocks /\ Forall fully_emitted blocks.

(** The same, with a last block an exception may have cut short. *)
Definition sequential_cut (v : list audio_step) : Prop :=
  exists blocks cut,
    v = flat_map block blocks ++ cut /\ Forall fully_emitted blocks /\
    (cut = [] \/ exists b, cut = block b /\ partly_emitted b).

Definition audio_post {A} (r : result A) (v : list audio_step) : Prop :=
  match r with Ok _ => sequential v | Raise _ => sequential_cut v end.

(** Every run of [m] synthesizes sentence after sentence. *)
Definition in_sequence {A} (m : M A) : Prop :=
  forall st, post m st (fun r _ tr => audio_post r (audio_view tr)).

(** No run of [m] opens a synthesis stream or sends audio. *)
Definition silent {A} (m : M A) : Prop :=
  within (fun tr => audio_view tr = []) (fun _ _ => True) m.

(** Synthesis is begun for the sentences handed to [clean_for_speech]
    whose cleaned text is not empty, in the same order. *)
Definition paired (tr : list action) : Prop :=
  begun tr = filter truthy (map (clean_for_speech E) (spoken tr)).

(** Every run of [m] leaves a trace that is [paired]. *)
Definition pairs {A} (m : M A) : Prop :=
  within paired (fun _ _ => True) m.

(** [m] never raises. *)
Definition total {A} (m : M A) : Prop :=
  forall st, post m st (fun r _ _ => exists a, r = Ok a).

(** No call made while a [stop_listening] is handled raises into the
    handler: batch transcription returns a text, the chat stream and
    the synthesis streams end without an exception, and every chunk of
    synthesized audio is one the resampler accepts.  (The realtime
    session is not constrained: its failures are caught at the call
    site.) *)
Definition failures_contained : Prop :=
  (forall k a, exists t, stt_transcribe E k a = Ok t) /\
  (forall k t, fails (backend_chat_stream E k t) = false) /\
  (forall k t,
     fails (tts_synthesize_stream E k t) = false /\
     Forall (fun c => exists out,
               _resample_pcm16 c 24000 (tts_output_sample_rate E)
               = Ok out)
            (items (tts_synthesize_stream E k t))).

End Handler.

(** The events of a streamed response. *)
Definition is_stream_event (e : event) : Prop :=
  match e with
  | ResponseChunk _ | AudioChunk _ _ => True
  | _ => False
  end.

(** The events of the listening phase. *)
Definition is_listening_event (e : event) : Prop :=
  match e with
  | VadStatus _ _ | Pong => True
  | _ => False
  end.

Definition is_transcribe (c : call) : Prop :=
  match c with Transcribe _ => True | _ => False end.

(** The calls of transcript resolution. *)
Definition resolve_call (c : call) : Prop :=
  match c with SessionStop _ | Transcribe _ => True | _ => False end.

(** The calls of a response. *)
Definition response_call (c : call) : Prop :=
  match c with
  | ChatStream _ | CleanForSpeech _ | SynthesizeStream _ => True
  | _ => False
  end.

(** The calls of [start_listening]. *)
Definition start_call (c : call) : Prop :=
  match c with CreateSession | SessionStart => True | _ => False end.

Definition is_vad_status (e : event) : bool :=
  match e with VadStatus _ _ => true | _ => false end.

(** The messages of a turn between its [start_listening] and its
    [stop_listening]. *)
Definition in_turn (m : client_msg) : Prop :=
  match m with StartListening | StopListening => False | _ => True end.

(** The place of an event in a turn; [Pong] goes with the listening
    phase, where alone it can occur. *)
Definition rank (e : event) : nat :=
  match e with
  | ListeningStarted => 0
  | VadStatus _ _ | Pong => 1
  | ListeningStopped => 2
  | Transcript _ => 3
  | ResponseChunk _ | AudioChunk _ _ => 4
  | ResponseComplete _ => 5
  end.

(** The phase of the events the ordering of a turn speaks about. *)
Definition phase (e : event) : option nat :=
  match e with Pong => None | _ => Some (rank e) end.

(** What a turn sends from [stop_listening] on: nothing when an
    exception ended the connection before, else [listening_stopped], the
    transcript, the streamed response and [response_complete], or a
    prefix of that when an exception cut it short. *)
Inductive closing : list event -> Prop :=
| closing_cut : closing []
| closing_stopped : closing [ListeningStopped]
| closing_open t body :
    Forall is_stream_event body ->
    closing (ListeningStopped :: Transcript t :: body)
| closing_done t body full :
    Forall is_stream_event body ->
    closing (ListeningStopped :: Transcript t
               :: body ++ [ResponseComplete full]).

(** Every event of an earlier phase comes before every event of a later
    phase. *)
Definition in_phase_order (evs : list event) : Prop :=
  forall i j a b p q,
    nth_error evs i = Some a -> nth_error evs j = Some b ->
    phase a = Some p -> phase b = Some q -> p < q -> i < j.

Definition by_rank (a b : event) : Prop := rank a <= rank b.

Definition is_transcript (e : event) : bool :=
  match e with Transcript _ => true | _ => false end.

Definition is_response_complete (e : event) : bool :=
  match e with ResponseComplete _ => true | _ => false end.

(** How many events of a kind a list holds. *)
Definition count (p : event -> bool) (evs : list event) : nat :=
  length (filter p evs).

End Main.

(** ** The handler with the Aliyun realtime session *)

Module Deployment.
Import AliyunSTT Main.

(** What the realtime engine does, by tick: whether connecting and
    sending succeed, what the callback thread has queued since the
    previous call, and how a call of [stop_and_get_transcript] goes. *)
Record engine : Type := {
  connect_up : nat -> bool;
  append_up : nat -> bool;
  queued : nat -> list session_event;
  stopping : nat -> stop_world;
}.

#[export] Instance aliyun_session (w : engine) : RealtimeSession session := {|
  session_start k s := start (connect_up w k) s;
  session_append_audio_float32 k audio_np s :=
    (s, append_audio_float32 (append_up w k) audio_np s);
  session_drain_events k s :=
    let (evs, s') := drain_events (put (queued w k) s) in (s', Ok evs);
  session_stop_and_get_transcript k timeout_ms s :=
    let '(text, s', _) :=
      stop_and_get_transcript (stopping w k) timeout_ms 0 s in
    (s', Ok text);
  session_saw_speech_started := saw_speech_started;
|}.

(** [startup] (lines 132-156 and 206-212): which provider gives [stt] a
    [create_session] method, and when the local detector is loaded. *)
Inductive stt_provider : Type := Whisper | Aliyun.
Inductive aliyun_asr_mode : Type := Batch | Realtime.

Definition stt_has_create_session (p : stt_provider)
    (m : aliyun_asr_mode) : bool :=
  match p, m with
  | Aliyun, Realtime => true
  | _, _ => false
  end.

Definition vad_is_loaded (p : stt_provider) (m : aliyun_asr_mode)
  : bool :=
  match p, m with
  | Aliyun, Realtime => false
  | _, _ => true
  end.

(** An engine that is down: nothing connects, nothing arrives. *)
Definition engine_down : engine :=
  {| connect_up := fun _ => false;
     append_up := fun _ => false;
     queued := fun _ => [];
     stopping := fun _ => {| end_session_ms := 0; arrivals := fun _ => [] |}
  |}.

(** An engine that hears one utterance: it reports the start of speech
    after the first chunk and delivers the final text at the second poll
    of the stop. *)
Definition engine_hears (text : str) : engine :=
  {| connect_up := fun _ => true;
     append_up := fun _ => true;
     queued := fun k => if k =? 3 then [SpeechStarted] else [];
     stopping := fun _ =>
       {| end_session_ms := 120;
          arrivals := fun i => if i =? 1 then [SpeechStopped; FinalText text]
                               else [] |}
  |}.

(** An engine that connects and stays silent. *)
Definition engine_silent : engine :=
  {| connect_up := fun _ => true;
     append_up := fun _ => true;
     queued := fun _ => [];
     stopping := fun _ => {| end_session_ms := 0; arrivals := fun _ => [] |}
  |}.

(** Collaborators for the examples: the chat backend answers in four
    fragments, synthesis gives two chunks of two samples a sentence. *)
Definition demo_reply : list str :=
  [py "Hi"; py " there."; py " How are you"; py "?"].

Definition demo_audio : list Resampler.bytes :=
  [ ["001"; "000"; "002"; "000"]%byte; ["003"; "000"; "004"; "000"]%byte ].

Definition demo (realtime : bool) (local_vad : bool)
    (batch : result str) : collaborators session :=
  {| stt_create_session :=
       if realtime then Some (fun _ => Ok new_session) else None;
     stt_transcribe := fun _ _ => batch;
     vad := if local_vad then Some (fun _ _ => Ok true) else None;
     backend_chat_stream := fun _ _ =>
       {| items := demo_reply; fails := false |};
     tts_synthesize_stream := fun _ _ =>
       {| items := demo_audio; fails := false |};
     clean_for_speech := fun s => s;
     tts_output_sample_rate := 24000 |}.

Definition loud : ndarray := [(1 # 2)%Q; (-1 # 2)%Q].
Definition quiet : ndarray := [0%Q; (1 # 1000)%Q].

(** A session after a successful [start]. *)
Definition started_session : session := fst (start true new_session).

(** A connection that is listening, with a started session, after one
    audio chunk. *)
Definition listening_with_session (chunk : ndarray) : state session :=
  {| audio_buffer := [chunk]; is_listening := true;
     asr_realtime_session := Some started_session; tick := 4 |}.

(** One turn with one audio chunk. *)
Definition one_turn (chunk : ndarray) : list client_msg :=
  [StartListening; Audio (Some chunk); StopListening].

End Deployment.

(** ** More of Python's data: string equality, optional strings and
    dictionaries keyed by strings *)

Module PyData.

(** [a == b] on strings *)
Fixpoint str_eqb (a b : str) : bool :=
  match a, b with
  | [], [] => true
  | x :: a', y :: b' => (x =? y)%N && str_eqb a' b'
  | _, _ => false
  end.

(** [s.endswith(suffix)] *)
Definition ends_with (suffix s : str) : bool :=
  starts_with (rev suffix) (rev s).

(** Truthiness of a value that is [None] or a string. *)
Definition opt_truthy (s : option str) : bool :=
  match s with Some s => truthy s | None => false end.

(** [a or b] on values that are [None] or strings. *)
Definition opt_or (a b : option str) : option str :=
  if opt_truthy a then a else b.

(** [a or ""] *)
Definition or_empty (a : option str) : str :=
  match a with Some s => s | None => [] end.

Section Dict.
Variable V : Type.

Definition dict : Type := list (str * V).

(** [d.get(k)] *)
Fixpoint dict_get (d : dict) (k : str) : option V :=
  match d with
  | [] => None
  | (k', v) :: d' => if str_eqb k' k then Some v else dict_get d' k
  end.

(** [d[k] = v]: the value of a key the dictionary has is replaced where
    it stands, a new key goes last. *)
Fixpoint dict_set (d : dict) (k : str) (v : V) : dict :=
  match d with
  | [] => [(k, v)]
  | (k', v') :: d' =>
      if str_eqb k' k then (k', v) :: d' else (k', v') :: dict_set d' k v
  end.

(** [k in d] *)
Definition dict_in (d : dict) (k : str) : bool :=
  match dict_get d k with Some _ => true | None => false end.

End Dict.

End PyData.

(** ** API keys (auth.py) *)

Module Auth.
Import PyData.

(** [datetime.now(tz=None)]: microseconds on the local clock. *)
Definition datetime := Z.

(** The dataclass [APIKey]. *)
Record APIKey : Type := {
  key_id : str;
  key_hash : str;
  name : str;
  created_at : datetime;
  rate_limit_per_minute : Z;
  monthly_minutes : option Z;
  minutes_used : Q;
  last_request_at : option datetime;
  request_count_this_minute : Z;
  features : dict bool;
  active : bool;
  tier : str;
}.

(** The default of [features]. *)
Definition default_features : dict bool :=
  [ (py "continuous_mode", true);
    (py "voice_cloning", false);
    (py "priority_queue", false) ].

(** [APIKey] objects are shared: the one [generate_key] returns is the
    one [_keys] holds, and what [check_rate_limit] writes to it is seen
    through both.  An object is known by its address in the heap. *)
Definition ref := nat.

(** The [APIKey] objects made so far, and the two dictionaries of the
    global [token_manager]. *)
Record store : Type := {
  heap : list APIKey;
  _keys : dict ref;
  _key_to_id : dict str;
}.

(** [TokenManager.__init__] *)
Definition empty_store : store :=
  {| heap := []; _keys := []; _key_to_id := [] |}.

Definition deref (st : store) (r : ref) : option APIKey :=
  nth_error (heap st) r.

(** An assignment to fields of the object at [r]. *)
Fixpoint update (h : list APIKey) (r : ref) (f : APIKey -> APIKey)
  : list APIKey :=
  match h, r with
  | [], _ => []
  | k :: h', O => f k :: h'
  | k :: h', S r' => k :: update h' r' f
  end.

Definition assign (st : store) (r : ref) (f : APIKey -> APIKey) : store :=
  {| heap := update (heap st) r f;
     _keys := _keys st;
     _key_to_id := _key_to_id st |}.

Definition with_active (b : bool) (k : APIKey) : APIKey :=
  {| key_id := key_id k; key_hash := key_hash k; name := name k;
     created_at := created_at k;
     rate_limit_per_minute := rate_limit_per_minute k;
     monthly_minutes := monthly_minutes k;
     minutes_used := minutes_used k;
     last_request_at := last_request_at k;
     request_count_this_minute := request_count_this_minute k;
     features := features k; active := b; tier := tier k |}.

Definition with_minutes_used (m : Q) (k : APIKey) : APIKey :=
  {| key_id := key_id k; key_hash := key_hash k; name := name k;
     created_at := created_at k;
     rate_limit_per_minute := rate_limit_per_minute k;
     monthly_minutes := monthly_minutes k;
     minutes_used := m;
     last_request_at := last_request_at k;
     request_count_this_minute := request_count_this_minute k;
     features := features k; active := active k; tier := tier k |}.

Definition with_request_count (c : Z) (k : APIKey) : APIKey :=
  {| key_id := key_id k; key_hash := key_hash k; name := name k;
     created_at := created_at k;
     rate_limit_per_minute := rate_limit_per_minute k;
     monthly_minutes := monthly_minutes k;
     minutes_used := minutes_used k;
     last_request_at := last_request_at k;
     request_count_this_minute := c;
     features := features k; active := active k; tier := tier k |}.

Definition with_last_request_at (t : datetime) (k : APIKey) : APIKey :=
  {| key_id := key_id k; key_hash := key_hash k; name := name k;
     created_at := created_at k;
     rate_limit_per_minute := rate_limit_per_minute k;
     monthly_minutes := monthly_minutes k;
     minutes_used := minutes_used k;
     last_request_at := Some t;
     request_count_this_minute := request_count_this_minute k;
     features := features k; active := active k; tier := tier k |}.

(** The fields no method of the token manager assigns to. *)
Definition same_key (k k' : APIKey) : Prop :=
  key_id k' = key_id k /\ key_hash k' = key_hash k /\
  name k' = name k /\ created_at k' = created_at k /\
  tier k' = tier k /\
  rate_limit_per_minute k' = rate_limit_per_minute k /\
  monthly_minutes k' = monthly_minutes k /\
  features k' = features k.

(** One minute, in microseconds: [elapsed >= 60] on
    [timedelta.total_seconds()]. *)
Definition minute : Z := 60000000.

(** The body of [check_rate_limit] on the object it is given. *)
Definition rate_check (k : APIKey) (now : datetime) : bool * APIKey :=
  let k1 :=
    match last_request_at k with
    | Some last =>
        if (minute <=? now - last)%Z then with_request_count 0 k else k
    | None => k
    end in
  if (rate_limit_per_minute k1 <=? request_count_this_minute k1)%Z
  then (false, k1)
  else (true,
        with_last_request_at now
          (with_request_count (request_count_this_minute k1 + 1) k1)).

(** [check_monthly_quota(api_key, minutes)] *)
Definition check_monthly_quota (k : APIKey) (minutes : Q) : bool :=
  match monthly_minutes k with
  | None => true
  | Some limit => Qle_bool (minutes_used k + minutes) (inject_Z limit)
  end.

(** The master key's [features]. *)
Definition master_features : dict bool :=
  [ (py "continuous_mode", true);
    (py "voice_cloning", true);
    (py "priority_queue", true) ].

(** [PRICING_TIERS] *)
Record tier_config : Type := {
  tier_monthly_minutes : option Z;
  tier_rate_limit : Z;
  tier_price : Z;
  tier_features : list str;
}.

Definition PRICING_TIERS : dict tier_config :=
  [ (py "free",
     {| tier_monthly_minutes := Some 60%Z; tier_rate_limit := 30;
        tier_price := 0; tier_features := [py "continuous_mode"] |});
    (py "pro",
     {| tier_monthly_minutes := Some 500%Z; tier_rate_limit := 120;
        tier_price := 29;
        tier_features := [py "continuous_mode"; py "voice_cloning"] |});
    (py "enterprise",
     {| tier_monthly_minutes := None; tier_rate_limit := 500;
        tier_price := 99;
        tier_features := [py "continuous_mode"; py "voice_cloning";
                          py "priority_queue"] |}) ].

Section TokenManager.

(** [_hash_key]: [hashlib.sha256(plaintext_key.encode()).hexdigest()].
    Nothing below depends on which function of the key it is. *)
Variable _hash_key : str -> str.

(** [generate_key(name, tier, rate_limit, monthly_minutes)], with
    [rand_id] what [secrets.token_hex(8)] returns, [rand_token] what
    [secrets.token_urlsafe(32)] returns and [now] the clock: the
    plaintext key, the new object, and the store. *)
Definition generate_key (st : store) (rand_id rand_token : str)
    (now : datetime) (name tier : str) (rate_limit : Z)
    (monthly_minutes : option Z) : str * ref * store :=
  let key_id := rand_id in
  let plaintext_key := py "ocv_" ++ rand_token in
  let key_hash := _hash_key plaintext_key in
  let api_key :=
    {| key_id := key_id; key_hash := key_hash; name := name;
       created_at := now;
       rate_limit_per_minute := rate_limit;
       monthly_minutes := monthly_minutes;
       minutes_used := 0%Q;
       last_request_at := None;
       request_count_this_minute := 0%Z;
       features := default_features;
       active := true;
       tier := tier |} in
  let r := length (heap st) in
  (plaintext_key, r,
   {| heap := heap st ++ [api_key];
      _keys := dict_set (_keys st) key_id r;
      _key_to_id := dict_set (_key_to_id st) key_hash key_id |}).

(** [validate_key(plaintext_key)]: the object of the key, [None] when
    the key is not valid. *)
Definition validate_key (st : store) (plaintext_key : str) : option ref :=
  if negb (truthy plaintext_key)
     || negb (starts_with (py "ocv_") plaintext_key)
  then None
  else
    match dict_get (_key_to_id st) (_hash_key plaintext_key) with
    | None => None
    | Some key_id =>
        if negb (truthy key_id) then None
        else
          match dict_get (_keys st) key_id with
          | None => None
          | Some r =>
              match deref st r with
              | Some api_key => if active api_key then Some r else None
              | None => None
              end
          end
    end.

(** [check_rate_limit(api_key)] at clock [now], on the object at [r]. *)
Definition check_rate_limit (st : store) (r : ref) (now : datetime)
  : bool * store :=
  match deref st r with
  | Some k =>
      (fst (rate_check k now),
       assign st r (fun k => snd (rate_check k now)))
  | None => (false, st)
  end.

(** [record_usage(api_key, minutes)] *)
Definition record_usage (st : store) (r : ref) (minutes : Q) : store :=
  assign st r (fun k => with_minutes_used (minutes_used k + minutes)%Q k).

(** [revoke_key(key_id)] *)
Definition revoke_key (st : store) (key_id : str) : bool * store :=
  match dict_get (_keys st) key_id with
  | Some r => (true, assign st r (with_active false))
  | None => (false, st)
  end.

(** [load_keys_from_env()], with [master_key] what
    [os.getenv("OPENCLAW_MASTER_KEY")] returns. *)
Definition load_keys_from_env (st : store) (master_key : option str)
    (now : datetime) : store :=
  match master_key with
  | Some master_key =>
      if truthy master_key then
        let key_hash := _hash_key master_key in
        let api_key :=
          {| key_id := py "master"; key_hash := key_hash;
             name := py "Master Key";
             created_at := now;
             rate_limit_per_minute := 1000;
             monthly_minutes := None;
             minutes_used := 0%Q;
             last_request_at := None;
             request_count_this_minute := 0%Z;
             features := master_features;
             active := true;
             tier := py "enterprise" |} in
        let r := length (heap st) in
        {| heap := heap st ++ [api_key];
           _keys := dict_set (_keys st) (py "master") r;
           _key_to_id := dict_set (_key_to_id st) key_hash (py "master") |}
      else st
  | None => st
  end.

(** What a client of the token manager may ask of it. *)
Inductive request : Type :=
| GenerateKey (rand_id rand_token : str) (now : datetime)
    (name tier : str) (rate_limit : Z) (monthly_minutes : option Z)
| CheckRateLimit (r : ref) (now : datetime)
| RecordUsage (r : ref) (minutes : Q)
| RevokeKey (key_id : str)
| LoadKeysFromEnv (master_key : option str) (now : datetime).

Definition step (st : store) (q : request) : store :=
  match q with
  | GenerateKey rand_id rand_token now name tier rate_limit monthly =>
      snd (generate_key st rand_id rand_token now name tier rate_limit
             monthly)
  | CheckRateLimit r now => snd (check_rate_limit st r now)
  | RecordUsage r minutes => record_usage st r minutes
  | RevokeKey key_id => snd (revoke_key st key_id)
  | LoadKeysFromEnv master_key now => load_keys_from_env st master_key now
  end.

Definition run (st : store) (qs : list request) : store :=
  fold_left step qs st.

(** [check_rate_limit] called at each of [times] in turn: the answers,
    and the store at the end. *)
Fixpoint check_rate_limits (st : store) (r : ref) (times : list datetime)
  : list bool * store :=
  match times with
  | [] => ([], st)
  | now :: times' =>
      let (ok, st1) := check_rate_limit st r now in
      let (oks, st2) := check_rate_limits st1 r times' in
      (ok :: oks, st2)
  end.

(** The request introduces no key id the store already has. *)
Definition fresh_id (st : store) (q : request) : Prop :=
  match q with
  | GenerateKey rand_id _ _ _ _ _ _ => dict_in (_keys st) rand_id = false
  | LoadKeysFromEnv _ _ => dict_in (_keys st) (py "master") = false
  | _ => True
  end.

(** Every request of the run meets a store without the key id it
    introduces. *)
Fixpoint fresh_ids (st : store) (qs : list request) : Prop :=
  match qs with
  | [] => True
  | q :: qs' => fresh_id st q /\ fresh_ids (step st q) qs'
  end.

(** Every hash the store knows leads to the object that carries it. *)
Definition hash_consistent (st : store) : Prop :=
  forall h id, dict_get (_key_to_id st) h = Some id ->
    exists r k, dict_get (_keys st) id = Some r /\
                deref st r = Some k /\ key_hash k = h.

End TokenManager.

(** For the examples: a stand-in for [sha256], and a token manager
    with one key of two requests a minute. *)
Definition toy_hash (s : str) : str := rev s.

Definition demo_store : store :=
  snd (generate_key toy_hash empty_store (py "00ff") (py "abc") 0%Z
         (py "app") (py "free") 2%Z (Some 60%Z)).

(** The object of that key, as [generate_key] makes it. *)
Definition demo_key : APIKey :=
  {| key_id := py "00ff"; key_hash := toy_hash (py "ocv_abc");
     name := py "app"; created_at := 0%Z;
     rate_limit_per_minute := 2%Z; monthly_minutes := Some 60%Z;
     minutes_used := 0%Q; last_request_at := None;
     request_count_this_minute := 0%Z;
     features := default_features; active := true; tier := py "free" |}.

End Auth.

(** ** Key management and admission (main.py, lines 225-270 and 291-318) *)

Module Api.
Import PyData Auth.

(** The fields of [Settings] that the key checks read. *)
Record Settings : Type := {
  require_auth : bool;
  master_key : option str;
}.

(** What [create_api_key] returns: [{"error": ...}], or the new key. *)
Inductive key_response : Type :=
| KeyError (error : str)
| KeyCreated (api_key key_id name tier : str) (monthly_minutes : option Z)
    (rate_limit : Z).

(** What [websocket_endpoint] does with a connection before its loop:
    [websocket.close(code, reason)], or [websocket.accept()] with the
    [api_key] it found. *)
Inductive admission : Type :=
| CloseWith (code : Z) (reason : str)
| Accept (api_key : option ref).

Section Endpoints.
Variable _hash_key : str -> str.
Variable settings : Settings.

(** Lines 238-247: the error the master key check answers, if any. *)
Definition master_key_error (st : store) (given : option str)
  : option str :=
  if require_auth settings then
    if negb (opt_truthy given) && negb (opt_truthy (master_key settings))
    then Some (py "Master key required")
    else
      let provided_key := or_empty given in
      if match master_key settings with
         | Some m => negb (str_eqb provided_key m)
         | None => true
         end
      then
        match validate_key _hash_key st provided_key with
        | Some r =>
            match deref st r with
            | Some key =>
                if negb (str_eqb (tier key) (py "enterprise"))
                then Some (py "Invalid master key")
                else None
            | None => Some (py "Invalid master key")
            end
        | None => Some (py "Invalid master key")
        end
      else None
  else None.

(** [create_api_key(name, tier, master_key)], with the random strings
    and the clock [generate_key] uses. *)
Definition create_api_key (st : store) (rand_id rand_token : str)
    (now : datetime) (name tier : str) (given : option str)
  : key_response * store :=
  match master_key_error st given with
  | Some error => (KeyError error, st)
  | None =>
      match dict_get PRICING_TIERS tier with
      | None =>
          (KeyError
             (py "Invalid tier. Options: ['free', 'pro', 'enterprise']"),
           st)
      | Some tier_config =>
          let '(plaintext_key, r, st') :=
            generate_key _hash_key st rand_id rand_token now name tier
              (tier_rate_limit tier_config)
              (tier_monthly_minutes tier_config) in
          (KeyCreated plaintext_key rand_id name tier
             (tier_monthly_minutes tier_config)
             (tier_rate_limit tier_config),
           st')
      end
  end.

(** Lines 291-318 of [websocket_endpoint], with [query] what
    [websocket.query_params.get("api_key")] returns and [header] what
    [websocket.headers.get("x-api-key")] returns. *)
Definition authenticate (st : store) (query header : option str)
    (now : datetime) : admission * store :=
  let api_key_str := opt_or query header in
  if require_auth settings then
    if negb (opt_truthy api_key_str)
    then (CloseWith 4001 (py "API key required"), st)
    else
      match validate_key _hash_key st (or_empty api_key_str) with
      | None => (CloseWith 4002 (py "Invalid API key"), st)
      | Some r =>
          let (ok, st') := check_rate_limit st r now in
          if ok then (Accept (Some r), st')
          else (CloseWith 4003 (py "Rate limit exceeded"), st')
      end
  else
    (Accept (if opt_truthy api_key_str
             then validate_key _hash_key st (or_empty api_key_str)
             else None),
     st).

(** One connection after the other with the same key, at each of
    [times]. *)
Fixpoint connections (st : store) (api_key_str : str)
    (times : list datetime) : list admission * store :=
  match times with
  | [] => ([], st)
  | now :: times' =>
      let (a, st1) := authenticate st (Some api_key_str) None now in
      let (l, st2) := connections st1 api_key_str times' in
      (a :: l, st2)
  end.

(** The caller of [create_api_key] has authority: the key it gives is
    the configured master key, or validates to an enterprise key. *)
Definition has_authority (st : store) (given : option str) : Prop :=
  let provided_key := or_empty given in
  (provided_key <> [] /\ master_key settings = Some provided_key) \/
  (exists r key, validate_key _hash_key st provided_key = Some r /\
                 deref st r = Some key /\ tier key = py "enterprise").

End Endpoints.

(** For the examples: authentication on, with a master key. *)
Definition demo_settings : Settings :=
  {| require_auth := true; master_key := Some (py "ocv_master_k") |}.

End Api.

(** ** The realtime callback (aliyun_stt.py, lines 115-154) *)

Module AliyunCallback.
Import PyData AliyunSTT.

(** A response of the realtime engine, as [on_event] reads it:
    [msg.get("type", "")] and the text fields it looks at. *)
Record response : Type := {
  rtype : str;
  text : option str;
  stash : option str;
  transcript : option str;
}.

(** [on_event(response)]: what it puts on the queue.  [None] is a
    response that is not a dictionary and cannot be made one. *)
Definition on_event (response : option response) : list session_event :=
  match response with
  | None => []
  | Some msg =>
      let event_type := rtype msg in
      if str_eqb event_type (py "input_audio_buffer.speech_started")
      then [SpeechStarted]
      else if str_eqb event_type (py "input_audio_buffer.speech_stopped")
      then [SpeechStopped]
      else if str_eqb event_type
                (py "conversation.item.input_audio_transcription.text")
      then
        let partial := or_empty (opt_or (opt_or (text msg) (stash msg))
                                        (Some [])) in
        if truthy partial then [PartialText partial] else []
      else if str_eqb event_type
                (py "conversation.item.input_audio_transcription.completed")
      then
        [FinalText (or_empty (opt_or (opt_or (transcript msg) (text msg))
                                     (Some [])))]
      else []
  end.

(** [on_close(code, msg)] *)
Definition on_close (code : Z) (msg : str) : list session_event :=
  [Closed code msg].

(** The callback thread receives [responses]: what the queue of the
    session holds afterwards. *)
Definition receive (responses : list (option response)) (s : session)
  : session :=
  put (flat_map on_event responses) s.

(** The text of the last [final] event of a list, if it has one. *)
Fixpoint last_final (evs : list session_event) : option str :=
  match evs with
  | [] => None
  | ev :: evs' =>
      match last_final evs' with
      | Some t => Some t
      | None => match ev with FinalText t => Some t | _ => None end
      end
  end.

(** The text of the last [partial] event of a list, if it has one. *)
Fixpoint last_partial (evs : list session_event) : option str :=
  match evs with
  | [] => None
  | ev :: evs' =>
      match last_partial evs' with
      | Some t => Some t
      | None => match ev with PartialText t => Some t | _ => None end
      end
  end.

Definition is_speech_started (ev : session_event) : bool :=
  match ev with SpeechStarted => true | _ => false end.

Definition is_completed (r : option response) : bool :=
  match r with
  | Some msg =>
      str_eqb (rtype msg)
        (py "conversation.item.input_audio_transcription.completed")
  | None => false
  end.

End AliyunCallback.

(** ** The connection as a whole (main.py, lines 318-535) *)

Module Connection.
Import AliyunSTT Main.

(** The [vad_status] events lines 493-506 send for drained events. *)
Definition vad_events (evs : list session_event) : list event :=
  flat_map (fun ev =>
              match ev with
              | SpeechStarted =>
                  [VadStatus true (Some (py "speech_started"))]
              | SpeechStopped =>
                  [VadStatus false (Some (py "speech_stopped"))]
              | _ => []
              end) evs.

(** What the [except] clauses of lines 521-535 add to the trace, for
    the session the connection holds and the exception that ended the
    loop. *)
Definition closing_calls (S : Type) (session : option S) (e : exn)
  : list action :=
  match session with
  | Some _ => [Call (SessionStop 500)]
  | None => []
  end
  ++ match e with
     | Error => [Call WebSocketClose]
     | WebSocketDisconnect => []
     end.

(** The calls [on_audio] makes on the realtime session. *)
Definition audio_call (a : ndarray) (c : call) : Prop :=
  c = SessionAppendAudio a \/ c = SessionDrainEvents.

End Connection.

(** ** The chat backend (backend.py) *)

Module Backend.
Import PyData Main.

(** A message of the conversation: [{"role": ..., "content": ...}]. *)
Record message : Type := {
  role : str;
  content : str;
}.

(** The fields of [AIBackend] the methods below read or write;
    [has_client] is the truth value of [self._client]. *)
Record AIBackend : Type := {
  backend_type : str;
  has_client : bool;
  system_prompt : str;
  conversation_history : list message;
}.

(** [l[-10:]] *)
Definition last10 (A : Type) (l : list A) : list A :=
  skipn (length l - 10) l.

(** [history.append(m)] *)
Definition remember (b : AIBackend) (m : message) : AIBackend :=
  {| backend_type := backend_type b;
     has_client := has_client b;
     system_prompt := system_prompt b;
     conversation_history := conversation_history b ++ [m] |}.

(** [_build_messages] *)
Definition _build_messages (b : AIBackend) : list message :=
  {| role := py "system"; content := system_prompt b |}
    :: last10 (conversation_history b).

(** [clear_history] *)
Definition clear_history (b : AIBackend) : AIBackend :=
  {| backend_type := backend_type b;
     has_client := has_client b;
     system_prompt := system_prompt b;
     conversation_history := [] |}.

Definition echo (user_message : str) : str :=
  py "I heard you say: " ++ user_message.

Definition apology : str := py "Sorry, I had trouble processing that.".

Definition apology_retry : str :=
  py "Sorry, I had trouble processing that. Could you try again?".

Section Client.

(** The completions API, as the backend sees it.  A streamed completion
    is the text of its chunks in turn (the empty string for a chunk
    without choices or content), cut by an exception when [create] or the
    iteration raises.  A plain completion is
    [response.choices[0].message.content], or an exception. *)
Variable create_stream : list message -> stream str.
Variable create : list message -> result (option str).

(** [_chat_openai_once(messages)] *)
Definition _chat_openai_once (messages : list message) : str :=
  match create messages with
  | Ok (Some text) => strip text
  | Ok None => strip []
  | Raise _ => []
  end.

(** [_chat_openai(user_message)] *)
Definition _chat_openai (b : AIBackend) (user_message : str)
  : str * AIBackend :=
  let b1 := remember b {| role := py "user"; content := user_message |} in
  let messages := _build_messages b1 in
  let answer := _chat_openai_once messages in
  let assistant_message :=
    if truthy answer then answer else apology_retry in
  (assistant_message,
   remember b1 {| role := py "assistant"; content := assistant_message |}).

(** [chat(user_message)] *)
Definition chat (b : AIBackend) (user_message : str) : str * AIBackend :=
  if str_eqb (backend_type b) (py "openai") && has_client b
  then _chat_openai b user_message
  else (echo user_message, b).

(** [_chat_openai_stream(user_message)], consumed to its end: the
    chunks it yields, and the backend it leaves. *)
Definition _chat_openai_stream (b : AIBackend) (user_message : str)
  : list str * AIBackend :=
  let b1 := remember b {| role := py "user"; content := user_message |} in
  let messages := _build_messages b1 in
  let s := create_stream messages in
  let texts := filter truthy (items s) in
  let '(yielded, full_response) :=
    if fails s then
      let fallback_text := _chat_openai_once messages in
      if truthy fallback_text
      then (texts ++ [fallback_text], fallback_text)
      else (texts ++ [apology], apology)
    else
      if negb (truthy (strip (concat texts))) then
        let fallback_text := _chat_openai_once messages in
        if truthy fallback_text
        then (texts ++ [fallback_text], fallback_text)
        else (texts, concat texts)
      else (texts, concat texts) in
  (yielded,
   remember b1 {| role := py "assistant"; content := full_response |}).

(** [chat_stream(user_message)], consumed to its end. *)
Definition chat_stream (b : AIBackend) (user_message : str)
  : list str * AIBackend :=
  if str_eqb (backend_type b) (py "openai") && has_client b
  then _chat_openai_stream b user_message
  else ([echo user_message], b).

(** One [chat_stream] after the other: what each yields, and the
    backend at the end. *)
Fixpoint chat_streams (b : AIBackend) (user_messages : list str)
  : list (list str) * AIBackend :=
  match user_messages with
  | [] => ([], b)
  | m :: ms =>
      let (y, b1) := chat_stream b m in
      let (ys, b2) := chat_streams b1 ms in
      (y :: ys, b2)
  end.

End Client.

End Backend.

(** ** Aliyun speech synthesis (aliyun_tts.py) *)

Module AliyunTTS.
Import Resampler Main.

(** A chunk of the streamed response, as [synthesize_stream] reads it:
    [getattr(chunk, "status_code", 200)], and the URL under
    [output['audio']['url']], empty when there is no output, no audio or
    no URL. *)
Record chunk : Type := {
  status_code : Z;
  audio_url : str;
}.

(** [np.clip(audio * 32767.0, -32768, 32767).astype(np.int16).tobytes()] *)
Definition pcm16_of_float (audio : list Q) : bytes :=
  tobytes_int16 (map (fun v => astype_int16 (clip (v * 32767)%Q)) audio).

(** [audio.astype(np.float32) / 32768.0] *)
Definition float_of_pcm16 (audio : list Z) : list Q :=
  map (fun s => (inject_Z s / 32768)%Q) audio.

(** [np.zeros(1000, dtype=np.int16).tobytes()] *)
Definition silence : bytes := tobytes_int16 (repeat 0%Z 1000).

Section Service.

(** The service: the streamed response to a text (the call or the
    iteration may raise), and the frames of the WAV file behind a URL,
    [None] when the download or the parsing of the file fails. *)
Variable call : str -> stream chunk.
Variable frames_at : str -> option bytes.

(** [_download_audio(url)]: every failure, that of [np.frombuffer] on
    an odd number of bytes included, is caught and gives [None]. *)
Definition _download_audio (url : str) : option (list Q) :=
  match frames_at url with
  | Some frames => option_map float_of_pcm16 (frombuffer_int16 frames)
  | None => None
  end.

(** The body of the [for chunk in response_iter] loop: what it yields
    for one chunk. *)
Definition on_chunk (c : chunk) : list bytes :=
  if negb (status_code c =? 200)%Z then []
  else if truthy (audio_url c) then
    match _download_audio (audio_url c) with
    | Some audio_data => [pcm16_of_float audio_data]
    | None => []
    end
  else [].

(** [synthesize_stream(text)], consumed to its end: the chunks it
    yields.  An exception ends the loop and is logged. *)
Definition synthesize_stream (text : str) : list bytes :=
  let produced := flat_map on_chunk (items (call text)) in
  match produced with
  | [] => [silence]
  | _ :: _ => produced
  end.

End Service.

End AliyunTTS.

(** ** Start-up (main.py, lines 115-214) *)

Module Startup.
Import PyData.

Definition slash : char := 47%N.

Fixpoint lstrip_slash (s : str) : str :=
  match s with
  | c :: s' => if (c =? slash)%N then lstrip_slash s' else s
  | [] => []
  end.

(** [s.rstrip("/")] *)
Definition rstrip_slash (s : str) : str := rev (lstrip_slash (rev s)).

(** Lines 179-181: the base URL of the gateway. *)
Definition gateway_base (gateway_url : str) : str :=
  let base := rstrip_slash gateway_url in
  if ends_with (py "/v1") base then base else base ++ py "/v1".

(** The fields of [Settings] that [startup] reads to choose what it
    builds, and the environment variables it falls back on. *)
Record Settings : Type := {
  stt_provider : str;
  aliyun_asr_mode : str;
  tts_provider : str;
  dashscope_api_key : option str;
  gateway_url : option str;
  gateway_token : option str;
  backend_type : str;
  backend_url : str;
}.

Record environ : Type := {
  DASHSCOPE_API_KEY : option str;
  OPENCLAW_GATEWAY_URL : option str;
  OPENCLAW_GATEWAY_TOKEN : option str;
}.

(** The classes [startup] chooses from. *)
Inductive stt_class : Type :=
| AliyunASR
| AliyunASRRealtimeFactory
| WhisperSTT.

Inductive tts_class : Type :=
| AliyunTTSProxy
| ChatterboxTTS.

(** What [startup] sets the globals to: the class of [stt] and of [tts],
    the type and URL [AIBackend] is built with, and whether [vad] is a
    [VoiceActivityDetector] or [None]. *)
Record globals : Type := {
  stt : stt_class;
  tts : tts_class;
  backend : str * str;
  vad : bool;
}.

(** [hasattr(stt, "create_session")]: of the three classes, only
    [AliyunASRRealtimeFactory] defines [create_session]. *)
Definition has_create_session (c : stt_class) : bool :=
  match c with
  | AliyunASRRealtimeFactory => true
  | _ => false
  end.

(** [startup()], as far as its own decisions go: the [RuntimeError] it
    raises, or what it builds (the constructors are taken to return). *)
Definition startup (settings : Settings) (env : environ) : result globals :=
  let api_key := opt_or (dashscope_api_key settings) (DASHSCOPE_API_KEY env) in
  let aliyun_stt := str_eqb (stt_provider settings) (py "aliyun") in
  let batch := str_eqb (aliyun_asr_mode settings) (py "batch") in
  if aliyun_stt && negb (opt_truthy api_key) then Raise Error
  else
    let stt :=
      if aliyun_stt
      then if batch then AliyunASR else AliyunASRRealtimeFactory
      else WhisperSTT in
    let aliyun_tts := str_eqb (tts_provider settings) (py "aliyun") in
    if aliyun_tts && negb (opt_truthy api_key) then Raise Error
    else
      let tts := if aliyun_tts then AliyunTTSProxy else ChatterboxTTS in
      let url := opt_or (gateway_url settings) (OPENCLAW_GATEWAY_URL env) in
      let token :=
        opt_or (gateway_token settings) (OPENCLAW_GATEWAY_TOKEN env) in
      let backend :=
        if opt_truthy url && opt_truthy token
        then (py "openai", gateway_base (or_empty url))
        else (backend_type settings, backend_url settings) in
      let vad := negb (aliyun_stt && negb batch) in
      Ok {| stt := stt; tts := tts; backend := backend; vad := vad |}.

End Startup.

(** ** Sentence streaming (streaming.py) *)

Module SentenceStreams.
Import Segmenter Main.

(** [[.!?]] *)
Definition is_end (c : char) : bool :=
  ((c =? dot) || (c =? bang) || (c =? qmark))%N.

(** [re.split(r'(?<=[.!?])\s+', text)], continued from the middle of
    [text]: [piece] is the piece read so far, [after_end] tells whether
    the character before was one of [.!?], [in_gap] whether the
    characters before were whitespace of a match. *)
Fixpoint re_split (piece : str) (after_end in_gap : bool) (text : str)
  : list str :=
  match text with
  | [] => [piece]
  | c :: text' =>
      if in_gap && is_space c then re_split piece false true text'
      else if after_end && is_space c
      then piece :: re_split [] false true text'
      else re_split (piece ++ [c]) (is_end c) false text'
  end.

(** [stream_sentences(text)]: the sentences it yields. *)
Definition stream_sentences (text : str) : list str :=
  filter truthy (map strip (re_split [] false false text)).

(** [s] ends with one of [.!?]. *)
Definition ends_sentence (s : str) : bool :=
  match rev s with
  | c :: _ => is_end c
  | [] => false
  end.

(** [re.search(r'^(.*?[.!?])\s*', buffer)], continued after [seen]:
    the sentence ([match.group(1)]) and the buffer after the match
    ([buffer[match.end():]]).  The dot matches anything but a newline, so
    a newline before the first of [.!?] leaves nothing to match. *)
Fixpoint search_sentence (seen buffer : str) : option (str * str) :=
  match buffer with
  | [] => None
  | c :: buffer' =>
      if is_end c then Some (seen ++ [c], lstrip buffer')
      else if (c =? newline)%N then None
      else search_sentence (seen ++ [c]) buffer'
  end.

(** The [while True] loop of [stream_openai_response] on [buffer]: the
    sentences it yields and the buffer it leaves.  Every turn shortens
    the buffer, so [length buffer] turns are enough. *)
Fixpoint take_sentences (fuel : nat) (buffer : str) : list str * str :=
  match fuel with
  | O => ([], buffer)
  | S fuel' =>
      match search_sentence [] buffer with
      | None => ([], buffer)
      | Some (sentence, rest) =>
          let (more, final) := take_sentences fuel' rest in
          (sentence :: more, final)
      end
  end.

(** The body of [async for chunk in response], on the text of the
    chunk (empty when the chunk has no content). *)
Definition on_text (buffer text : str) : list str * str :=
  if truthy text
  then take_sentences (length (buffer ++ text)) (buffer ++ text)
  else ([], buffer).

Fixpoint on_texts (buffer : str) (texts : list str) : list str * str :=
  match texts with
  | [] => ([], buffer)
  | text :: texts' =>
      let (now, buffer1) := on_text buffer text in
      let (later, final) := on_texts buffer1 texts' in
      (now ++ later, final)
  end.

(** [stream_openai_response], consumed to its end, on the texts of the
    chunks of the completion: an exception, of [create] or of the
    iteration, is answered with an apology after what was yielded. *)
Definition stream_openai_response (response : stream str) : list str :=
  let (during, buffer) := on_texts [] (items response) in
  if fails response
  then during ++ [py "Sorry, I had trouble processing that."]
  else during ++ (if truthy (strip buffer) then [strip buffer] else []).

(** A sentence as the loop yields it: one of [.!?] at its end, and
    before that neither one of them nor a newline. *)
Definition one_sentence (s : str) : Prop :=
  exists p c,
    s = p ++ [c] /\ is_end c = true /\
    Forall (fun x => is_end x = false /\ x <> newline) p.

(** A newline comes before the first of [.!?] in [s], if any. *)
Fixpoint newline_first (s : str) : bool :=
  match s with
  | [] => false
  | c :: s' =>
      if is_end c then false
      else if (c =? newline)%N then true
      else newline_first s'
  end.

End SentenceStreams.

(* ================================================================== *)
(** * Part II: properties *)
(* ================================================================== *)

(** ** Facts about Python strings *)

Module PyStrFacts.

Lemma nonspace_app (s t : str) :
  nonspace (s ++ t) = nonspace s ++ nonspace t.
Proof. apply filter_app. Qed.

Lemma nonspace_rev (s : str) : nonspace (rev s) = rev (nonspace s).
Proof. apply filter_rev. Qed.

Lemma nonspace_lstrip (s : str) : nonspace (lstrip s) = nonspace s.
Proof.
  induction s as [|c s IH]; simpl; [reflexivity|].
  destruct (is_space c) eqn:E; simpl; rewrite ?E; simpl; auto.
Qed.

Lemma nonspace_strip (s : str) : nonspace (strip s) = nonspace s.
Proof.
  unfold strip, rstrip.
  now rewrite nonspace_rev, nonspace_lstrip, nonspace_rev, rev_involutive,
    nonspace_lstrip.
Qed.

Lemma nonspace_concat (l : list str) :
  nonspace (concat l) = concat (map nonspace l).
Proof.
  induction l as [|s l IH]; simpl; [reflexivity|].
  now rewrite nonspace_app, IH.
Qed.

(** A string without a non-whitespace character trims to nothing. *)
Lemma truthy_strip_nonspace (s : str) :
  truthy (strip s) = false -> nonspace s = [].
Proof.
  intros H. rewrite <- nonspace_strip.
  destruct (strip s); [reflexivity | discriminate].
Qed.

Lemma lstrip_head (s : str) c t : lstrip s = c :: t -> is_space c = false.
Proof.
  induction s as [|a s IH]; simpl; [discriminate|].
  destruct (is_space a) eqn:E; [exact IH|].
  intros [= <- _]. exact E.
Qed.

(** What [strip] returns neither starts nor ends with whitespace. *)
Lemma strip_trimmed (s : str) :
  (forall c t, strip s = c :: t -> is_space c = false) /\
  (forall c t, strip s = t ++ [c] -> is_space c = false).
Proof.
  split; intros c t H.
  - unfold strip, rstrip in H.
    destruct (lstrip s) as [|a u] eqn:L; [discriminate|].
    pose proof (lstrip_head L) as Ha.
    destruct (lstrip (rev (a :: u))) as [|b v] eqn:R; [discriminate|].
    (* the first character of [a :: u] survives: it is not whitespace *)
    assert (Hk : forall r, lstrip (r ++ [a]) <> [] /\
                          exists w, rev (lstrip (r ++ [a])) = a :: w).
    { induction r as [|x r IHr]; simpl.
      - rewrite Ha. split; [discriminate | now exists []].
      - destruct (is_space x); [exact IHr|].
        split; [discriminate|].
        simpl. rewrite rev_app_distr. simpl. now eexists. }
    destruct (Hk (rev u)) as [_ [w Hw]].
    simpl in R. rewrite R in Hw. rewrite Hw in H.
    injection H as <- _. exact Ha.
  - unfold strip, rstrip in H.
    apply (f_equal (@rev _)) in H.
    rewrite rev_involutive, rev_app_distr in H. simpl in H.
    exact (lstrip_head H).
Qed.

Lemma starts_with_pair (p w : char) (s : str) :
  starts_with [p; w] s = true <->
  exists t, s = p :: w :: t.
Proof.
  split.
  - destruct s as [|a [|b t]]; simpl; try discriminate.
    + now rewrite andb_false_r.
    + intros H. apply andb_prop in H as [H1 H2].
      apply andb_prop in H2 as [H2 _].
      apply N.eqb_eq in H1, H2. subst. now exists t.
  - intros [t ->]. simpl. now rewrite !N.eqb_refl.
Qed.

Lemma find_some (sub s : str) i :
  find sub s = Some i ->
  starts_with sub (skipn i s) = true /\
  forall j, j < i -> starts_with sub (skipn j s) = false.
Proof.
  revert i. induction s as [|c s IH]; intros i; simpl.
  - destruct (starts_with sub []) eqn:E; [|discriminate].
    intros [= <-]. split; [exact E | intros j Hj; lia].
  - destruct (starts_with sub (c :: s)) eqn:E.
    + intros [= <-]. split; [exact E | intros j Hj; lia].
    + destruct (find sub s) as [k|] eqn:F; [|discriminate].
      intros [= <-]. destruct (IH k eq_refl) as [H1 H2].
      split; [exact H1|].
      intros [|j] Hj; [exact E | apply H2; lia].
Qed.

Lemma find_none (sub s : str) :
  find sub s = None -> forall j, starts_with sub (skipn j s) = false.
Proof.
  induction s as [|c s IH]; simpl.
  - destruct (starts_with sub []) eqn:E; [discriminate|].
    intros _ [|j]; exact E.
  - destruct (starts_with sub (c :: s)) eqn:E; [discriminate|].
    destruct (find sub s) eqn:F; [discriminate|].
    intros _ [|j]; [exact E | now apply IH].
Qed.

Lemma lstrip_fixed (s : str) :
  (forall c t, s = c :: t -> is_space c = false) -> lstrip s = s.
Proof.
  destruct s as [|c t]; [reflexivity|].
  intros H. simpl. now rewrite (H c t eq_refl).
Qed.

Lemma strip_idem (s : str) : strip (strip s) = strip s.
Proof.
  destruct (strip_trimmed s) as [Hh Ht].
  unfold strip at 1. rewrite (lstrip_fixed Hh).
  unfold rstrip. rewrite lstrip_fixed; [apply rev_involutive|].
  intros c t E. apply (Ht c (rev t)).
  rewrite <- (rev_involutive (strip s)), E. reflexivity.
Qed.

End PyStrFacts.

Module SegmenterFacts.
Import Segmenter PyStrFacts.

Example demo_stream :
  feed_all [] [py "Hi"; py " there."; py " How are you"; py "?"]
  = ([[]; []; [py "Hi there."]; []], py "How are you?").
Proof. vm_compute. reflexivity. Qed.

Lemma separators_shape sep :
  In sep separators ->
  exists p w, sep = [p; w] /\ is_punct p /\ is_gap w.
Proof.
  unfold separators, is_punct, is_gap. simpl.
  intros [<- | [<- | [<- | [<- | [<- | [<- | []]]]]]]; do 2 eexists; eauto 6.
Qed.

Lemma boundary_at_chars buf i :
  boundary_at buf i ->
  exists p w t, skipn i buf = p :: w :: t /\ is_punct p /\ is_gap w.
Proof.
  intros [sep [Hin Hs]].
  destruct (separators_shape Hin) as [p [w [-> [Hp Hw]]]].
  apply starts_with_pair in Hs as [t Ht]. eauto 6.
Qed.

Lemma boundary_in_range buf i : boundary_at buf i -> i + 2 <= length buf.
Proof.
  intros H. destruct (boundary_at_chars H) as [p [w [t [E _]]]].
  apply (f_equal (@length _)) in E. rewrite length_skipn in E.
  simpl in E. lia.
Qed.

Lemma punct_not_gap c : is_punct c -> is_gap c -> False.
Proof.
  unfold is_punct, is_gap, dot, bang, qmark, space, newline.
  intros [-> | [-> | ->]] [H | H]; discriminate.
Qed.

(** No separator starts on the second character of another one. *)
Lemma boundary_not_adjacent buf i :
  boundary_at buf i -> boundary_at buf (S i) -> False.
Proof.
  intros H1 H2.
  destruct (boundary_at_chars H1) as [p [w [t [E1 [_ Hw]]]]].
  destruct (boundary_at_chars H2) as [p' [w' [t' [E2 [Hp' _]]]]].
  assert (E : skipn (S i) buf = w :: t).
  { replace (S i) with (1 + i) by lia.
    rewrite <- skipn_skipn, E1. reflexivity. }
  rewrite E in E2. injection E2 as -> _.
  exact (punct_not_gap Hp' Hw).
Qed.

Lemma find_boundary sep buf i :
  In sep separators -> find sep buf = Some i -> boundary_at buf i.
Proof.
  intros Hin F. exists sep. split; [exact Hin|].
  exact (proj1 (find_some F)).
Qed.

Lemma scan_step buf done e sep :
  In sep separators ->
  scan_inv buf done e ->
  scan_inv buf (done ++ [sep])
    (match find sep buf with
     | Some idx => if idx <? e then idx + length sep else e
     | None => e
     end).
Proof.
  intros Hin Inv.
  destruct (separators_shape Hin) as [p [w [Esep _]]].
  assert (Hlen : length sep = 2) by (subst sep; reflexivity).
  destruct (find sep buf) as [idx|] eqn:F.
  - pose proof (find_boundary Hin F) as Hb.
    pose proof (boundary_in_range Hb) as Hr.
    destruct Inv as [[-> Hnone] | [i [-> [Hi Hmin]]]].
    + assert ((idx <? length buf) = true) as -> by (apply Nat.ltb_lt; lia).
      right. exists idx. rewrite Hlen. split; [reflexivity|].
      split; [exact Hb|].
      intros s j Hs Fj. apply in_app_or in Hs as [Hs | [<- | []]].
      * rewrite (Hnone _ Hs) in Fj. discriminate.
      * rewrite F in Fj. injection Fj as <-. lia.
    + destruct (idx <? i + 2) eqn:C.
      * apply Nat.ltb_lt in C.
        assert (idx <> S i).
        { intros ->. exact (boundary_not_adjacent Hi Hb). }
        right. exists idx. rewrite Hlen. split; [reflexivity|].
        split; [exact Hb|].
        intros s j Hs Fj. apply in_app_or in Hs as [Hs | [<- | []]].
        -- specialize (Hmin _ _ Hs Fj). lia.
        -- rewrite F in Fj. injection Fj as <-. lia.
      * apply Nat.ltb_ge in C.
        right. exists i. split; [reflexivity|]. split; [exact Hi|].
        intros s j Hs Fj. apply in_app_or in Hs as [Hs | [<- | []]].
        -- exact (Hmin _ _ Hs Fj).
        -- rewrite F in Fj. injection Fj as <-. lia.
  - destruct Inv as [[-> Hnone] | [i [-> [Hi Hmin]]]].
    + left. split; [reflexivity|].
      intros s Hs. apply in_app_or in Hs as [Hs | [<- | []]]; auto.
    + right. exists i. split; [reflexivity|]. split; [exact Hi|].
      intros s j Hs Fj. apply in_app_or in Hs as [Hs | [<- | []]].
      * exact (Hmin _ _ Hs Fj).
      * rewrite F in Fj. discriminate.
Qed.

Lemma scan_fold buf todo : forall done e,
  (forall sep, In sep todo -> In sep separators) ->
  scan_inv buf done e ->
  scan_inv buf (done ++ todo)
    (fold_left
       (fun earliest sep =>
          match find sep buf with
          | Some idx =>
              if idx <? earliest then idx + length sep else earliest
          | None => earliest
          end) todo e).
Proof.
  induction todo as [|sep todo IH]; intros done e Hsub Inv; simpl.
  - now rewrite app_nil_r.
  - replace (done ++ sep :: todo) with ((done ++ [sep]) ++ todo)
      by (rewrite <- app_assoc; reflexivity).
    apply IH; [intros s Hs; apply Hsub; now right|].
    apply scan_step; [apply Hsub; now left | exact Inv].
Qed.

(** What the scan computes: the end of the earliest separator, or the
    length of the buffer when there is none. *)
Lemma earliest_idx_spec buf :
  (earliest_idx buf = length buf /\ forall i, ~ boundary_at buf i)
  \/ (exists i, earliest_idx buf = i + 2 /\ earliest_boundary buf i).
Proof.
  assert (H : scan_inv buf ([] ++ separators) (earliest_idx buf)).
  { apply scan_fold; [auto|].
    left. split; [reflexivity|]. intros sep []. }
  rewrite app_nil_l in H.
  destruct H as [[E Hnone] | [i [E [Hi Hmin]]]].
  - left. split; [exact E|].
    intros i [sep [Hin Hs]].
    rewrite (find_none (Hnone _ Hin) i) in Hs. discriminate.
  - right. exists i. split; [exact E|]. split; [exact Hi|].
    intros j [sep [Hin Hs]].
    destruct (find sep buf) as [k|] eqn:F.
    + specialize (Hmin _ _ Hin F).
      destruct (find_some F) as [_ Hlt].
      destruct (Nat.lt_ge_cases j k) as [L|G]; [|lia].
      rewrite (Hlt _ L) in Hs. discriminate.
    + rewrite (find_none F j) in Hs. discriminate.
Qed.

Lemma has_boundary_true buf :
  has_boundary buf = true <-> exists i, boundary_at buf i.
Proof.
  unfold has_boundary. rewrite existsb_exists. split.
  - intros [sep [Hin C]]. unfold contains in C.
    destruct (find sep buf) as [i|] eqn:F; [|discriminate].
    exists i. exact (find_boundary Hin F).
  - intros [i [sep [Hin Hs]]]. exists sep. split; [exact Hin|].
    unfold contains. destruct (find sep buf) eqn:F; [reflexivity|].
    rewrite (find_none F i) in Hs. discriminate.
Qed.

(** When the loop cuts, it cuts right after the earliest separator. *)
Lemma next_sentence_some buf s rest :
  next_sentence buf = Some (s, rest) ->
  exists i, earliest_boundary buf i /\ i + 2 < length buf /\
            s = strip (firstn (i + 2) buf) /\ rest = skipn (i + 2) buf.
Proof.
  unfold next_sentence.
  destruct (has_boundary buf) eqn:B; [|discriminate].
  destruct (earliest_idx buf <? length buf) eqn:C; [|discriminate].
  intros [= <- <-]. apply Nat.ltb_lt in C.
  destruct (earliest_idx_spec buf) as [[E _] | [i [E Hi]]]; [lia|].
  exists i. rewrite <- E. auto.
Qed.

(** When the loop is left, the buffer holds no separator, or its only
    separator is its last two characters. *)
Lemma next_sentence_none buf :
  next_sentence buf = None ->
  (forall i, ~ boundary_at buf i)
  \/ (earliest_boundary buf (length buf - 2) /\ 2 <= length buf).
Proof.
  unfold next_sentence.
  destruct (has_boundary buf) eqn:B.
  - destruct (earliest_idx buf <? length buf) eqn:C; [discriminate|].
    intros _. apply Nat.ltb_ge in C.
    destruct (earliest_idx_spec buf) as [[_ N] | [i [E Hi]]];
      [now left|].
    right. pose proof (boundary_in_range (proj1 Hi)).
    replace (length buf - 2) with i by lia. split; [exact Hi | lia].
  - intros _. left. intros i Hi.
    assert (has_boundary buf = true)
      by (apply has_boundary_true; eauto).
    congruence.
Qed.

Lemma next_sentence_shorter buf s rest :
  next_sentence buf = Some (s, rest) -> length rest < length buf.
Proof.
  intros H. destruct (next_sentence_some H) as [i [_ [L [_ ->]]]].
  rewrite length_skipn. lia.
Qed.

(** The sentences of a list of raw slices: each one trimmed, the empty
    ones dropped. *)
Lemma drain_fuel_slices fuel : forall buf ss rest,
  drain_fuel fuel buf = (ss, rest) ->
  exists slices,
    concat slices ++ rest = buf /\ ss = filter truthy (map strip slices).
Proof.
  induction fuel as [|fuel IH]; intros buf ss rest; simpl.
  - intros [= <- <-]. now exists [].
  - destruct (next_sentence buf) as [[s r]|] eqn:N.
    + destruct (drain_fuel fuel r) as [more final] eqn:D.
      intros [= <- <-].
      destruct (IH _ _ _ D) as [slices [Hc Hs]].
      destruct (next_sentence_some N) as [i [_ [_ [-> ->]]]].
      exists (firstn (i + 2) buf :: slices). split.
      * simpl. rewrite <- app_assoc, Hc. apply firstn_skipn.
      * simpl. rewrite Hs.
        now destruct (truthy (strip (firstn (i + 2) buf))).
    + intros [= <- <-]. now exists [].
Qed.

(** With [length buf] turns the loop is left by its own exit. *)
Lemma drain_fuel_done fuel : forall buf ss rest,
  length buf <= fuel ->
  drain_fuel fuel buf = (ss, rest) -> next_sentence rest = None.
Proof.
  induction fuel as [|fuel IH]; intros buf ss rest Hf; simpl.
  - intros [= <- <-]. destruct buf; [reflexivity | simpl in Hf; lia].
  - destruct (next_sentence buf) as [[s r]|] eqn:N.
    + destruct (drain_fuel fuel r) as [more final] eqn:D.
      intros [= <- <-].
      pose proof (next_sentence_shorter N) as L.
      apply (IH r more final); [lia | exact D].
    + intros [= <- <-]. exact N.
Qed.

Lemma drain_fuel_stable n : forall m buf,
  length buf <= n -> length buf <= m ->
  drain_fuel n buf = drain_fuel m buf.
Proof.
  induction n as [|n IH]; intros m buf Hn Hm.
  - destruct buf; [|simpl in Hn; lia]. now destruct m.
  - destruct m as [|m].
    + destruct buf; [reflexivity | simpl in Hm; lia].
    + cbn [drain_fuel].
      destruct (next_sentence buf) as [[s r]|] eqn:N; [|reflexivity].
      pose proof (next_sentence_shorter N) as L.
      now rewrite (IH m r) by lia.
Qed.

Lemma drain_fuel_enough fuel buf :
  length buf <= fuel -> drain_fuel fuel buf = drain buf.
Proof. intros H. apply drain_fuel_stable; [exact H | reflexivity]. Qed.

Lemma feed_all_slices chunks : forall buf during final,
  feed_all buf chunks = (during, final) ->
  exists slices,
    concat slices ++ final = buf ++ concat chunks /\
    concat during = filter truthy (map strip slices).
Proof.
  induction chunks as [|chunk chunks IH]; intros buf during final; simpl.
  - intros [= <- <-]. exists []. now rewrite app_nil_r.
  - unfold feed, drain.
    destruct (drain_fuel (length (buf ++ chunk)) (buf ++ chunk))
      as [now buf'] eqn:D.
    destruct (feed_all buf' chunks) as [later fin] eqn:F.
    intros [= <- <-].
    destruct (drain_fuel_slices D) as [s1 [C1 E1]].
    destruct (IH _ _ _ F) as [s2 [C2 E2]].
    exists (s1 ++ s2). split.
    + rewrite concat_app, <- app_assoc, C2, app_assoc, C1.
      now rewrite <- app_assoc.
    + simpl. now rewrite map_app, filter_app, E1, E2.
Qed.

(** The sentences of a stream are the trimmed, non-empty ones among
    consecutive slices that make up the whole text. *)
Lemma sentences_slices chunks :
  exists slices,
    concat slices = concat chunks /\
    sentences chunks = filter truthy (map strip slices).
Proof.
  unfold sentences.
  destruct (feed_all [] chunks) as [during final] eqn:F.
  destruct (feed_all_slices F) as [slices [C E]].
  exists (slices ++ [final]). split.
  - rewrite concat_app. simpl. now rewrite app_nil_r.
  - rewrite map_app, filter_app, E. reflexivity.
Qed.

Lemma nonspace_trimmed_slices slices :
  nonspace (concat (filter truthy (map strip slices)))
  = nonspace (concat slices).
Proof.
  induction slices as [|x slices IH]; simpl; [reflexivity|].
  rewrite nonspace_app, <- IH.
  destruct (truthy (strip x)) eqn:T; simpl.
  - now rewrite nonspace_app, nonspace_strip.
  - now rewrite (truthy_strip_nonspace T).
Qed.

Lemma sentences_nonspace chunks :
  nonspace (concat (sentences chunks)) = nonspace (concat chunks).
Proof.
  destruct (sentences_slices chunks) as [slices [C ->]].
  now rewrite nonspace_trimmed_slices, C.
Qed.

Lemma sentences_trimmed chunks s :
  In s (sentences chunks) ->
  s <> [] /\ strip s = s.
Proof.
  destruct (sentences_slices chunks) as [slices [_ ->]].
  intros H. apply filter_In in H as [H T].
  apply in_map_iff in H as [x [<- _]].
  split; [intros E; rewrite E in T; discriminate|].
  apply strip_idem.
Qed.

End SegmenterFacts.

(** ** The resampler *)

Module ResamplerFacts.
Import Resampler.

Lemma frombuffer_even (b : bytes) :
  Nat.Even (length b) ->
  exists src, frombuffer_int16 b = Some src /\ 2 * length src = length b.
Proof.
  intros [k Hk]. revert b Hk.
  induction k as [|k IH]; intros b Hk.
  - destruct b; [|simpl in Hk; lia]. exists []. auto.
  - destruct b as [|lo [|hi rest]]; simpl in Hk; try lia.
    destruct (IH rest ltac:(lia)) as [src [Hs Hl]].
    exists (int16_of_bytes lo hi :: src). cbn [frombuffer_int16].
    rewrite Hs. split; [reflexivity | simpl; lia].
Qed.

Lemma frombuffer_odd (b : bytes) :
  Nat.Odd (length b) -> frombuffer_int16 b = None.
Proof.
  intros [k Hk]. revert b Hk.
  induction k as [|k IH]; intros b Hk.
  - destruct b as [|x [|y r]]; simpl in Hk; try lia. reflexivity.
  - destruct b as [|lo [|hi rest]]; simpl in Hk; try lia.
    cbn [frombuffer_int16]. now rewrite (IH rest ltac:(lia)).
Qed.

Lemma length_tobytes (a : list Z) : length (tobytes_int16 a) = 2 * length a.
Proof.
  unfold tobytes_int16. induction a as [|z a IH]; simpl; [reflexivity|].
  rewrite IH. lia.
Qed.

Lemma length_linspace start stop num : length (linspace start stop num) = num.
Proof.
  unfold linspace. destruct num as [|[|n]]; try reflexivity.
  now rewrite length_map, length_seq.
Qed.

Lemma dst_len_pos n r1 r2 : (1 <= dst_len n r1 r2)%Z.
Proof. unfold dst_len. lia. Qed.

Lemma length_resample_samples src r1 r2 :
  Z.of_nat (length (resample_samples src r1 r2)) = dst_len (length src) r1 r2.
Proof.
  unfold resample_samples. rewrite !length_map, length_linspace.
  pose proof (@dst_len_pos (length src) r1 r2). lia.
Qed.

#[local] Open Scope Z_scope.

Lemma round_half_even_near a b :
  0 < b ->
  2 * Z.abs (round_half_even (inject_Z a / inject_Z b) * b - a) <= b.
Proof.
  intros Hb. destruct b as [|p|p]; try lia.
  unfold round_half_even.
  assert (Hf : Qfloor (inject_Z a / inject_Z (Z.pos p)) = a / Z.pos p).
  { unfold Qfloor, Qdiv, Qinv, Qmult, inject_Z. cbn. f_equal; lia. }
  rewrite Hf.
  pose proof (Z.div_mod a (Z.pos p) ltac:(lia)) as Hdm.
  pose proof (Z.mod_pos_bound a (Z.pos p) ltac:(lia)) as Hm.
  set (f := a / Z.pos p) in *. set (r := a mod Z.pos p) in *.
  assert (Hc : ((inject_Z a / inject_Z (Z.pos p) - inject_Z f) ?= (1 # 2))%Q
               = (2 * r ?= Z.pos p)).
  { unfold Qcompare, Qminus, Qplus, Qopp, Qdiv, Qinv, Qmult, inject_Z.
    cbn [Qnum Qden].
    replace (Z.pos (1 * p * 1)) with (Z.pos p) by (f_equal; lia).
    replace (Z.pos (1 * p)) with (Z.pos p) by (f_equal; lia).
    f_equal; lia. }
  rewrite Hc.
  destruct (2 * r ?= Z.pos p) eqn:C.
  - apply Z.compare_eq in C. destruct (Z.even f); nia.
  - rewrite Z.compare_lt_iff in C. nia.
  - rewrite Z.compare_gt_iff in C. nia.
Qed.

Lemma dst_len_near n r1 r2 :
  (0 < n)%nat -> 0 < r1 -> 0 < r2 ->
  Z.abs (dst_len n r1 r2 * r1 - Z.of_nat n * r2) < r1.
Proof.
  intros Hn H1 H2. unfold dst_len.
  pose proof (@round_half_even_near (Z.of_nat n * r2) r1 H1) as H.
  set (m := round_half_even _) in *.
  assert (0 < Z.of_nat n * r2) by nia.
  destruct (Z.max_spec 1 m) as [[Hlt ->]|[Hge ->]]; nia.
Qed.

Lemma clip_range v : (-32768 <= clip v /\ clip v <= 32767)%Q.
Proof.
  unfold clip. destruct (Qlt_le_dec v (-32768)) as [L|L].
  - split; [apply Qle_refl | discriminate].
  - destruct (Qlt_le_dec 32767 v) as [G|G].
    + split; [discriminate | apply Qle_refl].
    + split; assumption.
Qed.

Lemma astype_int16_range v :
  (-32768 <= v /\ v <= 32767)%Q ->
  (-32768 <= astype_int16 v <= 32767)%Z.
Proof.
  destruct v as [n d]. unfold Qle, astype_int16. cbn [Qnum Qden].
  intros [H1 H2]. split.
  - rewrite <- (Z.quot_mul (-32768) (Z.pos d)) by lia.
    apply Z.quot_le_mono; lia.
  - rewrite <- (Z.quot_mul 32767 (Z.pos d)) by lia.
    apply Z.quot_le_mono; lia.
Qed.

Lemma resample_samples_range src r1 r2 :
  Forall (fun v => (-32768 <= v <= 32767)%Z) (resample_samples src r1 r2).
Proof.
  unfold resample_samples. apply Forall_forall. intros v Hv.
  apply in_map_iff in Hv as [q [<- _]].
  apply astype_int16_range, clip_range.
Qed.

Lemma floor_unique (x : Q) (k : Z) :
  (inject_Z k <= x)%Q -> (x < inject_Z (k + 1))%Q -> Qfloor x = k.
Proof.
  intros H1 H2.
  pose proof (Qfloor_le x) as F1. pose proof (Qlt_floor x) as F2.
  assert (A : (inject_Z k < inject_Z (Qfloor x + 1))%Q)
    by (eapply Qle_lt_trans; eauto).
  assert (B : (inject_Z (Qfloor x) < inject_Z (k + 1))%Q)
    by (eapply Qle_lt_trans; eauto).
  rewrite <- Zlt_Qlt in A, B. lia.
Qed.

(** [interp_from] on knots at consecutive integers. *)
Lemma interp_from_grid rest : forall pre y0 (x0 : Q) (xs : list Q) (x : Q),
  length xs = length rest ->
  (forall i, (i < length rest)%nat ->
             (nth i xs 0 == inject_Z (Z.of_nat (length pre + 1 + i)))%Q) ->
  (x0 == inject_Z (Z.of_nat (length pre)))%Q ->
  (inject_Z (Z.of_nat (length pre)) <= x)%Q ->
  (x <= inject_Z (Z.of_nat (length pre + length rest)))%Q ->
  (interp_from x x0 (inject_Z y0) (combine xs (map inject_Z rest))
   == lerp (pre ++ y0 :: rest) x)%Q.
Proof.
  induction rest as [|y1 rest IH]; intros pre y0 x0 xs x Hl Hx H0 Hlo Hhi.
  - destruct xs; [|discriminate]. cbn [map combine interp_from].
    rewrite Nat.add_0_r in Hhi.
    assert (Hxk : (x == inject_Z (Z.of_nat (length pre)))%Q)
      by (apply Qle_antisym; assumption).
    assert (Hf : Qfloor x = Z.of_nat (length pre)).
    { apply floor_unique; [exact Hlo|].
      rewrite Hxk, <- Zlt_Qlt. lia. }
    unfold lerp. rewrite Hf, Nat2Z.id.
    rewrite nth_middle. rewrite Hxk. ring.
  - destruct xs as [|x1 xs]; [discriminate|].
    cbn [map combine interp_from].
    pose proof (Hx 0%nat ltac:(simpl; lia)) as Hx1. cbn [nth] in Hx1.
    rewrite Nat.add_0_r in Hx1.
    destruct (Qlt_le_dec x x1) as [L|G].
    + assert (Hf : Qfloor x = Z.of_nat (length pre)).
      { apply floor_unique; [exact Hlo|].
        rewrite Hx1 in L.
        replace (Z.of_nat (length pre) + 1)%Z
          with (Z.of_nat (length pre + 1)) by lia. exact L. }
      unfold lerp. rewrite Hf, Nat2Z.id.
      rewrite nth_middle.
      replace (nth (S (length pre)) (pre ++ y0 :: y1 :: rest) y0) with y1.
      2: { rewrite app_nth2 by lia.
           replace (S (length pre) - length pre)%nat with 1%nat by lia.
           reflexivity. }
      assert (Hx1' : (x1 == inject_Z (Z.of_nat (length pre)) + 1)%Q).
      { rewrite Hx1. replace (Z.of_nat (length pre + 1))
          with (Z.of_nat (length pre) + 1)%Z by lia.
        now rewrite inject_Z_plus. }
      rewrite Hx1', H0. unfold Z.sub.
      rewrite inject_Z_plus, inject_Z_opp.
      field.
      intros H. ring_simplify in H. discriminate.
    + specialize (IH (pre ++ [y0]) y1 x1 xs x).
      rewrite <- app_assoc in IH. cbn [app] in IH.
      apply IH.
      * simpl in Hl. lia.
      * intros i Hi. specialize (Hx (S i) ltac:(simpl; lia)).
        cbn [nth] in Hx. rewrite Hx, length_app. cbn [length].
        apply inject_Z_injective. lia.
      * rewrite Hx1, length_app. cbn [length]. reflexivity.
      * rewrite length_app. cbn [length]. rewrite <- Hx1. exact G.
      * rewrite length_app. cbn [length].
        replace (length pre + 1 + length rest)%nat
          with (length pre + length (y1 :: rest))%nat by (simpl; lia).
        exact Hhi.
Qed.

Lemma byte_val_of_Z z : byte_val (byte_of_Z z) = (z mod 256)%Z.
Proof.
  unfold byte_val, byte_of_Z.
  pose proof (Z.mod_pos_bound z 256 ltac:(lia)) as Hb.
  destruct (Byte.of_N (Z.to_N (z mod 256))) as [b|] eqn:Hof.
  - apply Byte.to_of_N in Hof. rewrite Hof. lia.
  - apply Byte.of_N_None_iff in Hof. lia.
Qed.

Lemma int16_roundtrip z :
  (-32768 <= z <= 32767)%Z ->
  int16_of_bytes (byte_of_Z (z mod 65536)) (byte_of_Z (z mod 65536 / 256)) = z.
Proof.
  intros Hz. unfold int16_of_bytes. rewrite !byte_val_of_Z.
  pose proof (Z.mod_pos_bound z 65536 ltac:(lia)) as Hu.
  set (u := (z mod 65536)%Z) in *.
  assert (Hhi : ((u / 256) mod 256 = u / 256)%Z).
  { apply Z.mod_small. split; [apply Z.div_pos; lia|].
    apply Z.div_lt_upper_bound; lia. }
  rewrite Hhi.
  assert (Hu' : (u mod 256 + 256 * (u / 256) = u)%Z).
  { pose proof (Z.div_mod u 256 ltac:(lia)). lia. }
  rewrite Hu'.
  destruct (Z.le_gt_cases 0 z) as [P|N].
  - assert (u = z) by (apply Z.mod_small; lia).
    destruct (u <? 32768)%Z eqn:C; [lia|]. apply Z.ltb_ge in C. lia.
  - assert (u = z + 65536)%Z.
    { unfold u. rewrite <- (Z.mod_small (z + 65536) 65536) by lia.
      rewrite <- (Z.mul_1_l 65536) at 2. now rewrite Z.mod_add by lia. }
    destruct (u <? 32768)%Z eqn:C; [apply Z.ltb_lt in C; lia | lia].
Qed.

Lemma frombuffer_tobytes (a : list Z) :
  Forall (fun v => (-32768 <= v <= 32767)%Z) a ->
  frombuffer_int16 (tobytes_int16 a) = Some a.
Proof.
  induction 1 as [|z a Hz _ IH]; [reflexivity|].
  unfold tobytes_int16 in *. cbn [flat_map app frombuffer_int16].
  rewrite IH. cbn [option_map]. now rewrite int16_roundtrip.
Qed.

Lemma nth_linspace start stop num i :
  (i < num)%nat -> (2 <= num)%nat ->
  nth i (linspace start stop num) 0%Q
  = (start + inject_Z (Z.of_nat i)
             * ((stop - start) / inject_Z (Z.of_nat (num - 1))))%Q.
Proof.
  intros Hi Hn. unfold linspace.
  destruct num as [|[|n]]; try lia.
  set (f := fun i0 : nat => _).
  change 0%Q with (0%Q) at 1.
  rewrite (nth_indep _ 0%Q (f 0%nat)) by (rewrite length_map, length_seq; lia).
  rewrite (map_nth f). rewrite seq_nth by lia. reflexivity.
Qed.

(** The source grid: knot [i] is at [i]. *)
Lemma src_grid n i :
  (i < n)%nat ->
  (nth i (linspace 0 (inject_Z (Z.of_nat n - 1)) n) 0
   == inject_Z (Z.of_nat i))%Q.
Proof.
  intros Hi. destruct (Nat.eq_dec n 1) as [->|Hn].
  - replace i with 0%nat by lia. reflexivity.
  - rewrite nth_linspace by lia.
    replace (Z.of_nat (n - 1)) with (Z.of_nat n - 1)%Z by lia.
    field. intros H. unfold Qeq in H. cbn in H. lia.
Qed.

(** The destination grid: sample [i] is at [position i n m], within the
    source grid. *)
Lemma dst_grid n m i :
  (0 < n)%nat -> (i < m)%nat ->
  let x := nth i (linspace 0 (inject_Z (Z.of_nat n - 1)) m) 0%Q in
  (x == position i n m)%Q /\
  (0 <= x)%Q /\ (x <= inject_Z (Z.of_nat n - 1))%Q.
Proof.
  intros Hn Hi. unfold position.
  destruct (Nat.eq_dec m 1) as [->|Hm].
  - replace i with 0%nat by lia. cbn [linspace nth Nat.eqb].
    repeat split; try apply Qle_refl.
    change 0%Q with (inject_Z 0). rewrite <- Zle_Qle. lia.
  - destruct (m =? 1)%nat eqn:C; [apply Nat.eqb_eq in C; lia|].
    cbn zeta. rewrite nth_linspace by lia.
    replace (Z.of_nat (m - 1)) with (Z.of_nat m - 1)%Z by lia.
    assert (Hd : (0 < inject_Z (Z.of_nat m - 1))%Q).
    { change 0%Q with (inject_Z 0). rewrite <- Zlt_Qlt. lia. }
    assert (Hne : ~ (inject_Z (Z.of_nat m - 1) == 0)%Q).
    { intros H. rewrite H in Hd. discriminate. }
    assert (Hi0 : (0 <= inject_Z (Z.of_nat i))%Q).
    { change 0%Q with (inject_Z 0). rewrite <- Zle_Qle. lia. }
    assert (Hn0 : (0 <= inject_Z (Z.of_nat n - 1))%Q).
    { change 0%Q with (inject_Z 0). rewrite <- Zle_Qle. lia. }
    assert (Him : (inject_Z (Z.of_nat i) <= inject_Z (Z.of_nat m - 1))%Q).
    { rewrite <- Zle_Qle. lia. }
    set (I := inject_Z (Z.of_nat i)) in *.
    set (N := inject_Z (Z.of_nat n - 1)) in *.
    set (M := inject_Z (Z.of_nat m - 1)) in *.
    assert (E : (0 + I * ((N - 0) / M) == I * N / M)%Q) by (field; exact Hne).
    split; [exact E|]. rewrite E. split.
    + apply Qle_shift_div_l; [exact Hd|]. rewrite Qmult_0_l.
      apply Qmult_le_0_compat; assumption.
    + apply Qle_shift_div_r; [exact Hd|].
      rewrite (Qmult_comm N M). apply Qmult_le_compat_r.
      * exact Him.
      * exact Hn0.
Qed.

#[local] Close Scope Z_scope.

Lemma interp_grid (src : list Z) (x : Q) :
  src <> [] ->
  (0 <= x)%Q -> (x <= inject_Z (Z.of_nat (length src) - 1))%Q ->
  (interp x (linspace 0 (inject_Z (Z.of_nat (length src) - 1)) (length src))
          (map inject_Z src)
   == lerp src x)%Q.
Proof.
  intros Hne Hlo Hhi. destruct src as [|y0 rest]; [congruence|].
  set (n := length (y0 :: rest)) in *.
  pose proof (@length_linspace 0%Q (inject_Z (Z.of_nat n - 1)) n) as Hl.
  pose proof (fun i => @src_grid n i) as Hg.
  destruct (linspace 0 (inject_Z (Z.of_nat n - 1)) n) as [|x0 xs];
    [discriminate|].
  unfold interp. cbn [map combine].
  pose proof (Hg 0 ltac:(subst n; simpl; lia)) as H0. cbn [nth] in H0.
  destruct (Qlt_le_dec x0 x) as [L|G].
  - apply (@interp_from_grid rest [] y0 x0 xs x).
    + subst n. simpl in Hl. lia.
    + intros i Hi. specialize (Hg (S i) ltac:(subst n; simpl; lia)).
      cbn [nth] in Hg. rewrite Hg. cbn [length]. 
      apply inject_Z_injective. lia.
    + exact H0.
    + exact Hlo.
    + cbn [length]. replace (Z.of_nat (0 + length rest))
        with (Z.of_nat n - 1)%Z by (subst n; cbn [length]; lia). exact Hhi.
  - assert (Hx : (x == 0)%Q).
    { apply Qle_antisym; [|exact Hlo]. now rewrite <- H0. }
    assert (Hf : Qfloor x = 0%Z).
    { apply floor_unique; [exact Hlo|]. rewrite Hx. reflexivity. }
    unfold lerp. rewrite Hf. cbn [Z.to_nat nth]. rewrite Hx. ring.
Qed.


End ResamplerFacts.

(** ** The realtime session *)

Module AliyunSTTFacts.
Import AliyunSTT.
#[local] Open Scope Z_scope.

Lemma poll_loop_spec fuel : forall w i now deadline s,
  deadline - now <= 50 * Z.of_nat fuel ->
  let '(s', t, polls) := poll_loop fuel w i now deadline s in
  Forall (fun p => now <= p < deadline) polls /\
  (t = now \/ t < deadline + 50) /\ now <= t /\
  (deadline <= t \/ truthy (final_transcript s') = true) /\
  (length polls <= fuel)%nat.
Proof.
  induction fuel as [|fuel IH]; intros w i now deadline s Hf;
    cbn [poll_loop].
  - repeat split; auto; try lia.
  - destruct (now <? deadline) eqn:C.
    + apply Z.ltb_lt in C.
      set (s1 := snd (drain_events (put (arrivals w i) s))).
      destruct (truthy (final_transcript s1)) eqn:F.
      * repeat split; auto; try lia.
        -- repeat constructor; lia.
        -- cbn. lia.
      * specialize (IH w (S i) (now + 50) deadline s1).
        destruct (poll_loop fuel w (S i) (now + 50) deadline s1)
          as [[s2 t] polls].
        destruct IH as (H1 & H2 & H3 & H4 & H5); [lia|].
        repeat split; auto; try lia.
        -- constructor; [lia|].
           eapply Forall_impl; [|exact H1]. cbn beta. intros p Hp. lia.
        -- cbn. lia.
    + apply Z.ltb_ge in C. repeat split; auto; try lia. cbn. lia.
Qed.

Lemma poll_fuel_enough timeout_ms :
  timeout_ms <= 50 * Z.of_nat (poll_fuel timeout_ms).
Proof.
  unfold poll_fuel. rewrite Nat2Z.inj_succ.
  destruct (Z.le_gt_cases 0 timeout_ms) as [H|H].
  - rewrite Z2Nat.id by (apply Z.div_pos; lia).
    pose proof (Z.mod_pos_bound timeout_ms 50 ltac:(lia)).
    pose proof (Z.div_mod timeout_ms 50 ltac:(lia)). lia.
  - lia.
Qed.



End AliyunSTTFacts.

(** ** Reasoning about computations of the handler *)

Module MainFacts.
Import AliyunSTT Resampler Segmenter Base64 Main.

Section Rules.
Context {S : Type} {RS : RealtimeSession S} (E : collaborators S).

Lemma post_run {A} (m : M (S:=S) A) st Q :
  post m st Q <-> Q (fst (fst (m st))) (snd (fst (m st))) (snd (m st)).
Proof. unfold post. now destruct (m st) as [[r st'] tr]. Qed.

Lemma post_conseq {A} (m : M (S:=S) A) st (Q Q' : _ -> _ -> _ -> Prop) :
  post m st Q -> (forall r st' tr, Q r st' tr -> Q' r st' tr) ->
  post m st Q'.
Proof. unfold post. destruct (m st) as [[r st'] tr]. auto. Qed.

Lemma post_bind {A B} (m : M (S:=S) A) (f : A -> M B) st Q :
  post m st (fun r st1 tr1 =>
    match r with
    | Ok a => post (f a) st1 (fun r2 st2 tr2 => Q r2 st2 (tr1 ++ tr2))
    | Raise e => Q (Raise e) st1 tr1
    end) ->
  post (bind m f) st Q.
Proof.
  unfold post, bind. destruct (m st) as [[[a|e] st1] tr1]; [|auto].
  destruct (f a st1) as [[r2 st2] tr2]. auto.
Qed.

Lemma post_try {A} (m h : M (S:=S) A) st Q :
  post m st (fun r st1 tr1 =>
    match r with
    | Ok a => Q (Ok a) st1 tr1
    | Raise _ => post h st1 (fun r2 st2 tr2 => Q r2 st2 (tr1 ++ tr2))
    end) ->
  post (try_except m h) st Q.
Proof.
  unfold post, try_except. destruct (m st) as [[[a|e] st1] tr1]; [auto|].
  destruct (h st1) as [[r2 st2] tr2]. auto.
Qed.

Lemma post_and {A} (m : M (S:=S) A) st (Q Q' : _ -> _ -> _ -> Prop) :
  post m st Q -> post m st Q' ->
  post m st (fun r st' tr => Q r st' tr /\ Q' r st' tr).
Proof. unfold post. destruct (m st) as [[r st'] tr]. auto. Qed.

Lemma post_ret {A} (a : A) (st : state S) Q :
  Q (Ok a) st [] -> post (ret a) st Q.
Proof. auto. Qed.

Lemma post_raise {A} e (st : state S) Q :
  Q (Raise e) st [] -> post (raise (A:=A) e) st Q.
Proof. auto. Qed.

Lemma post_get (st : state S) Q : Q (Ok st) st [] -> post get st Q.
Proof. auto. Qed.

Lemma post_send e (st : state S) Q :
  Q (Ok tt) st [Send e] -> post (send e) st Q.
Proof. auto. Qed.

Lemma post_perform {A} c (f : nat -> A) (st : state S) Q :
  Q (Ok (f (tick st)))
    {| audio_buffer := audio_buffer st;
       is_listening := is_listening st;
       asr_realtime_session := asr_realtime_session st;
       tick := Datatypes.S (tick st) |} [Call c] ->
  post (perform c f) st Q.
Proof. auto. Qed.

Lemma post_set_audio_buffer b (st : state S) Q :
  Q (Ok tt)
    {| audio_buffer := b; is_listening := is_listening st;
       asr_realtime_session := asr_realtime_session st;
       tick := tick st |} [] ->
  post (set_audio_buffer b) st Q.
Proof. auto. Qed.

Lemma post_set_is_listening b (st : state S) Q :
  Q (Ok tt)
    {| audio_buffer := audio_buffer st; is_listening := b;
       asr_realtime_session := asr_realtime_session st;
       tick := tick st |} [] ->
  post (set_is_listening b) st Q.
Proof. auto. Qed.

Lemma post_set_session s (st : state S) Q :
  Q (Ok tt)
    {| audio_buffer := audio_buffer st;
       is_listening := is_listening st;
       asr_realtime_session := s;
       tick := tick st |} [] ->
  post (set_session s) st Q.
Proof. auto. Qed.

Lemma post_of_result {A} (r : result A) (st : state S) Q :
  Q r st [] -> post (of_result r) st Q.
Proof. destruct r; auto. Qed.

Lemma sent_app a b : sent (a ++ b) = sent a ++ sent b.
Proof. apply flat_map_app. Qed.

Lemma called_app a b : called (a ++ b) = called a ++ called b.
Proof. apply flat_map_app. Qed.

Lemma sent_cons_call c tr : sent (Call c :: tr) = sent tr.
Proof. reflexivity. Qed.

Lemma sent_cons_send e tr : sent (Send e :: tr) = e :: sent tr.
Proof. reflexivity. Qed.

Lemma called_cons_call c tr : called (Call c :: tr) = c :: called tr.
Proof. reflexivity. Qed.

Lemma called_cons_send e tr : called (Send e :: tr) = called tr.
Proof. reflexivity. Qed.

Lemma sent_nil : sent [] = [].
Proof. reflexivity. Qed.

Lemma called_nil : called [] = [].
Proof. reflexivity. Qed.

End Rules.

Create Rewrite HintDb trace.
#[export] Hint Rewrite sent_app called_app sent_cons_call sent_cons_send
  called_cons_call called_cons_send sent_nil called_nil app_nil_r app_nil_l
  : trace.

(** One step of symbolic execution of a computation. *)
Ltac wp_step :=
  lazymatch goal with
  | |- post (bind _ _) _ _ => apply post_bind
  | |- post (try_except _ _) _ _ => apply post_try
  | |- post (ret _) _ _ => apply post_ret
  | |- post (raise _) _ _ => apply post_raise
  | |- post get _ _ => apply post_get
  | |- post (send _) _ _ => apply post_send
  | |- post (perform _ _) _ _ => apply post_perform
  | |- post (set_audio_buffer _) _ _ => apply post_set_audio_buffer
  | |- post (set_is_listening _) _ _ => apply post_set_is_listening
  | |- post (set_session _) _ _ => apply post_set_session
  | |- post (of_result _) _ _ => apply post_of_result
  | |- post (on_session _ _) _ _ => unfold on_session
  end; cbn beta iota;
  cbn [audio_buffer is_listening asr_realtime_session tick].

Ltac wp := repeat wp_step.

Ltac vars_tac :=
  repeat match goal with
         | H : same_vars _ _ |- _ => destruct H as [? [? ?]]
         end;
  unfold same_vars; cbn in *; repeat split; congruence.

Ltac trace_tac :=
  cbn [app]; autorewrite with trace;
  repeat first [ apply Forall_app; split | apply Forall_cons
               | apply Forall_nil | assumption | exact I ].

(** Rules for [within]: a property of traces that holds of the empty
    trace and of concatenations, with a reflexive and transitive
    relation on states. *)
Section Within.
Context {S : Type} {RS : RealtimeSession S}.
Variable T : list action -> Prop.
Variable R : state S -> state S -> Prop.
Hypothesis T_nil : T [].
Hypothesis T_app : forall a b, T a -> T b -> T (a ++ b).
Hypothesis R_refl : forall st, R st st.
Hypothesis R_trans : forall a b c, R a b -> R b c -> R a c.

Lemma within_ret {A} (a : A) : within T R (ret (S:=S) a).
Proof. intros st. cbn. auto. Qed.

Lemma within_raise {A} e : within T R (raise (S:=S) (A:=A) e).
Proof. intros st. cbn. auto. Qed.

Lemma within_get : within T R (get (S:=S)).
Proof. intros st. cbn. auto. Qed.

Lemma within_of_result {A} (r : result A) :
  within T R (of_result (S:=S) r).
Proof. destruct r; [apply within_ret | apply within_raise]. Qed.

Lemma within_bind {A B} (m : M A) (f : A -> M B) :
  within T R m -> (forall a, within T R (f a)) ->
  within T R (bind m f).
Proof.
  intros Hm Hf st. apply post_bind.
  eapply post_conseq; [apply Hm|]. cbn beta.
  intros [a|e] st1 tr1 [H1 H2]; [|auto].
  eapply post_conseq; [apply Hf|]. cbn beta.
  intros r st2 tr2 [H3 H4]. eauto.
Qed.

Lemma within_try {A} (m h : M A) :
  within T R m -> within T R h -> within T R (try_except m h).
Proof.
  intros Hm Hh st. apply post_try.
  eapply post_conseq; [apply Hm|]. cbn beta.
  intros [a|e] st1 tr1 [H1 H2]; [auto|].
  eapply post_conseq; [apply Hh|]. cbn beta.
  intros r st2 tr2 [H3 H4]. eauto.
Qed.

Lemma within_for_each {A} (l : list A) (body : A -> M unit) :
  (forall x, within T R (body x)) -> within T R (for_each l body).
Proof.
  intros Hb. induction l as [|x l IH]; simpl.
  - apply within_ret.
  - apply within_bind; auto.
Qed.

Lemma within_if {A} (b : bool) (m1 m2 : M A) :
  within T R m1 -> within T R m2 -> within T R (if b then m1 else m2).
Proof. now destruct b. Qed.

End Within.

(** Rules for [total]. *)
Section Total.
Context {S : Type} {RS : RealtimeSession S}.

Lemma total_ret {A} (a : A) : total (ret (S:=S) a).
Proof. intros st. cbn. eauto. Qed.

Lemma total_get : total (get (S:=S)).
Proof. intros st. cbn. eauto. Qed.

Lemma total_send e : total (send (S:=S) e).
Proof. intros st. cbn. eauto. Qed.

Lemma total_perform {A} c (f : nat -> A) : total (perform (S:=S) c f).
Proof. intros st. cbn. eauto. Qed.

Lemma total_bind {A B} (m : M (S:=S) A) (f : A -> M B) :
  total m -> (forall a, total (f a)) -> total (bind m f).
Proof.
  intros Hm Hf st. apply post_bind.
  eapply post_conseq; [apply Hm|]. cbn beta.
  intros r st1 tr1 [a ->].
  eapply post_conseq; [apply Hf|]. auto.
Qed.

Lemma total_try {A} (m h : M (S:=S) A) :
  total h -> total (try_except m h).
Proof.
  intros Hh st. apply post_try. apply post_run.
  destruct (fst (fst (m st))); [eauto|].
  eapply post_conseq; [apply Hh|]. auto.
Qed.

Lemma total_if {A} (b : bool) (m1 m2 : M (S:=S) A) :
  total m1 -> total m2 -> total (if b then m1 else m2).
Proof. now destruct b. Qed.

End Total.

(** ** What the stages of a response send *)

Section Streaming.
Context {S : Type} {RS : RealtimeSession S} (E : collaborators S).

Lemma same_vars_refl (st : state S) : same_vars st st.
Proof. now repeat split. Qed.

Lemma same_vars_trans (a b c : state S) :
  same_vars a b -> same_vars b c -> same_vars a c.
Proof.
  unfold same_vars. intros [H1 [H2 H3]] [H4 [H5 H6]].
  repeat split; congruence.
Qed.

Variable P : event -> Prop.
Variable C : call -> Prop.

Lemma emits_nil : Forall P (sent []) /\ Forall C (called []).
Proof. split; constructor. Qed.

Lemma emits_app a b :
  Forall P (sent a) /\ Forall C (called a) ->
  Forall P (sent b) /\ Forall C (called b) ->
  Forall P (sent (a ++ b)) /\ Forall C (called (a ++ b)).
Proof.
  intros [H1 H2] [H3 H4]. rewrite sent_app, called_app.
  split; apply Forall_app; auto.
Qed.

Lemma emits_send e : P e -> emits (S:=S) P C (send e).
Proof.
  intros H st. cbn.
  split; [split|]; [now repeat constructor | constructor |].
  apply same_vars_refl.
Qed.

Lemma emits_perform {A} c (f : nat -> A) :
  C c -> emits (S:=S) P C (perform c f).
Proof.
  intros H st. cbn.
  split; [split|]; [constructor | now repeat constructor |].
  now repeat split.
Qed.

Lemma emits_bind {A B} (m : M A) (f : A -> M B) :
  emits (S:=S) P C m -> (forall a, emits (S:=S) P C (f a)) -> emits (S:=S) P C (bind m f).
Proof.
  apply within_bind; [apply emits_app | apply same_vars_trans].
Qed.

Lemma emits_ret {A} (a : A) : emits (S:=S) P C (ret a).
Proof. apply within_ret; [apply emits_nil | apply same_vars_refl]. Qed.

Lemma emits_raise {A} e : emits (S:=S) P C (raise (A:=A) e).
Proof.
  apply within_raise; [apply emits_nil | apply same_vars_refl].
Qed.

Lemma emits_get : emits (S:=S) P C get.
Proof. apply within_get; [apply emits_nil | apply same_vars_refl]. Qed.

Lemma emits_of_result {A} (r : result A) : emits (S:=S) P C (of_result r).
Proof.
  apply within_of_result; [apply emits_nil | apply same_vars_refl].
Qed.

Lemma emits_for_each {A} (l : list A) (body : A -> M unit) :
  (forall x, emits (S:=S) P C (body x)) -> emits (S:=S) P C (for_each l body).
Proof.
  apply within_for_each;
    [apply emits_nil | apply emits_app | apply same_vars_refl
    | apply same_vars_trans].
Qed.

Lemma emits_if {A} (b : bool) (m1 m2 : M A) :
  emits (S:=S) P C m1 -> emits (S:=S) P C m2 -> emits (S:=S) P C (if b then m1 else m2).
Proof. now destruct b. Qed.

Lemma emits_weaken (P' : event -> Prop) (C' : call -> Prop) {A}
    (m : M A) :
  (forall e, P e -> P' e) -> (forall c, C c -> C' c) ->
  emits (S:=S) P C m -> emits (S:=S) P' C' m.
Proof.
  intros HP HC H st. eapply post_conseq; [apply H|]. cbn beta.
  intros r st' tr [[H1 H2] H3]. repeat split; try apply H3.
  - eapply Forall_impl; [exact HP | exact H1].
  - eapply Forall_impl; [exact HC | exact H2].
Qed.

End Streaming.

Ltac emits_step :=
  first
    [ apply emits_bind; [| intros ?]
    | apply emits_ret
    | apply emits_raise
    | apply emits_get
    | apply emits_of_result
    | apply emits_for_each; intros ?
    | apply emits_if
    | apply emits_send; exact I
    | apply emits_perform; exact I ].

Ltac emits_auto := repeat emits_step.

Section Response.
Context {S : Type} {RS : RealtimeSession S} (E : collaborators S).

Lemma synthesize_emits text :
  emits is_stream_event response_call (synthesize E text).
Proof. unfold synthesize, for_stream. emits_auto. Qed.

Lemma speak_emits sentence :
  emits is_stream_event response_call (speak E sentence).
Proof. unfold speak. emits_auto. Qed.

Lemma sentence_loop_emits fuel : forall buf,
  emits is_stream_event response_call (sentence_loop E fuel buf).
Proof.
  induction fuel as [|fuel IH]; intros buf; simpl.
  - emits_auto.
  - destruct (next_sentence buf) as [[s r]|]; [|emits_auto].
    apply emits_bind; [|intros _; apply IH].
    apply emits_if; [apply speak_emits | emits_auto].
Qed.

Lemma on_chunks_emits chunks : forall vars,
  emits is_stream_event response_call (on_chunks E vars chunks).
Proof.
  induction chunks as [|c chunks IH]; intros vars; simpl.
  - emits_auto.
  - apply emits_bind; [|intros vars'; apply IH].
    unfold on_chunk.
    apply emits_bind; [emits_auto | intros _].
    apply emits_bind; [apply sentence_loop_emits | intros b].
    emits_auto.
Qed.

Lemma respond_spec t st :
  post (respond E t) st (fun r st' tr =>
    same_vars st st' /\ Forall response_call (called tr) /\
    match r with
    | Ok _ => exists body full,
        sent tr = body ++ [ResponseComplete full] /\
        Forall is_stream_event body
    | Raise _ => Forall is_stream_event (sent tr)
    end).
Proof.
  unfold respond.
  apply post_bind. cbn [post perform].
  apply post_bind. eapply post_conseq; [apply on_chunks_emits|].
  cbn beta. intros [vars|e] st1 tr1 [[Hs Hc] Hv].
  2: { split; [vars_tac|]. split; trace_tac. }
  apply post_bind.
  destruct (fails (backend_chat_stream E (tick st) t));
    cbn [post raise ret].
  { split; [vars_tac|]. split; trace_tac. }
  apply post_bind.
  eapply post_conseq.
  { apply emits_if; [apply speak_emits | apply emits_ret]. }
  cbn beta. intros [[]|e] st2 tr2 [[Hs2 Hc2] Hv2].
  - cbn [post send]. split; [vars_tac|]. split; [trace_tac|].
    exists (sent tr1 ++ sent tr2), (fst vars). split; [|trace_tac].
    cbn [app]. autorewrite with trace. now rewrite app_assoc.
  - split; [vars_tac|]. split; trace_tac.
Qed.

End Response.

(** ** The handling of [stop_listening] *)

Section Stop.
Context {S : Type} {RS : RealtimeSession S} (E : collaborators S).


Lemma resolve_frame st :
  post (resolve_transcript E) st (fun r st' tr =>
    sent tr = [] /\ Forall resolve_call (called tr) /\
    audio_buffer st' = audio_buffer st /\
    is_listening st' = is_listening st /\
    (asr_realtime_session st = None -> asr_realtime_session st' = None)).
Proof.
  unfold resolve_transcript. wp.
  destruct (asr_realtime_session st) as [s|] eqn:Hs.
  - wp. rewrite Hs. wp.
    destruct (session_stop_and_get_transcript (tick st) 3000 s)
      as [s' [t|e]]; wp.
    + match goal with |- post (if ?b then _ else _) _ _ => destruct b end.
      * destruct (audio_data_of (audio_buffer st)); wp.
        -- repeat split; try discriminate. trace_tac.
        -- repeat split; try discriminate. trace_tac.
      * wp. repeat split; try discriminate. trace_tac.
    + match goal with |- post (if ?b then _ else _) _ _ => destruct b end.
      * destruct (audio_data_of (audio_buffer st)); wp.
        -- repeat split; try discriminate. trace_tac.
        -- repeat split; try discriminate. trace_tac.
      * wp. repeat split; try discriminate. trace_tac.
  - wp. rewrite Hs.
    match goal with |- post (if ?b then _ else _) _ _ => destruct b end.
    * destruct (audio_data_of (audio_buffer st)); wp.
      -- repeat split; auto. trace_tac.
      -- repeat split; auto. 
    * wp. repeat split; auto. 
Qed.

Lemma stop_shape st :
  post (on_stop_listening E) st (fun r st' tr =>
    is_listening st' = false /\
    match r with
    | Ok _ => exists t body full,
        sent tr = ListeningStopped :: Transcript t
                    :: body ++ [ResponseComplete full] /\
        Forall is_stream_event body /\
        (truthy (strip t) = false -> body = [] /\ full = [])
    | Raise _ =>
        sent tr = [ListeningStopped]
        \/ exists t body,
             sent tr = ListeningStopped :: Transcript t :: body /\
             Forall is_stream_event body
    end).
Proof.
  unfold on_stop_listening. wp.
  eapply post_conseq; [apply resolve_frame|]. cbn beta.
  cbn [audio_buffer is_listening asr_realtime_session tick].
  intros [t|e] st1 tr1 (Hsent & _ & _ & Hl & _).
  2: { split; [exact Hl|]. left. cbn [app]. autorewrite with trace.
       now rewrite Hsent. }
  wp. destruct (truthy (strip t)) eqn:Ht.
  - eapply post_conseq; [apply respond_spec|]. cbn beta.
    intros [[]|e] st2 tr2 (Hv & _ & Hr).
    + wp. split; [vars_tac|].
      destruct Hr as (body & full & Hb & Hf).
      exists t, body, full. split; [|split; [exact Hf | intros; congruence]].
      cbn [app]. autorewrite with trace. now rewrite Hsent, Hb.
    + split; [vars_tac|]. right. exists t, (sent tr2). split; [|exact Hr].
      cbn [app]. autorewrite with trace. now rewrite Hsent.
  - wp. split; [exact Hl|]. exists t, [], [].
    split; [|split; [constructor | auto]].
    cbn [app]. autorewrite with trace. now rewrite Hsent.
Qed.

End Stop.

(** ** Collaborators that keep their failures to themselves *)

Section Contained.
Context {S : Type} {RS : RealtimeSession S} (E : collaborators S).

Lemma total_for_each {A} (l : list A) (body : A -> M (S:=S) unit) :
  Forall (fun x => total (body x)) l -> total (for_each l body).
Proof.
  induction 1 as [|x l Hx Hl IH]; simpl.
  - apply total_ret.
  - apply total_bind; auto.
Qed.

Hypothesis HE : failures_contained E.

Lemma synthesize_total text : total (synthesize E text).
Proof.
  destruct HE as (_ & _ & Htts).
  unfold synthesize. intros st. apply post_bind, post_perform. cbn beta iota.
  destruct (Htts (tick st) text) as [Hf Hr].
  unfold for_stream. rewrite Hf.
  apply total_bind; [|intros _; apply total_ret].
  apply total_for_each.
  eapply Forall_impl; [|exact Hr]. cbn beta.
  intros c [out Hout]. rewrite Hout.
  apply total_bind; [apply total_ret | intros ?; apply total_send].
Qed.

Lemma speak_total sentence : total (speak E sentence).
Proof.
  unfold speak. apply total_bind; [apply total_perform | intros t].
  apply total_if; [apply synthesize_total | apply total_ret].
Qed.

Lemma sentence_loop_total fuel : forall buf,
  total (sentence_loop E fuel buf).
Proof.
  induction fuel as [|fuel IH]; intros buf; simpl.
  - apply total_ret.
  - destruct (next_sentence buf) as [[s r]|]; [|apply total_ret].
    apply total_bind; [|intros _; apply IH].
    apply total_if; [apply speak_total | apply total_ret].
Qed.

Lemma on_chunks_total chunks : forall vars,
  total (on_chunks E vars chunks).
Proof.
  induction chunks as [|c chunks IH]; intros vars; simpl.
  - apply total_ret.
  - apply total_bind; [|intros ?; apply IH].
    unfold on_chunk.
    apply total_bind; [apply total_send | intros _].
    apply total_bind; [apply sentence_loop_total | intros ?].
    apply total_ret.
Qed.

Lemma respond_total t : total (respond E t).
Proof.
  unfold respond. intros st. apply post_bind, post_perform. cbn beta iota.
  destruct HE as (_ & Hchat & _). rewrite Hchat.
  apply total_bind; [apply on_chunks_total | intros vars].
  apply total_bind; [apply total_ret | intros _].
  apply total_bind; [|intros _; apply total_send].
  apply total_if; [apply speak_total | apply total_ret].
Qed.

Lemma resolve_total : total (resolve_transcript E).
Proof.
  unfold resolve_transcript.
  apply total_bind; [apply total_get | intros st0].
  apply total_bind.
  { destruct (asr_realtime_session st0); [|apply total_ret].
    apply total_try, total_ret. }
  intros t. apply total_bind; [apply total_get | intros st1].
  apply total_if; [|apply total_ret].
  destruct (audio_data_of (audio_buffer st0)) as [a|]; [|apply total_ret].
  intros st. apply post_bind, post_perform. cbn beta iota.
  destruct HE as (Hstt & _). destruct (Hstt (tick st) a) as [t' ->].
  apply total_ret.
Qed.

Lemma on_stop_total : total (on_stop_listening E).
Proof.
  unfold on_stop_listening.
  apply total_bind; [intros st; cbn; eauto | intros _].
  apply total_bind; [apply total_send | intros _].
  apply total_bind; [apply resolve_total | intros t].
  apply total_bind; [apply total_send | intros _].
  apply total_bind.
  { apply total_if; [apply respond_total | apply total_send]. }
  intros _. apply total_bind; intros; intros st; cbn; eauto.
Qed.

End Contained.

(** ** Counting events *)

Lemma count_app p a b : count p (a ++ b) = count p a + count p b.
Proof. unfold count. now rewrite filter_app, length_app. Qed.

Lemma count_stream_events p body :
  (forall e, is_stream_event e -> p e = false) ->
  Forall is_stream_event body -> count p body = 0.
Proof.
  intros Hp. induction 1 as [|e body He _ IH]; [reflexivity|].
  unfold count in *. simpl. now rewrite (Hp e He).
Qed.

(** ** The outcome of [stop_listening] *)

Section Outcome.
Context {S : Type} {RS : RealtimeSession S} (E : collaborators S).


Lemma resolve_realtime st s s' t :
  asr_realtime_session st = Some s ->
  session_stop_and_get_transcript (tick st) 3000 s = (s', Ok t) ->
  truthy (strip t) = true ->
  post (resolve_transcript E) st (fun r _ tr =>
    r = Ok t /\ tr = [Call (SessionStop 3000)]).
Proof.
  intros Hs Hstop Ht. unfold resolve_transcript. wp.
  rewrite Hs. wp. rewrite Hs. wp. rewrite Hstop. wp.
  unfold should_batch_fallback. rewrite Ht. cbn [negb].
  rewrite andb_false_r. cbn [andb]. wp. auto.
Qed.

(** C3.  When the stop-and-collect call of the realtime session returns a
    transcript that is not empty after trimming, handling [stop_listening]
    never calls the batch [transcribe], whether the response that follows
    succeeds or raises; the [transcript] event carries that transcript. *)
Theorem realtime_transcript_skips_batch (st : state S) s s' t :
  asr_realtime_session st = Some s ->
  session_stop_and_get_transcript (tick st) 3000 s = (s', Ok t) ->
  truthy (strip t) = true ->
  post (on_stop_listening E) st (fun _ _ tr =>
    Forall (fun c => ~ is_transcribe c) (called tr) /\
    exists rest, sent tr = ListeningStopped :: Transcript t :: rest).
Proof.
  intros Hs Hstop Ht. unfold on_stop_listening. wp.
  eapply post_conseq; [apply (@resolve_realtime _ s s' t); auto|].
  cbn beta. intros r st1 tr1 [-> ->]. wp. rewrite Ht.
  eapply post_conseq; [apply respond_spec|]. cbn beta.
  intros r st2 tr2 (_ & Hc & _).
  assert (Hno : Forall (fun c => ~ is_transcribe c) (called tr2)).
  { eapply Forall_impl; [|exact Hc]. now intros []. }
  destruct r as [[]|e]; wp.
  - split; [|eexists; cbn [app]; autorewrite with trace; reflexivity].
    cbn [app]. autorewrite with trace.
    constructor; [now intros []|]. exact Hno.
  - split; [|eexists; cbn [app]; autorewrite with trace; reflexivity].
    cbn [app]. autorewrite with trace.
    constructor; [now intros []|]. exact Hno.
Qed.


End Outcome.

(** ** [start_listening] and [audio] *)

Section Listening.
Context {S : Type} {RS : RealtimeSession S} (E : collaborators S).

Lemma start_spec (st : state S) :
  post (on_start_listening E) st (fun r st' tr =>
    r = Ok tt /\ sent tr = [ListeningStarted] /\
    Forall start_call (called tr) /\
    is_listening st' = true /\ audio_buffer st' = []).
Proof.
  unfold on_start_listening. wp.
  destruct (stt_create_session E) as [create|]; wp.
  - destruct (create (tick st)) as [s|e]; wp.
    + destruct (session_start (Datatypes.S (tick st)) s) as [s' [[]|e]]; wp;
        repeat split; trace_tac; try reflexivity.
    + repeat split; trace_tac; try reflexivity.
  - repeat split; trace_tac; try reflexivity.
Qed.

Lemma start_without_session (st : state S) :
  create_fails E (tick st) ->
  post (on_start_listening E) st (fun r st' tr =>
    r = Ok tt /\ sent tr = [ListeningStarted] /\
    Forall start_call (called tr) /\
    is_listening st' = true /\ audio_buffer st' = [] /\
    asr_realtime_session st' = None).
Proof.
  unfold create_fails, on_start_listening. intros Hf. wp.
  destruct (stt_create_session E) as [create|]; [|contradiction]. wp.
  destruct Hf as [[e He] | (s & e & Hc & Hs)].
  - rewrite He. wp. repeat split; trace_tac; try reflexivity.
  - rewrite Hc. wp.
    destruct (session_start (Datatypes.S (tick st)) s) as [s' r].
    cbn in Hs. subst r. wp. repeat split; trace_tac; try reflexivity.
Qed.

Lemma audio_spec data (st : state S) :
  post (on_audio E data) st (fun _ st' tr =>
    Forall is_listening_event (sent tr) /\
    is_listening st' = is_listening st).
Proof.
  unfold on_audio. destruct data as [a|]; wp; [|split; trace_tac; try reflexivity].
  destruct (asr_realtime_session st) as [s|] eqn:Hs.
  - wp. 
    destruct (session_append_audio_float32 (tick st) a s) as [s1 [[]|e]]; wp.
    2: { split; trace_tac; try reflexivity. }
    destruct (session_drain_events (Datatypes.S (tick st)) s1) as [s2 [evs|e]]; wp.
    2: { split; trace_tac; try reflexivity. }
    eapply post_conseq.
    { apply (emits_for_each (P:=is_listening_event) (C:=fun _ => True)).
      intros [] ; unfold on_session_event; emits_auto. }
    cbn beta. intros r st3 tr3 [[H1 _] Hv].
    destruct r as [[]|e]; wp; (split; [trace_tac | vars_tac]).
  - destruct (vad E) as [f|]; [|wp; split; trace_tac; try reflexivity].
    destruct (0 <? length a); [|wp; split; trace_tac; try reflexivity].
    wp. destruct (f (tick st) a) as [b|e]; wp; split; trace_tac; try reflexivity.
Qed.

Lemma audio_local_vad a (st : state S) is_speech b :
  asr_realtime_session st = None ->
  vad E = Some is_speech ->
  a <> [] ->
  is_speech (tick st) a = Ok b ->
  post (on_audio E (Some a)) st (fun r st' tr =>
    r = Ok tt /\ tr = [Call (IsSpeech a); Send (VadStatus b None)] /\
    audio_buffer st' = audio_buffer st ++ [a] /\
    is_listening st' = is_listening st /\
    asr_realtime_session st' = None).
Proof.
  intros Hs Hv Ha Hb. unfold on_audio. wp. rewrite Hs, Hv.
  destruct a as [|x a]; [congruence|]. cbn [length Nat.ltb Nat.leb].
  wp. rewrite Hb. wp. repeat split; auto.
Qed.

End Listening.

(** ** The order of the events of a turn *)

Section Order.
Lemma sorted_app (l1 l2 : list event) :
  StronglySorted by_rank l1 -> StronglySorted by_rank l2 ->
  (forall x y, In x l1 -> In y l2 -> by_rank x y) ->
  StronglySorted by_rank (l1 ++ l2).
Proof.
  induction 1 as [|a l1 H1 IH Ha]; intros H2 H; simpl; [exact H2|].
  constructor.
  - apply IH; [exact H2|]. intros x y Hx Hy. apply H; [now right|exact Hy].
  - apply Forall_app. split; [exact Ha|].
    apply Forall_forall. intros y Hy. apply H; [now left|exact Hy].
Qed.

Lemma sorted_flat (l : list event) k :
  (forall x, In x l -> rank x = k) -> StronglySorted by_rank l.
Proof.
  induction l as [|a l IH]; intros H; constructor.
  - apply IH. intros x Hx. apply H. now right.
  - apply Forall_forall. intros y Hy. unfold by_rank.
    rewrite (H a), (H y); [lia | now right | now left].
Qed.

Lemma sorted_nth (l : list event) : StronglySorted by_rank l ->
  forall i j a b, nth_error l i = Some a -> nth_error l j = Some b ->
                  i < j -> by_rank a b.
Proof.
  induction 1 as [|x l Hl IH Hx]; intros i j a b Hi Hj Hij.
  - destruct i; discriminate.
  - destruct j as [|j]; [lia|]. simpl in Hj.
    destruct i as [|i]; simpl in Hi.
    + injection Hi as <-. rewrite Forall_forall in Hx.
      apply Hx. eapply nth_error_In; eauto.
    + apply (IH i j); auto. lia.
Qed.

Lemma sorted_in_phase_order evs :
  StronglySorted by_rank evs -> in_phase_order evs.
Proof.
  intros Hs i j a b p q Hi Hj Hp Hq Hpq.
  assert (Ra : rank a = p) by (destruct a; cbn in *; congruence).
  assert (Rb : rank b = q) by (destruct b; cbn in *; congruence).
  destruct (Nat.lt_trichotomy i j) as [L|[->|L]]; [exact L| |].
  - rewrite Hi in Hj. injection Hj as ->. lia.
  - pose proof (sorted_nth Hs Hj Hi L) as H. unfold by_rank in H. lia.
Qed.

Lemma stream_rank body x :
  Forall is_stream_event body -> In x body -> rank x = 4.
Proof.
  intros H Hx. rewrite Forall_forall in H. specialize (H x Hx).
  now destruct x.
Qed.

Lemma listening_rank l x :
  Forall is_listening_event l -> In x l -> rank x = 1.
Proof.
  intros H Hx. rewrite Forall_forall in H. specialize (H x Hx).
  now destruct x.
Qed.

Lemma closing_sorted tail :
  closing tail ->
  StronglySorted by_rank tail /\ forall x, In x tail -> 2 <= rank x.
Proof.
  intros [| |t body Hb|t body full Hb].
  - split; [constructor | intros x []].
  - split; [repeat constructor | intros x [<-|[]]; cbn; lia].
  - split.
    + change (StronglySorted by_rank ([ListeningStopped; Transcript t] ++ body)).
      apply sorted_app.
      * repeat constructor. 
      * apply (@sorted_flat _ 4). intros x. now apply stream_rank.
      * intros x y [<-|[<-|[]]] Hy; unfold by_rank;
          rewrite (stream_rank Hb Hy); cbn; lia.
    + intros x [<-|[<-|Hx]]; cbn; try lia.
      rewrite (stream_rank Hb Hx). lia.
  - split.
    + change (StronglySorted by_rank
                ([ListeningStopped; Transcript t] ++ body ++ [ResponseComplete full])).
      apply sorted_app; [repeat constructor | |].
      * apply sorted_app; [|repeat constructor|].
        -- apply (@sorted_flat _ 4). intros x. now apply stream_rank.
        -- intros x y Hx [<-|[]]. unfold by_rank.
           rewrite (stream_rank Hb Hx). cbn. lia.
      * intros x y [<-|[<-|[]]] Hy; unfold by_rank;
          (apply in_app_or in Hy as [Hy|[<-|[]]];
           [rewrite (stream_rank Hb Hy)|]; cbn; lia).
    + intros x [<-|[<-|Hx]]; cbn; try lia.
      apply in_app_or in Hx as [Hx|[<-|[]]]; [|cbn; lia].
      rewrite (stream_rank Hb Hx). lia.
Qed.

Lemma turn_sorted vads tail :
  Forall is_listening_event vads -> closing tail ->
  StronglySorted by_rank (ListeningStarted :: vads ++ tail).
Proof.
  intros Hv Ht. destruct (closing_sorted Ht) as [Hs Hr].
  constructor.
  - apply sorted_app; [|exact Hs|].
    + apply (@sorted_flat _ 1). intros x. now apply listening_rank.
    + intros x y Hx Hy. unfold by_rank.
      rewrite (listening_rank Hv Hx). specialize (Hr y Hy). lia.
  - apply Forall_forall. intros y Hy. unfold by_rank. cbn. lia.
Qed.
End Order.

Section Turn.
Context {S : Type} {RS : RealtimeSession S} (E : collaborators S).

Lemma mid_spec msg (st : state S) :
  in_turn msg ->
  post (handle_message E msg) st (fun _ _ tr =>
    Forall is_listening_event (sent tr)).
Proof.
  destruct msg; cbn [in_turn]; intros H; try contradiction;
    unfold handle_message; wp; try trace_tac.
  destruct (is_listening st); wp; [|trace_tac].
  eapply post_conseq; [apply audio_spec|]. cbn beta.
  intros r st' tr [H1 _]. trace_tac.
Qed.

Lemma serve_turn_tail mid : forall (st : state S),
  Forall in_turn mid ->
  post (serve E (mid ++ [StopListening])) st (fun _ _ tr =>
    exists vads tail,
      sent tr = vads ++ tail /\
      Forall is_listening_event vads /\ closing tail).
Proof.
  induction mid as [|msg mid IH]; intros st Hmid.
  - cbn [app serve handle_message]. wp.
    eapply post_conseq; [apply stop_shape|]. cbn beta.
    intros [[]|e] st' tr [_ H].
    + wp. destruct H as (t & body & full & Hs & Hb & _).
      exists [], (sent tr). autorewrite with trace. cbn [app].
      repeat split; [constructor|]. rewrite Hs. now constructor.
    + exists [], (sent tr). repeat split; [constructor|].
      destruct H as [-> | (t & body & -> & Hb)]; now constructor.
  - inversion Hmid as [|? ? Hmsg Hrest]; subst.
    cbn [app serve]. wp.
    eapply post_conseq; [apply (mid_spec _ Hmsg)|]. cbn beta.
    intros [[]|e] st' tr Hv.
    + eapply post_conseq; [apply (IH st' Hrest)|]. cbn beta.
      intros r st2 tr2 (vads & tail & Hs & Hvads & Hc).
      exists (sent tr ++ vads), tail. autorewrite with trace.
      rewrite Hs, app_assoc. repeat split; auto.
      apply Forall_app; auto.
    + exists (sent tr), []. autorewrite with trace.
      repeat split; auto. constructor.
Qed.

(** C7.  In a turn ([start_listening], then messages other than
    [start_listening] and [stop_listening], then [stop_listening]) what
    the server sends is in phase order: [listening_started] comes before
    every [vad_status], these before [listening_stopped], this before the
    [transcript], this before every [response_chunk] and [audio_chunk],
    and these before [response_complete].  The events are
    [listening_started], then [vad_status] events (and [pong] replies),
    then the closing sequence of [closing], which an exception may cut
    short but never reorders. *)
Theorem turn_event_order (st : state S) mid :
  Forall in_turn mid ->
  let evs :=
    sent (trace_of (serve E (StartListening :: mid ++ [StopListening])) st)
  in
  in_phase_order evs /\
  exists vads tail,
    evs = ListeningStarted :: vads ++ tail /\
    Forall is_listening_event vads /\ closing tail.
Proof.
  intros Hmid evs.
  assert (H : exists vads tail,
    evs = ListeningStarted :: vads ++ tail /\
    Forall is_listening_event vads /\ closing tail).
  { subst evs. unfold trace_of.
    apply (proj1 (post_run
      (serve E (StartListening :: mid ++ [StopListening])) st
      (fun _ _ tr => exists vads tail,
         sent tr = ListeningStarted :: vads ++ tail /\
         Forall is_listening_event vads /\ closing tail))).
    cbn [serve handle_message]. wp.
    eapply post_conseq; [apply start_spec|]. cbn beta.
    intros r st1 tr1 (-> & Hs & _).
    eapply post_conseq; [apply (serve_turn_tail _ Hmid)|]. cbn beta.
    intros r st2 tr2 (vads & tail & Hs2 & Hv & Hc).
    exists vads, tail. autorewrite with trace. rewrite Hs, Hs2. auto. }
  split; [|exact H].
  destruct H as (vads & tail & -> & Hv & Hc).
  apply sorted_in_phase_order, turn_sorted; auto.
Qed.

End Turn.

(** ** A turn without a realtime session *)

Section Fallback.
Context {S : Type} {RS : RealtimeSession S} (E : collaborators S).

Lemma vad_rounds_sent (chunks : list ndarray) : forall verdicts,
  length chunks = length verdicts ->
  sent (flat_map vad_round (combine chunks verdicts))
  = map (fun b => VadStatus b None) verdicts.
Proof.
  induction chunks as [|a chunks IH]; intros [|b verdicts] Hl;
    try discriminate; [reflexivity|].
  cbn. f_equal. apply IH. now injection Hl.
Qed.

Lemma vad_rounds_called (chunks : list ndarray) : forall verdicts,
  length chunks = length verdicts ->
  called (flat_map vad_round (combine chunks verdicts))
  = map IsSpeech chunks.
Proof.
  induction chunks as [|a chunks IH]; intros [|b verdicts] Hl;
    try discriminate; [reflexivity|].
  cbn. f_equal. apply IH. now injection Hl.
Qed.

Lemma serve_audio_chunks is_speech (chunks : list ndarray) :
  vad E = Some is_speech ->
  (forall k a, exists b, is_speech k a = Ok b) ->
  forall (st : state S) rest,
  asr_realtime_session st = None ->
  is_listening st = true ->
  Forall (fun a : ndarray => a <> []) chunks ->
  post (serve E (map (fun a => Audio (Some a)) chunks ++ rest)) st
    (fun r st' tr =>
       exists verdicts st1 tr_rest,
         Forall2 (fun a b => exists k, is_speech k a = Ok b)
                 chunks verdicts /\
         tr = flat_map vad_round (combine chunks verdicts) ++ tr_rest /\
         audio_buffer st1 = audio_buffer st ++ chunks /\
         asr_realtime_session st1 = None /\
         serve E rest st1 = (r, st', tr_rest)).
Proof.
  intros Hv Hok.
  induction chunks as [|a chunks IH]; intros st rest Hs Hl Hne.
  - cbn [map app]. apply post_run.
    exists [], st, (snd (serve E rest st)).
    rewrite app_nil_r. repeat split; auto.
    now destruct (serve E rest st) as [[r st'] tr].
  - inversion Hne as [|? ? Ha Hrest]; subst.
    cbn [map app serve handle_message]. wp. rewrite Hl.
    destruct (Hok (tick st) a) as [b Hb].
    eapply post_conseq; [apply (audio_local_vad Hs Hv Ha Hb)|].
    cbn beta. intros r st1 tr1 (-> & -> & Hbuf & Hl1 & Hs1).
    eapply post_conseq; [apply (IH st1 rest Hs1)|]; auto; [congruence|].
    cbn beta. intros r st2 tr2 (verdicts & st3 & tr_rest & HF & -> & Hb3 & Hs3 & Hrun).
    exists (b :: verdicts), st3, tr_rest. repeat split; eauto.
    rewrite Hb3, Hbuf, <- app_assoc. reflexivity.
Qed.

Lemma stop_attempts_batch (st : state S) :
  asr_realtime_session st = None ->
  audio_buffer st <> [] ->
  post (on_stop_listening E) st (fun _ _ tr =>
    exists rest,
      tr = Send ListeningStopped
             :: Call (Transcribe (concat (audio_buffer st))) :: rest).
Proof.
  intros Hs Hb. unfold on_stop_listening. wp.
  unfold resolve_transcript. wp. rewrite Hs. wp.
  destruct (audio_buffer st) as [|c b] eqn:Eb; [congruence|].
  cbn [audio_data_of]. unfold should_batch_fallback.
  change (truthy (strip [])) with false. cbn [negb andb orb]. wp.
  destruct (stt_transcribe E (tick st) (concat (c :: b))) as [t|e].
  - apply post_run. cbn [app]. eexists. reflexivity.
  - cbn [app]. eexists. reflexivity.
Qed.


End Fallback.

(** ** Synthesis, sentence after sentence *)

Section Sequence.
Context {S : Type} {RS : RealtimeSession S} (E : collaborators S).

Lemma audio_view_app a b : audio_view (a ++ b) = audio_view a ++ audio_view b.
Proof. apply flat_map_app. Qed.

Lemma audio_view_chunk d r tr :
  audio_view (Send (AudioChunk d r) :: tr) = Chunk d :: audio_view tr.
Proof. reflexivity. Qed.

Lemma audio_view_begin t tr :
  audio_view (Call (SynthesizeStream t) :: tr) = Begin t :: audio_view tr.
Proof. reflexivity. Qed.

Lemma sequential_nil : sequential E [].
Proof. exists []. split; [reflexivity | constructor]. Qed.

Lemma sequential_is_cut v : sequential E v -> sequential_cut E v.
Proof.
  intros (blocks & -> & H). exists blocks, [].
  rewrite app_nil_r. auto.
Qed.

Lemma sequential_app v w :
  sequential E v -> sequential E w -> sequential E (v ++ w).
Proof.
  intros (b1 & -> & H1) (b2 & -> & H2). exists (b1 ++ b2).
  split; [now rewrite flat_map_app | now apply Forall_app].
Qed.

Lemma sequential_app_cut v w :
  sequential E v -> sequential_cut E w -> sequential_cut E (v ++ w).
Proof.
  intros (b1 & -> & H1) (b2 & cut & -> & H2 & Hc). exists (b1 ++ b2), cut.
  split; [now rewrite flat_map_app, app_assoc|].
  split; [now apply Forall_app | exact Hc].
Qed.

Lemma in_sequence_bind {A B} (m : M (S:=S) A) (f : A -> M B) :
  in_sequence E m -> (forall a, in_sequence E (f a)) ->
  in_sequence E (bind m f).
Proof.
  intros Hm Hf st. apply post_bind.
  eapply post_conseq; [apply Hm|]. cbn beta.
  intros [a|e] st1 tr1 H1; [|exact H1].
  eapply post_conseq; [apply Hf|]. cbn beta.
  intros [b|e] st2 tr2 H2; rewrite audio_view_app; cbn in *.
  - now apply sequential_app.
  - now apply sequential_app_cut.
Qed.

Lemma in_sequence_silent {A} (m : M (S:=S) A) :
  silent m -> in_sequence E m.
Proof.
  intros H st. eapply post_conseq; [apply H|]. cbn beta.
  intros [a|e] st' tr [-> _]; cbn.
  - apply sequential_nil.
  - apply sequential_is_cut, sequential_nil.
Qed.

Lemma in_sequence_if {A} (b : bool) (m1 m2 : M (S:=S) A) :
  in_sequence E m1 -> in_sequence E m2 ->
  in_sequence E (if b then m1 else m2).
Proof. now destruct b. Qed.

(** silent rules *)
Lemma silent_nil : audio_view [] = [].
Proof. reflexivity. Qed.

Lemma silent_app a b :
  audio_view a = [] -> audio_view b = [] -> audio_view (a ++ b) = [].
Proof. intros Ha Hb. now rewrite audio_view_app, Ha, Hb. Qed.

Lemma silent_bind {A B} (m : M (S:=S) A) (f : A -> M B) :
  silent m -> (forall a, silent (f a)) -> silent (bind m f).
Proof. apply within_bind; [apply silent_app | auto]. Qed.

Lemma silent_try {A} (m h : M (S:=S) A) :
  silent m -> silent h -> silent (try_except m h).
Proof. apply within_try; [apply silent_app | auto]. Qed.

Lemma silent_ret {A} (a : A) : silent (ret (S:=S) a).
Proof. apply within_ret; auto. Qed.

Lemma silent_raise {A} e : silent (raise (S:=S) (A:=A) e).
Proof. apply within_raise; auto. Qed.

Lemma silent_get : silent (get (S:=S)).
Proof. apply within_get; auto. Qed.

Lemma silent_of_result {A} (r : result A) : silent (of_result (S:=S) r).
Proof. apply within_of_result; auto. Qed.

Lemma silent_if {A} (b : bool) (m1 m2 : M (S:=S) A) :
  silent m1 -> silent m2 -> silent (if b then m1 else m2).
Proof. now destruct b. Qed.

Lemma silent_send e :
  match e with AudioChunk _ _ => False | _ => True end ->
  silent (send (S:=S) e).
Proof. intros H st. cbn. split; [|exact I]. now destruct e. Qed.

Lemma silent_perform {A} c (f : nat -> A) :
  match c with SynthesizeStream _ => False | _ => True end ->
  silent (perform (S:=S) c f).
Proof. intros H st. cbn. split; [|exact I]. now destruct c. Qed.

Lemma silent_set_is_listening b : silent (set_is_listening (S:=S) b).
Proof. intros st. cbn. auto. Qed.

Lemma silent_set_audio_buffer b : silent (set_audio_buffer (S:=S) b).
Proof. intros st. cbn. auto. Qed.

Lemma silent_set_session s : silent (set_session (S:=S) s).
Proof. intros st. cbn. auto. Qed.

Lemma silent_on_session {A} c (method : nat -> S -> S * result A) :
  match c with SynthesizeStream _ => False | _ => True end ->
  silent (on_session c method).
Proof.
  intros H. unfold on_session.
  apply silent_bind; [apply silent_get | intros st0].
  destruct (asr_realtime_session st0); [|apply silent_raise].
  apply silent_bind; [now apply silent_perform | intros [s' r]].
  apply silent_bind; [apply silent_set_session | intros _].
  apply silent_of_result.
Qed.

Lemma resolve_silent : silent (resolve_transcript E).
Proof.
  unfold resolve_transcript.
  apply silent_bind; [apply silent_get | intros st0].
  apply silent_bind.
  { destruct (asr_realtime_session st0); [|apply silent_ret].
    apply silent_try; [|apply silent_ret].
    now apply silent_on_session. }
  intros t. apply silent_bind; [apply silent_get | intros st1].
  apply silent_if; [|apply silent_ret].
  destruct (audio_data_of (audio_buffer st0)); [|apply silent_ret].
  apply silent_bind; [now apply silent_perform | intros r].
  apply silent_of_result.
Qed.

(** The loop over the chunks of one synthesis stream. *)
Lemma chunks_spec (chunks : list bytes) : forall (st : state S),
  post (for_each chunks (fun audio_chunk =>
          bind (of_result (_resample_pcm16 audio_chunk 24000
                             (tts_output_sample_rate E)))
            (fun out_chunk =>
               send (AudioChunk (b64encode out_chunk)
                                (tts_output_sample_rate E))))) st
    (fun r _ tr =>
       exists datas,
         audio_view tr = map Chunk datas /\
         match r with
         | Ok _ => encoded E chunks datas
         | Raise _ => exists n, encoded E (firstn n chunks) datas
         end).
Proof.
  induction chunks as [|c chunks IH]; intros st; cbn [for_each].
  - wp. exists []. split; [reflexivity | constructor].
  - wp.
    destruct (_resample_pcm16 c 24000 (tts_output_sample_rate E))
      as [out|e] eqn:R; cbn beta iota.
    + wp. eapply post_conseq; [apply IH|]. cbn beta.
      intros r st' tr (datas & Hv & Hr).
      exists (b64encode out :: datas). split.
      * cbn [app]. now rewrite audio_view_chunk, Hv.
      * destruct r as [[]|e].
        -- constructor; [eauto | exact Hr].
        -- destruct Hr as [n Hn]. exists (Datatypes.S n). cbn [firstn].
           constructor; [eauto | exact Hn].
    + exists []. split; [reflexivity|]. exists 0. constructor.
Qed.

Lemma synthesize_in_sequence text : in_sequence E (synthesize E text).
Proof.
  intros st. unfold synthesize, for_stream. wp.
  eapply post_conseq; [apply chunks_spec|]. cbn beta.
  intros r st' tr (datas & Hv & Hr).
  assert (Hcut : forall n,
    encoded E (firstn n (items (tts_synthesize_stream E (tick st) text)))
            datas ->
    sequential_cut E (audio_view ([Call (SynthesizeStream text)] ++ tr))).
  { intros n Hn. exists [], (block (text, datas)). cbn [flat_map app].
    split; [now rewrite audio_view_begin, Hv|]. split; [constructor|].
    right. exists (text, datas). split; [reflexivity|].
    exists (tick st), n. exact Hn. }
  destruct r as [[]|e].
  - destruct (fails (tts_synthesize_stream E (tick st) text)); wp.
    + rewrite app_nil_r.
      apply (Hcut (length (items (tts_synthesize_stream E (tick st) text)))).
      now rewrite firstn_all.
    + rewrite app_nil_r. exists [(text, datas)]. split.
      * cbn [app flat_map]. now rewrite audio_view_begin, Hv, app_nil_r.
      * repeat constructor. exists (tick st). exact Hr.
  - destruct Hr as [n Hn]. exact (Hcut n Hn).
Qed.

Lemma speak_in_sequence sentence : in_sequence E (speak E sentence).
Proof.
  unfold speak. apply in_sequence_bind.
  - apply in_sequence_silent. now apply silent_perform.
  - intros t. apply in_sequence_if; [apply synthesize_in_sequence|].
    apply in_sequence_silent, silent_ret.
Qed.

Lemma sentence_loop_in_sequence fuel : forall buf,
  in_sequence E (sentence_loop E fuel buf).
Proof.
  induction fuel as [|fuel IH]; intros buf; simpl.
  - apply in_sequence_silent, silent_ret.
  - destruct (next_sentence buf) as [[s r]|];
      [|apply in_sequence_silent, silent_ret].
    apply in_sequence_bind; [|intros _; apply IH].
    apply in_sequence_if; [apply speak_in_sequence|].
    apply in_sequence_silent, silent_ret.
Qed.

Lemma on_chunks_in_sequence chunks : forall vars,
  in_sequence E (on_chunks E vars chunks).
Proof.
  induction chunks as [|c chunks IH]; intros vars; simpl.
  - apply in_sequence_silent, silent_ret.
  - apply in_sequence_bind; [|intros ?; apply IH].
    unfold on_chunk.
    apply in_sequence_bind;
      [apply in_sequence_silent; now apply silent_send | intros _].
    apply in_sequence_bind; [apply sentence_loop_in_sequence | intros ?].
    apply in_sequence_silent, silent_ret.
Qed.

Lemma respond_in_sequence t : in_sequence E (respond E t).
Proof.
  unfold respond.
  apply in_sequence_bind;
    [apply in_sequence_silent; now apply silent_perform | intros reply].
  apply in_sequence_bind; [apply on_chunks_in_sequence | intros vars].
  apply in_sequence_bind.
  { apply in_sequence_silent, silent_if;
      [apply silent_raise | apply silent_ret]. }
  intros _. apply in_sequence_bind.
  { apply in_sequence_if; [apply speak_in_sequence|].
    apply in_sequence_silent, silent_ret. }
  intros _. apply in_sequence_silent. now apply silent_send.
Qed.

Lemma stop_in_sequence : in_sequence E (on_stop_listening E).
Proof.
  unfold on_stop_listening.
  apply in_sequence_bind;
    [apply in_sequence_silent, silent_set_is_listening | intros _].
  apply in_sequence_bind;
    [apply in_sequence_silent; now apply silent_send | intros _].
  apply in_sequence_bind;
    [apply in_sequence_silent, resolve_silent | intros t].
  apply in_sequence_bind;
    [apply in_sequence_silent; now apply silent_send | intros _].
  apply in_sequence_bind.
  { apply in_sequence_if; [apply respond_in_sequence|].
    apply in_sequence_silent. now apply silent_send. }
  intros _. apply in_sequence_silent.
  apply silent_bind; [apply silent_set_audio_buffer | intros _].
  apply silent_set_session.
Qed.

End Sequence.

(** ** The sentences the handler speaks *)

Create Rewrite HintDb spoken.

Section Spoken.
Context {S : Type} {RS : RealtimeSession S} (E : collaborators S).

Lemma spoken_app a b : spoken (a ++ b) = spoken a ++ spoken b.
Proof. apply flat_map_app. Qed.

Lemma spoken_clean s tr :
  spoken (Call (CleanForSpeech s) :: tr) = s :: spoken tr.
Proof. reflexivity. Qed.

Lemma spoken_chat t tr : spoken (Call (ChatStream t) :: tr) = spoken tr.
Proof. reflexivity. Qed.

Lemma spoken_send e tr : spoken (Send e :: tr) = spoken tr.
Proof. reflexivity. Qed.

Lemma spoken_nil : spoken [] = [].
Proof. reflexivity. Qed.

Lemma spoken_none tr : Forall not_clean (called tr) -> spoken tr = [].
Proof.
  induction tr as [|[e|c] tr IH]; cbn; intros H; auto.
  inversion H as [|? ? Hc Ht]; subst.
  destruct c; cbn in *; try contradiction; auto.
Qed.

#[local] Hint Rewrite spoken_app spoken_clean spoken_chat spoken_send
  spoken_nil app_nil_r app_nil_l : spoken.

Ltac spoken_tac := cbn [app]; autorewrite with spoken.

Lemma synthesize_spoken text (st : state S) :
  post (synthesize E text) st (fun _ _ tr => spoken tr = []).
Proof.
  assert (H : emits (S:=S) (fun _ => True) not_clean (synthesize E text)).
  { unfold synthesize, for_stream. emits_auto. }
  eapply post_conseq; [apply H|]. cbn beta.
  intros r st' tr [[_ Hc] _]. now apply spoken_none.
Qed.

Lemma speak_spoken sentence (st : state S) :
  post (speak E sentence) st (fun _ _ tr => spoken tr = [sentence]).
Proof.
  unfold speak. wp.
  destruct (truthy (clean_for_speech E sentence)); wp; [|reflexivity].
  eapply post_conseq; [apply synthesize_spoken|]. cbn beta.
  intros r st' tr H. spoken_tac. now rewrite H.
Qed.

Lemma sentence_loop_spoken fuel : forall buf (st : state S),
  post (sentence_loop E fuel buf) st (fun r _ tr =>
    match r with
    | Ok b => spoken tr = fst (drain_fuel fuel buf) /\
              b = snd (drain_fuel fuel buf)
    | Raise _ => exists rest, fst (drain_fuel fuel buf) = spoken tr ++ rest
    end).
Proof.
  induction fuel as [|fuel IH]; intros buf st; cbn [sentence_loop drain_fuel].
  - wp. auto.
  - destruct (next_sentence buf) as [[s r]|]; [|wp; auto].
    destruct (drain_fuel fuel r) as [more final] eqn:D.
    wp. 
    assert (Hs : post (if truthy s then speak E s else ret tt) st
              (fun _ _ tr => spoken tr = if truthy s then [s] else [])).
    { destruct (truthy s); [apply speak_spoken | wp; reflexivity]. }
    eapply post_conseq; [apply Hs|]. cbn beta.
    intros [[]|e] st1 tr1 H1.
    + eapply post_conseq; [apply IH|]. cbn beta. rewrite D. cbn [fst snd].
      intros [b|e] st2 tr2 H2; spoken_tac; rewrite H1.
      * destruct H2 as [-> ->]. auto.
      * destruct H2 as [rest ->]. exists rest. now rewrite app_assoc.
    + cbn [fst]. rewrite H1. now exists more.
Qed.

Lemma on_chunks_spoken chunks : forall vars (st : state S),
  post (on_chunks E vars chunks) st (fun r _ tr =>
    match r with
    | Ok vars' =>
        spoken tr = concat (fst (feed_all (snd vars) chunks)) /\
        snd vars' = snd (feed_all (snd vars) chunks) /\
        fst vars' = fst vars ++ concat chunks
    | Raise _ =>
        exists rest,
          concat (fst (feed_all (snd vars) chunks)) = spoken tr ++ rest
    end).
Proof.
  induction chunks as [|c chunks IH]; intros vars st;
    cbn [on_chunks feed_all].
  - wp. now rewrite app_nil_r.
  - unfold on_chunk, feed, drain. wp.
    destruct (drain_fuel (length (snd vars ++ c)) (snd vars ++ c))
      as [now buf'] eqn:D.
    destruct (feed_all buf' chunks) as [later final] eqn:F.
    eapply post_conseq; [apply sentence_loop_spoken|]. cbn beta.
    rewrite D. cbn [fst snd].
    intros [b|e] st1 tr1 H1.
    + destruct H1 as [H1 ->]. wp.
      eapply post_conseq; [apply IH|]. cbn beta. cbn [fst snd]. rewrite F.
      cbn [fst snd concat].
      intros [v|e] st2 tr2 H2; spoken_tac; rewrite H1.
      * destruct H2 as (-> & -> & ->). rewrite <- app_assoc. auto.
      * destruct H2 as [rest ->]. exists rest. now rewrite app_assoc.
    + destruct H1 as [rest ->]. cbn [concat].
      exists (rest ++ concat later). spoken_tac. now rewrite app_assoc.
Qed.

Lemma respond_spoken t (st : state S) :
  post (respond E t) st (fun r _ tr =>
    let reply := items (backend_chat_stream E (tick st) t) in
    exists rest,
      sentences reply = spoken tr ++ rest /\
      match r with
      | Ok _ => rest = [] /\
                In (Send (ResponseComplete (concat reply))) tr
      | Raise _ => True
      end).
Proof.
  unfold respond, sentences. wp.
  set (reply := items (backend_chat_stream E (tick st) t)).
  eapply post_conseq; [apply on_chunks_spoken|]. cbn beta. cbn [fst snd].
  destruct (feed_all [] reply) as [during final] eqn:F. cbn [fst snd app].
  intros [vars|e] st1 tr1 H1.
  2: { destruct H1 as [rest ->]. exists (rest ++ flush final).
       split; [|exact I]. spoken_tac. now rewrite app_assoc. }
  destruct H1 as (H1 & Hb & Hf). wp.
  destruct (fails (backend_chat_stream E (tick st) t)); wp.
  { exists (flush final). split; [|exact I].
    spoken_tac. now rewrite H1. }
  rewrite Hb. unfold flush.
  destruct (truthy (strip final)).
  - eapply post_conseq; [apply speak_spoken|]. cbn beta.
    intros [[]|e] st2 tr2 H2.
    + wp. exists []. rewrite app_nil_r. split.
      * spoken_tac. now rewrite H1, H2.
      * split; [reflexivity|]. rewrite Hf.
        cbn [app]. repeat (rewrite in_app_iff || cbn [In]). auto 10.
    + exists []. rewrite app_nil_r. split; [|exact I].
      spoken_tac. now rewrite H1, H2.
  - wp. exists []. rewrite !app_nil_r. split.
    + spoken_tac. now rewrite H1.
    + split; [reflexivity|]. rewrite Hf.
      cbn [app]. repeat (rewrite in_app_iff || cbn [In]). auto 10.
Qed.

End Spoken.

(** ** Synthesis follows the sentences *)

Section Pairing.
Context {S : Type} {RS : RealtimeSession S} (E : collaborators S).

Lemma begun_app a b : begun (a ++ b) = begun a ++ begun b.
Proof. apply flat_map_app. Qed.

Lemma quiet_trace tr :
  Forall quiet_call (called tr) -> begun tr = [] /\ spoken tr = [].
Proof.
  induction tr as [|[e|c] tr IH]; cbn; intros H; auto.
  inversion H as [|? ? Hc Ht]; subst.
  destruct c; cbn in *; try contradiction; auto.
Qed.

Lemma paired_nil : paired E [].
Proof. reflexivity. Qed.

Lemma paired_app a b : paired E a -> paired E b -> paired E (a ++ b).
Proof.
  unfold paired. intros Ha Hb.
  now rewrite begun_app, spoken_app, map_app, filter_app, Ha, Hb.
Qed.

Lemma paired_quiet tr : Forall quiet_call (called tr) -> paired E tr.
Proof.
  intros H. destruct (quiet_trace H) as [Hb Hs].
  unfold paired. now rewrite Hb, Hs.
Qed.

Lemma pairs_bind {A B} (m : M (S:=S) A) (f : A -> M B) :
  pairs E m -> (forall a, pairs E (f a)) -> pairs E (bind m f).
Proof. apply within_bind; [apply paired_app | auto]. Qed.

Lemma pairs_ret {A} (a : A) : pairs E (ret (S:=S) a).
Proof. apply within_ret; [apply paired_nil | auto]. Qed.

Lemma pairs_raise {A} e : pairs E (raise (S:=S) (A:=A) e).
Proof. apply within_raise; [apply paired_nil | auto]. Qed.

Lemma pairs_if {A} (b : bool) (m1 m2 : M (S:=S) A) :
  pairs E m1 -> pairs E m2 -> pairs E (if b then m1 else m2).
Proof. now destruct b. Qed.

Lemma pairs_send e : pairs E (send (S:=S) e).
Proof. intros st. cbn. split; [reflexivity | exact I]. Qed.

Lemma pairs_perform {A} c (f : nat -> A) :
  quiet_call c -> pairs E (perform (S:=S) c f).
Proof.
  intros H st. cbn. split; [|exact I].
  apply paired_quiet. now repeat constructor.
Qed.

Lemma pairs_frame {A} (m : M (S:=S) A) (C : call -> Prop) Q :
  (forall c, C c -> quiet_call c) ->
  (forall st, post m st (fun r st' tr => Forall C (called tr) /\ Q r st st' tr)) ->
  pairs E m.
Proof.
  intros HC Hm st. eapply post_conseq; [apply Hm|]. cbn beta.
  intros r st' tr [H _]. split; [|exact I].
  apply paired_quiet. eapply Forall_impl; [exact HC | exact H].
Qed.

Lemma speak_pairs sentence : pairs E (speak E sentence).
Proof.
  intros st. unfold speak. wp.
  destruct (truthy (clean_for_speech E sentence)) eqn:T; wp.
  - unfold synthesize. wp.
    assert (Hq : emits (S:=S) (fun _ => True) (fun _ => False)
      (for_stream (tts_synthesize_stream E (Datatypes.S (tick st))
                     (clean_for_speech E sentence))
         (fun audio_chunk =>
            bind (of_result (_resample_pcm16 audio_chunk 24000
                               (tts_output_sample_rate E)))
              (fun out_chunk =>
                 send (AudioChunk (b64encode out_chunk)
                                  (tts_output_sample_rate E)))))).
    { unfold for_stream. emits_auto. }
    eapply post_conseq; [apply Hq|]. cbn beta.
    intros r st' tr [[_ Hc] _]. split; [|exact I].
    assert (Hn : Forall quiet_call (called tr))
      by (eapply Forall_impl; [|exact Hc]; contradiction).
    destruct (quiet_trace Hn) as [Hb Hs].
    unfold paired. cbn [app]. 
    change (begun (Call (CleanForSpeech sentence)
                     :: Call (SynthesizeStream (clean_for_speech E sentence))
                     :: tr))
      with (clean_for_speech E sentence :: begun tr).
    change (spoken (Call (CleanForSpeech sentence)
                      :: Call (SynthesizeStream (clean_for_speech E sentence))
                      :: tr))
      with (sentence :: spoken tr).
    rewrite Hb, Hs. cbn [map filter]. now rewrite T.
  - split; [|exact I]. unfold paired. cbn. now rewrite T.
Qed.

Lemma sentence_loop_pairs fuel : forall buf,
  pairs E (sentence_loop E fuel buf).
Proof.
  induction fuel as [|fuel IH]; intros buf; simpl.
  - apply pairs_ret.
  - destruct (next_sentence buf) as [[s r]|]; [|apply pairs_ret].
    apply pairs_bind; [|intros _; apply IH].
    apply pairs_if; [apply speak_pairs | apply pairs_ret].
Qed.

Lemma on_chunks_pairs chunks : forall vars,
  pairs E (on_chunks E vars chunks).
Proof.
  induction chunks as [|c chunks IH]; intros vars; simpl.
  - apply pairs_ret.
  - apply pairs_bind; [|intros ?; apply IH].
    unfold on_chunk.
    apply pairs_bind; [apply pairs_send | intros _].
    apply pairs_bind; [apply sentence_loop_pairs | intros ?].
    apply pairs_ret.
Qed.

Lemma respond_pairs t : pairs E (respond E t).
Proof.
  unfold respond.
  apply pairs_bind; [now apply pairs_perform | intros reply].
  apply pairs_bind; [apply on_chunks_pairs | intros vars].
  apply pairs_bind; [apply pairs_if; [apply pairs_raise | apply pairs_ret] |].
  intros _. apply pairs_bind; [|intros _; apply pairs_send].
  apply pairs_if; [apply speak_pairs | apply pairs_ret].
Qed.

Lemma stop_pairs : pairs E (on_stop_listening E).
Proof.
  unfold on_stop_listening.
  apply pairs_bind; [intros st; cbn; split; [reflexivity | exact I] |].
  intros _. apply pairs_bind; [apply pairs_send | intros _].
  apply pairs_bind.
  { apply (@pairs_frame _ (resolve_transcript E) resolve_call
             (fun r st st' tr => sent tr = [] /\ audio_buffer st' = audio_buffer st /\
                is_listening st' = is_listening st /\
                (asr_realtime_session st = None -> asr_realtime_session st' = None))).
    - now intros [].
    - intros st. eapply post_conseq; [apply resolve_frame|]. cbn beta.
      intros r st' tr (H1 & H2 & H3). auto. }
  intros t. apply pairs_bind; [apply pairs_send | intros _].
  apply pairs_bind.
  { apply pairs_if; [apply respond_pairs | apply pairs_send]. }
  intros _. apply pairs_bind; intros; intros st; cbn; split;
    try reflexivity; exact I.
Qed.

End Pairing.

(** ** An [audio] message outside listening *)

(** C6.  While [stop_listening] is handled, synthesis goes sentence after
    sentence.  The synthesis view of the trace (where a synthesis stream
    is opened, which audio chunks are sent) is a sequence of blocks, each
    the opening of one stream followed by chunks of that stream only, in
    their order; every block but the last holds all the chunks of its
    stream, so that no stream is opened before the previous one is
    exhausted; the last block is cut short only when the handler raises
    (synthesis abandoned on error, and with it the turn).  The streams
    are opened for the sentences handed to [clean_for_speech], in their
    order, those with an empty cleaned text left out. *)
Theorem audio_chunks_in_sentence_order
    {S : Type} {RS : RealtimeSession S} (E : collaborators S)
    (st : state S) :
  post (on_stop_listening E) st (fun r _ tr =>
    (exists blocks cut,
       audio_view tr = flat_map block blocks ++ cut /\
       Forall (fully_emitted E) blocks /\
       (cut = []
        \/ (exists e, r = Raise e) /\
           exists b, cut = block b /\ partly_emitted E b)) /\
    begun tr = filter truthy (map (clean_for_speech E) (spoken tr))).
Proof.
  apply post_and.
  - eapply post_conseq; [apply stop_in_sequence|]. cbn beta.
    intros [a|e] st' tr H; cbn in H.
    + destruct H as (blocks & -> & Hb). exists blocks, [].
      rewrite app_nil_r. auto.
    + destruct H as (blocks & cut & -> & Hb & Hc). exists blocks, cut.
      split; [reflexivity|]. split; [exact Hb|].
      destruct Hc as [->|Hc]; [now left | right; eauto].
  - eapply post_conseq; [apply stop_pairs|]. cbn beta.
    intros r st' tr [H _]. exact H.
Qed.

(** C5.  The segmentation loop cuts the buffer right after the earliest
    separator of the whole buffer, as long as there is one that is not the
    end of the buffer; the sentences of a stream are consecutive slices of
    the concatenated text, trimmed, the blank ones dropped, so that no
    character is in two sentences, the order is that of the text and no
    non-whitespace character is lost; what is left at the end of the
    stream is flushed when it is not blank.  The handler hands exactly
    these sentences to [clean_for_speech], in order, and sends the
    concatenated text in [response_complete]; when it raises, it has
    handed over a prefix of them.  The fragments ["Hi"], [" there."],
    [" How are you"], ["?"] give ["Hi there."] while the third fragment is
    processed and ["How are you?"] at the end of the stream. *)
Theorem sentences_in_text_order :
  (forall buf s rest,
     next_sentence buf = Some (s, rest) ->
     exists i, earliest_boundary buf i /\ i + 2 < length buf /\
               s = strip (firstn (i + 2) buf) /\ rest = skipn (i + 2) buf) /\
  (forall buf,
     next_sentence buf = None ->
     (forall i, ~ boundary_at buf i)
     \/ (earliest_boundary buf (length buf - 2) /\ 2 <= length buf)) /\
  (forall buf, next_sentence (snd (drain buf)) = None) /\
  (forall chunks,
     exists slices,
       concat slices = concat chunks /\
       sentences chunks = filter truthy (map strip slices)) /\
  (forall chunks,
     nonspace (concat (sentences chunks)) = nonspace (concat chunks)) /\
  (forall chunks s, In s (sentences chunks) -> s <> [] /\ strip s = s) /\
  (forall buf, truthy (strip buf) = true -> flush buf = [strip buf]) /\
  (forall (S : Type) (RS : RealtimeSession S) (E : collaborators S)
          (t : str) (st : state S),
     post (respond E t) st (fun r _ tr =>
       let reply := items (backend_chat_stream E (tick st) t) in
       exists rest,
         sentences reply = spoken tr ++ rest /\
         match r with
         | Ok _ => rest = [] /\
                   In (Send (ResponseComplete (concat reply))) tr
         | Raise _ => True
         end)) /\
  feed_all [] [py "Hi"; py " there."; py " How are you"; py "?"]
  = ([[]; []; [py "Hi there."]; []], py "How are you?") /\
  flush (py "How are you?") = [py "How are you?"].
Proof.
  split; [intros buf s rest; apply SegmenterFacts.next_sentence_some|].
  split; [intros buf; apply SegmenterFacts.next_sentence_none|].
  split.
  { intros buf. unfold drain.
    destruct (drain_fuel (length buf) buf) as [ss rest] eqn:D.
    exact (SegmenterFacts.drain_fuel_done (le_n _) D). }
  split; [apply SegmenterFacts.sentences_slices|].
  split; [apply SegmenterFacts.sentences_nonspace|].
  split; [intros chunks s; apply SegmenterFacts.sentences_trimmed|].
  split; [intros buf H; unfold flush; now rewrite H|].
  split; [intros S RS E t st; apply respond_spoken|].
  split; vm_compute; reflexivity.
Qed.

(** C10.  An [audio] message that arrives while the connection is not
    listening changes nothing and sends nothing.  The connection is not
    listening when it is accepted and after a [stop_listening], however
    that one ends; and while [is_listening] is false an [audio] message
    leaves the state as it was (audio buffer, session and tick, so no
    collaborator was called), raises nothing and leaves an empty trace. *)
Theorem audio_ignored_when_not_listening
    {S : Type} {RS : RealtimeSession S} (E : collaborators S) :
  is_listening (initial S) = false /\
  (forall st : state S,
     post (on_stop_listening E) st (fun _ st' _ =>
       is_listening st' = false)) /\
  (forall (st : state S) (data : option ndarray),
     is_listening st = false ->
     handle_message E (Audio data) st = (Ok tt, st, [])).
Proof.
  split; [reflexivity|]. split.
  - intros st. eapply post_conseq; [apply stop_shape|]. cbn beta.
    intros r st' tr [H _]. exact H.
  - intros st data H. unfold handle_message, bind, get. simpl.
    now rewrite H.
Qed.

End MainFacts.

(** ** The deployment and worked scenarios *)

Module Scenarios.
Import AliyunSTT Resampler Segmenter Base64 Main Deployment.
Import ResamplerFacts AliyunSTTFacts MainFacts.

(** [startup] never loads the local detector for a provider whose [stt]
    can create realtime sessions. *)
Lemma startup_loads_no_vad_with_realtime p m :
  stt_has_create_session p m = true -> vad_is_loaded p m = false.
Proof. destruct p, m; cbn; congruence. Qed.

Lemma demo_failures_contained realtime local_vad text :
  failures_contained (demo realtime local_vad (Ok text)).
Proof.
  split; [intros k a; now exists text|].
  split; [reflexivity|].
  intros k t. split; [reflexivity|].
  cbn. repeat constructor; eexists; reflexivity.
Defined.




Lemma realtime_transcript_skips_batch_witness :
  post (on_stop_listening (RS:=aliyun_session (engine_hears (py "lights on")))
          (demo true false (Ok (py "hello"))))
       (listening_with_session loud)
       (fun _ _ tr =>
          Forall (fun c => ~ is_transcribe c) (called tr) /\
          exists rest,
            sent tr = ListeningStopped :: Transcript (py "lights on") :: rest).
Proof.
  apply (realtime_transcript_skips_batch
           (RS:=aliyun_session (engine_hears (py "lights on")))
           (demo true false (Ok (py "hello")))
           (s:=started_session)
           (s':=fst (session_stop_and_get_transcript
                       (RealtimeSession:=aliyun_session
                                           (engine_hears (py "lights on")))
                       4 3000 started_session))).
  - reflexivity.
  - vm_compute. reflexivity.
  - vm_compute. reflexivity.
Defined.

Lemma turn_event_order_witness :
  Forall in_turn [Audio (Some loud); Ping; Audio (Some quiet)] /\
  in_phase_order
    (sent (trace_of
       (serve (RS:=aliyun_session (engine_hears (py "lights on")))
          (demo true false (Ok (py "hello")))
          (StartListening :: [Audio (Some loud); Ping; Audio (Some quiet)]
             ++ [StopListening]))
       (initial session))).
Proof.
  assert (H : Forall in_turn [Audio (Some loud); Ping; Audio (Some quiet)])
    by (repeat constructor).
  split; [exact H|].
  exact (proj1 (turn_event_order
                  (RS:=aliyun_session (engine_hears (py "lights on")))
                  (demo true false (Ok (py "hello")))
                  (initial session) H)).
Defined.



Lemma audio_ignored_when_not_listening_witness :
  is_listening (initial session) = false /\
  handle_message (RS:=aliyun_session engine_silent)
    (demo true false (Ok (py "hello"))) (Audio (Some loud))
    (initial session)
  = (Ok tt, initial session, []).
Proof.
  split; [reflexivity|].
  apply (proj2 (proj2 (audio_ignored_when_not_listening
                         (RS:=aliyun_session engine_silent)
                         (demo true false (Ok (py "hello")))))).
  reflexivity.
Defined.

Lemma sentences_in_text_order_witness :
  next_sentence (py "Hi there. How are you")
  = Some (py "Hi there.", py "How are you") /\
  exists i,
    earliest_boundary (py "Hi there. How are you") i /\
    i + 2 < length (py "Hi there. How are you") /\
    py "Hi there." = strip (firstn (i + 2) (py "Hi there. How are you")) /\
    py "How are you" = skipn (i + 2) (py "Hi there. How are you").
Proof.
  assert (H : next_sentence (py "Hi there. How are you")
              = Some (py "Hi there.", py "How are you"))
    by (vm_compute; reflexivity).
  split; [exact H|].
  exact (proj1 sentences_in_text_order _ _ _ H).
Defined.


End Scenarios.

(** ** Strings, optional strings and dictionaries *)

Module PyDataFacts.
Import PyData.

Lemma str_eqb_refl (a : str) : str_eqb a a = true.
Proof. induction a as [|x a IH]; cbn; [reflexivity|]. now rewrite N.eqb_refl. Qed.

Lemma str_eqb_eq (a b : str) : str_eqb a b = true <-> a = b.
Proof.
  split; [|intros ->; apply str_eqb_refl].
  revert b. induction a as [|x a IH]; intros [|y b]; cbn; try discriminate; auto.
  intros H. apply andb_prop in H as [H1 H2].
  apply N.eqb_eq in H1. apply IH in H2. congruence.
Qed.

Lemma str_eqb_neq (a b : str) : a <> b -> str_eqb a b = false.
Proof.
  intros H. destruct (str_eqb a b) eqn:E; [|reflexivity].
  apply str_eqb_eq in E. contradiction.
Qed.

Lemma dict_get_set_same V (d : dict V) k v : dict_get (dict_set d k v) k = Some v.
Proof.
  induction d as [|[k' v'] d IH]; cbn.
  - now rewrite str_eqb_refl.
  - destruct (str_eqb k' k) eqn:E; cbn; rewrite E; auto.
Qed.

Lemma dict_get_set_other V (d : dict V) k v k' :
  k <> k' -> dict_get (dict_set d k v) k' = dict_get d k'.
Proof.
  intros Hne. induction d as [|[k0 v0] d IH]; cbn.
  - now rewrite str_eqb_neq.
  - destruct (str_eqb k0 k) eqn:E; cbn.
    + apply str_eqb_eq in E. subst k0. now rewrite str_eqb_neq.
    + destruct (str_eqb k0 k'); auto.
Qed.

Lemma starts_with_app (p s : str) : starts_with p (p ++ s) = true.
Proof. induction p as [|c p IH]; cbn; [reflexivity|]. now rewrite N.eqb_refl. Qed.

End PyDataFacts.

(** ** API keys *)

Module AuthFacts.
Import PyData PyDataFacts Auth.

Lemma nth_error_update h : forall r r' f,
  nth_error (update h r f) r'
  = if r =? r' then option_map f (nth_error h r') else nth_error h r'.
Proof.
  induction h as [|k h IH]; intros r r' f.
  - destruct r, r'; cbn; try reflexivity; destruct (_ =? _); reflexivity.
  - destruct r, r'; cbn; auto.
Qed.

Lemma deref_assign st r f r' :
  deref (assign st r f) r'
  = if r =? r' then option_map f (deref st r') else deref st r'.
Proof. apply nth_error_update. Qed.

Lemma deref_new (h : list APIKey) k : nth_error (h ++ [k]) (length h) = Some k.
Proof. rewrite nth_error_app2, Nat.sub_diag by lia. reflexivity. Qed.

Lemma deref_old (h : list APIKey) k r x :
  nth_error h r = Some x -> nth_error (h ++ [k]) r = Some x.
Proof.
  intros H. rewrite nth_error_app1; [exact H|].
  apply nth_error_Some. congruence.
Qed.

Section Facts.
Variable _hash_key : str -> str.

Lemma generate_key_validate (st : store) (rand_id rand_token : str)
    (now : datetime) (name0 tier0 : str) (rate_limit : Z)
    (monthly : option Z) :
  rand_id <> [] ->
  validate_key _hash_key
    (snd (generate_key _hash_key st rand_id rand_token now name0 tier0
            rate_limit monthly))
    (py "ocv_" ++ rand_token)
  = Some (length (heap st)).
Proof.
  intros Hid. unfold generate_key, validate_key.
  cbn [snd _key_to_id _keys heap].
  change (truthy (py "ocv_" ++ rand_token)) with true.
  rewrite starts_with_app. cbn [negb orb].
  rewrite dict_get_set_same.
  destruct rand_id as [|c rid]; [congruence|]. cbn [truthy negb].
  rewrite dict_get_set_same. unfold deref. cbn [heap].
  rewrite deref_new. reflexivity.
Qed.

(** X1.  A key that [generate_key] has just made validates: for every store,
    when the random key id is not empty, [validate_key] on the plaintext key
    returns the object [generate_key] returned, and that object is active
    and carries the name, the tier and the limits asked for, with no usage
    yet. *)
Theorem generated_key_validates (st : store) (rand_id rand_token : str)
    (now : datetime) (name0 tier0 : str) (rate_limit : Z)
    (monthly : option Z) :
  rand_id <> [] ->
  let '(plaintext_key, r, st') :=
    generate_key _hash_key st rand_id rand_token now name0 tier0
      rate_limit monthly in
  plaintext_key = py "ocv_" ++ rand_token /\
  validate_key _hash_key st' plaintext_key = Some r /\
  exists k,
    deref st' r = Some k /\ active k = true /\
    key_id k = rand_id /\ name k = name0 /\ tier k = tier0 /\
    rate_limit_per_minute k = rate_limit /\
    monthly_minutes k = monthly /\
    request_count_this_minute k = 0%Z /\ last_request_at k = None /\
    minutes_used k = 0%Q.
Proof.
  intros Hid.
  pose proof (@generate_key_validate st rand_id rand_token now name0 tier0
                rate_limit monthly Hid) as Hv.
  unfold generate_key in *. cbn [snd] in Hv.
  split; [reflexivity|]. split; [exact Hv|].
  eexists. split.
  - unfold deref. cbn [heap]. apply deref_new.
  - repeat split.
Qed.

(** X2.  A master key from the environment works as an API key exactly when
    it starts with [ocv_]: after [load_keys_from_env] has registered a
    non-empty master key, [validate_key] on it returns the enterprise object
    with every feature on when the key has the prefix, and [None] when it
    has not. *)
Theorem master_key_needs_prefix (st : store) (master_key : str)
    (now : datetime) :
  master_key <> [] ->
  let st' := load_keys_from_env _hash_key st (Some master_key) now in
  if starts_with (py "ocv_") master_key
  then exists r k,
         validate_key _hash_key st' master_key = Some r /\
         deref st' r = Some k /\
         key_id k = py "master" /\ tier k = py "enterprise" /\
         features k = master_features /\ monthly_minutes k = None /\
         rate_limit_per_minute k = 1000%Z /\ active k = true
  else validate_key _hash_key st' master_key = None.
Proof.
  intros Hne. destruct master_key as [|c mk]; [congruence|].
  cbn zeta. unfold load_keys_from_env. cbn [truthy].
  set (key := c :: mk).
  destruct (starts_with (py "ocv_") key) eqn:Hp.
  - eexists _, _. split; [|split].
    + unfold validate_key.
      cbn [_key_to_id _keys heap]. rewrite Hp.
      change (truthy key) with true. cbn [negb orb].
      rewrite dict_get_set_same.
      change (truthy (py "master")) with true. cbn [negb].
      rewrite dict_get_set_same. unfold deref. cbn [heap].
      rewrite deref_new. reflexivity.
    + unfold deref. cbn [heap]. apply deref_new.
    + repeat split.
  - unfold validate_key. rewrite Hp. cbn [negb orb].
    now rewrite orb_true_r.
Qed.

Lemma validate_key_assign (st : store) (r : ref) (f : APIKey -> APIKey)
    (p : str) :
  (forall k, active (f k) = active k) ->
  validate_key _hash_key (assign st r f) p = validate_key _hash_key st p.
Proof.
  intros Hf. unfold validate_key. cbn [assign _key_to_id _keys].
  destruct (negb (truthy p) || negb (starts_with (py "ocv_") p));
    [reflexivity|].
  destruct (dict_get (_key_to_id st) (_hash_key p)) as [kid|];
    [|reflexivity].
  destruct (negb (truthy kid)); [reflexivity|].
  destruct (dict_get (_keys st) kid) as [r'|]; [|reflexivity].
  rewrite deref_assign. destruct (r =? r'); [|reflexivity].
  destruct (deref st r') as [k|]; cbn [option_map]; [|reflexivity].
  now rewrite Hf.
Qed.

Lemma validate_key_revoked (st : store) (r : ref) (p : str) :
  validate_key _hash_key (assign st r (with_active false)) p
  = match validate_key _hash_key st p with
    | Some r' => if r' =? r then None else Some r'
    | None => None
    end.
Proof.
  unfold validate_key. cbn [assign _key_to_id _keys].
  destruct (negb (truthy p) || negb (starts_with (py "ocv_") p));
    [reflexivity|].
  destruct (dict_get (_key_to_id st) (_hash_key p)) as [kid|];
    [|reflexivity].
  destruct (negb (truthy kid)); [reflexivity|].
  destruct (dict_get (_keys st) kid) as [r'|]; [|reflexivity].
  rewrite deref_assign. rewrite (Nat.eqb_sym r r').
  destruct (r' =? r) eqn:E.
  - destruct (deref st r') as [k|]; cbn [option_map with_active active];
      [|reflexivity].
    destruct (active k); [|reflexivity]. now rewrite E.
  - destruct (deref st r') as [k|]; [|reflexivity].
    destruct (active k); [|reflexivity]. now rewrite E.
Qed.

Lemma validate_key_deref (st : store) (p : str) (r : ref) :
  validate_key _hash_key st p = Some r ->
  p <> [] /\ exists k, deref st r = Some k /\ active k = true.
Proof.
  unfold validate_key. destruct p as [|c p]; [discriminate|].
  intros H. split; [discriminate|].
  destruct (negb (truthy (c :: p)) || negb (starts_with (py "ocv_") (c :: p)));
    [discriminate|].
  destruct (dict_get (_key_to_id st) (_hash_key (c :: p))) as [kid|];
    [|discriminate].
  destruct (negb (truthy kid)); [discriminate|].
  destruct (dict_get (_keys st) kid) as [r'|]; [|discriminate].
  destruct (deref st r') as [k|] eqn:D; [|discriminate].
  destruct (active k) eqn:A; [|discriminate].
  injection H as <-. eauto.
Qed.

(** X3.  Revocation. [revoke_key] on an id the manager does not have answers
    [False] and changes nothing. On an id it has, it answers [True], and
    from then on [validate_key] never returns the object stored under that
    id, whatever plaintext it is given, while every other key validates as
    before. *)
Theorem revoke_key_refuses_the_key (st : store) (id : str) :
  (dict_get (_keys st) id = None -> revoke_key st id = (false, st)) /\
  (forall r, dict_get (_keys st) id = Some r ->
     exists st',
       revoke_key st id = (true, st') /\
       forall p,
         validate_key _hash_key st' p
         = match validate_key _hash_key st p with
           | Some r' => if r' =? r then None else Some r'
           | None => None
           end).
Proof.
  unfold revoke_key. split.
  - intros ->. reflexivity.
  - intros r ->. eexists. split; [reflexivity|].
    intros p. apply validate_key_revoked.
Qed.

Lemma same_key_refl k : same_key k k.
Proof. repeat split. Qed.

Lemma same_key_trans a b c : same_key a b -> same_key b c -> same_key a c.
Proof.
  unfold same_key. intros (A1 & A2 & A3 & A4 & A5 & A6 & A7 & A8)
    (B1 & B2 & B3 & B4 & B5 & B6 & B7 & B8).
  repeat split; congruence.
Qed.

Lemma rate_check_same k now :
  same_key k (snd (rate_check k now)) /\
  active (snd (rate_check k now)) = active k /\
  minutes_used (snd (rate_check k now)) = minutes_used k.
Proof.
  unfold rate_check.
  destruct (last_request_at k) as [l|];
    [destruct (minute <=? now - l)%Z|];
    match goal with |- context [if ?c then _ else _] => destruct c end;
    cbn; repeat split.
Qed.

Lemma step_keeps st q r k :
  deref st r = Some k ->
  exists k', deref (step _hash_key st q) r = Some k' /\
             same_key k k' /\ (active k = false -> active k' = false).
Proof.
  intros Hk. destruct q as [rid tok now nm tr rl mm | r0 now | r0 m | id | mk now];
    cbn [step].
  - unfold generate_key, deref. cbn [snd heap].
    exists k. split; [now apply deref_old|]. split; [apply same_key_refl|auto].
  - unfold check_rate_limit. destruct (deref st r0) as [k0|] eqn:E0; cbn [snd].
    + rewrite deref_assign. destruct (r0 =? r) eqn:E.
      * apply Nat.eqb_eq in E. subst r0. rewrite Hk. cbn [option_map].
        eexists. split; [reflexivity|].
        destruct (rate_check_same k now) as (H1 & H2 & _).
        split; [exact H1|]. now rewrite H2.
      * exists k. split; [exact Hk|]. split; [apply same_key_refl|auto].
    + exists k. split; [exact Hk|]. split; [apply same_key_refl|auto].
  - unfold record_usage. rewrite deref_assign. destruct (r0 =? r).
    + rewrite Hk. cbn [option_map]. eexists. split; [reflexivity|].
      split; [repeat split | auto].
    + exists k. split; [exact Hk|]. split; [apply same_key_refl|auto].
  - unfold revoke_key. destruct (dict_get (_keys st) id) as [r0|]; cbn [snd].
    + rewrite deref_assign. destruct (r0 =? r).
      * rewrite Hk. cbn [option_map]. eexists. split; [reflexivity|].
        split; [repeat split | auto].
      * exists k. split; [exact Hk|]. split; [apply same_key_refl|auto].
    + exists k. split; [exact Hk|]. split; [apply same_key_refl|auto].
  - unfold load_keys_from_env. destruct mk as [mk|].
    + destruct (truthy mk).
      * unfold deref. cbn [heap]. exists k.
        split; [now apply deref_old|]. split; [apply same_key_refl|auto].
      * exists k. split; [exact Hk|]. split; [apply same_key_refl|auto].
    + exists k. split; [exact Hk|]. split; [apply same_key_refl|auto].
Qed.


Lemma check_rate_limit_deref st r k now :
  deref st r = Some k ->
  check_rate_limit st r now
  = (fst (rate_check k now), assign st r (fun k => snd (rate_check k now)))
  /\ deref (assign st r (fun k => snd (rate_check k now))) r
     = Some (snd (rate_check k now)).
Proof.
  intros Hk. unfold check_rate_limit. rewrite Hk. split; [reflexivity|].
  rewrite deref_assign, Nat.eqb_refl, Hk. reflexivity.
Qed.

Lemma burst_from (times : list datetime) : forall st r k,
  deref st r = Some k ->
  (forall l t, last_request_at k = Some l -> In t times ->
               (t - l < minute)%Z) ->
  (forall t t', In t times -> In t' times -> (t - t' < minute)%Z) ->
  let room := Z.to_nat (rate_limit_per_minute k
                        - request_count_this_minute k) in
  fst (check_rate_limits st r times)
  = repeat true (Nat.min (length times) room)
    ++ repeat false (length times - room).
Proof.
  induction times as [|now times IH]; intros st r k Hk Hl Hw room.
  - reflexivity.
  - cbn [check_rate_limits].
    destruct (check_rate_limit_deref now Hk) as [-> Hk1].
    set (st1 := assign st r _) in *.
    assert (Hk0 : (match last_request_at k with
                   | Some last =>
                       if (minute <=? now - last)%Z
                       then with_request_count 0 k else k
                   | None => k
                   end) = k).
    { destruct (last_request_at k) as [l|] eqn:El; [|reflexivity].
      specialize (Hl l now eq_refl (or_introl eq_refl)).
      destruct (minute <=? now - l)%Z eqn:C; [|reflexivity].
      apply Z.leb_le in C. lia. }
    specialize (IH st1 r (snd (rate_check k now)) Hk1).
    destruct (check_rate_limits st1 r times) as [oks st2].
    cbn [fst] in *. unfold rate_check in *. rewrite Hk0 in *.
    destruct (rate_limit_per_minute k <=? request_count_this_minute k)%Z
      eqn:C; cbn [fst snd] in *.
    + apply Z.leb_le in C.
      assert (R : room = 0) by (subst room; lia).
      rewrite IH; auto.
      * replace (Z.to_nat (rate_limit_per_minute k
                           - request_count_this_minute k)) with 0 by lia.
        rewrite R. cbn [Nat.min length]. rewrite !Nat.sub_0_r.
        rewrite Nat.min_0_r. reflexivity.
      * intros l t E I. apply (Hl l t E). now right.
      * intros t t' I I'. apply Hw; now right.
    + apply Z.leb_gt in C. cbn [rate_limit_per_minute request_count_this_minute
        with_last_request_at with_request_count last_request_at] in IH.
      rewrite IH.
      * assert (R : room = S (Z.to_nat (rate_limit_per_minute k
                            - (request_count_this_minute k + 1))))
          by (subst room; lia).
        rewrite R. cbn [length Nat.min Nat.sub repeat app]. reflexivity.
      * intros l t E I. injection E as <-. apply Hw; [now right | now left].
      * intros t t' I I'. apply Hw; now right.
Qed.

(** X5.  The rate limit caps a burst. For a key that has made no request yet
    (as [generate_key] leaves it) and has a limit of [n] requests a minute
    (none when the limit is negative), when [check_rate_limit] is called at
    times that are all less than a minute from one another, the first [n]
    calls answer [True] and every later call answers [False]. *)
Theorem rate_limit_caps_a_burst (st : store) (r : ref) (k : APIKey)
    (times : list datetime) :
  deref st r = Some k ->
  last_request_at k = None ->
  request_count_this_minute k = 0%Z ->
  (forall t t', In t times -> In t' times -> (t - t' < minute)%Z) ->
  let n := Z.to_nat (rate_limit_per_minute k) in
  fst (check_rate_limits st r times)
  = repeat true (Nat.min (length times) n)
    ++ repeat false (length times - n).
Proof.
  intros Hk Hl Hc Hw.
  pose proof (@burst_from times st r k Hk) as H. cbn zeta in H.
  rewrite Hc, Z.sub_0_r in H. apply H; auto.
  intros l t E. congruence.
Qed.

(** X6.  A key that has used up its limit is blocked until a minute has
    passed since its last granted request, and no longer: however often
    [check_rate_limit] is called before that, every call answers [False] (a
    refused request does not restart the minute), and the first call at or
    after the minute answers [True]. *)
Theorem rate_limit_reopens_after_a_minute (st : store) (r : ref)
    (k : APIKey) (last now : datetime) (times : list datetime) :
  deref st r = Some k ->
  last_request_at k = Some last ->
  (0 < rate_limit_per_minute k <= request_count_this_minute k)%Z ->
  (forall t, In t times -> (t - last < minute)%Z) ->
  (minute <= now - last)%Z ->
  fst (check_rate_limits st r (times ++ [now]))
  = repeat false (length times) ++ [true].
Proof.
  revert st. induction times as [|t times IH]; intros st Hk Hl Hc Hw Hn.
  - cbn [app check_rate_limits].
    destruct (check_rate_limit_deref now Hk) as [-> _]. cbn [fst length repeat app].
    unfold rate_check. rewrite Hl.
    destruct (minute <=? now - last)%Z eqn:C; [|apply Z.leb_gt in C; lia].
    cbn [rate_limit_per_minute request_count_this_minute with_request_count].
    destruct (rate_limit_per_minute k <=? 0)%Z eqn:D;
      [apply Z.leb_le in D; lia|]. reflexivity.
  - cbn [app check_rate_limits].
    destruct (check_rate_limit_deref t Hk) as [-> Hk1].
    set (st1 := assign st r _) in *.
    assert (E : rate_check k t = (false, k)).
    { unfold rate_check. rewrite Hl.
      pose proof (Hw t (or_introl eq_refl)).
      destruct (minute <=? t - last)%Z eqn:C; [apply Z.leb_le in C; lia|].
      destruct (rate_limit_per_minute k <=? request_count_this_minute k)%Z
        eqn:D; [reflexivity | apply Z.leb_gt in D; lia]. }
    rewrite E in Hk1. cbn [snd] in Hk1.
    specialize (IH st1 Hk1 Hl Hc).
    destruct (check_rate_limits st1 r (times ++ [now])) as [oks st2].
    cbn [fst] in *. rewrite E. cbn [fst length repeat app]. f_equal.
    apply IH; auto. intros t' I. apply Hw. now right.
Qed.

Lemma dict_in_get V (d : dict V) k :
  dict_in d k = false -> dict_get d k = None.
Proof. unfold dict_in. now destruct (dict_get d k). Qed.

Lemma consistent_fresh st id r k0 h :
  hash_consistent st ->
  dict_in (_keys st) id = false ->
  r = length (heap st) ->
  key_hash k0 = h ->
  hash_consistent
    {| heap := heap st ++ [k0];
       _keys := dict_set (_keys st) id r;
       _key_to_id := dict_set (_key_to_id st) h id |}.
Proof.
  intros Hc Hf -> Hh h' id' Hg. cbn [_key_to_id _keys] in *.
  unfold deref. cbn [heap].
  destruct (list_eq_dec N.eq_dec h h') as [<-|Hne].
  - rewrite dict_get_set_same in Hg. injection Hg as <-.
    exists (length (heap st)), k0. rewrite dict_get_set_same, deref_new.
    auto.
  - rewrite dict_get_set_other in Hg by exact Hne.
    destruct (Hc _ _ Hg) as (r & k & H1 & H2 & H3).
    exists r, k. split; [|split; [now apply deref_old | exact H3]].
    rewrite dict_get_set_other; [exact H1|].
    intros <-. apply dict_in_get in Hf. congruence.
Qed.

Lemma consistent_assign st r f :
  (forall k, key_hash (f k) = key_hash k) ->
  hash_consistent st -> hash_consistent (assign st r f).
Proof.
  intros Hf Hc h id Hg. cbn [assign _key_to_id _keys] in *.
  destruct (Hc _ _ Hg) as (r' & k & H1 & H2 & H3).
  exists r'. rewrite deref_assign, H2. destruct (r =? r').
  - exists (f k). cbn [option_map]. rewrite Hf. auto.
  - exists k. auto.
Qed.

Lemma step_consistent st q :
  hash_consistent st -> fresh_id st q ->
  hash_consistent (step _hash_key st q).
Proof.
  intros Hc Hf.
  destruct q as [rid tok now nm tr rl mm | r0 now | r0 m | id | mk now];
    cbn [step fresh_id] in *.
  - unfold generate_key. cbn [snd]. now apply consistent_fresh.
  - unfold check_rate_limit. destruct (deref st r0); cbn [snd]; [|exact Hc].
    apply consistent_assign; [|exact Hc].
    intros k. apply (rate_check_same k now).
  - apply consistent_assign; [|exact Hc]. reflexivity.
  - unfold revoke_key. destruct (dict_get (_keys st) id); cbn [snd];
      [|exact Hc].
    apply consistent_assign; [|exact Hc]. reflexivity.
  - unfold load_keys_from_env. destruct mk as [mk|]; [|exact Hc].
    destruct (truthy mk); [|exact Hc]. now apply consistent_fresh.
Qed.

Lemma run_consistent qs : forall st,
  hash_consistent st -> fresh_ids _hash_key st qs ->
  hash_consistent (run _hash_key st qs).
Proof.
  induction qs as [|q qs IH]; intros st Hc Hf; [exact Hc|].
  destruct Hf as [H1 H2]. apply IH; [|exact H2].
  now apply step_consistent.
Qed.

(** X7.  [validate_key] is sound. In a token manager that started empty and
    never met a key id twice (no generated id was already in use, the master
    key was loaded at most once), [validate_key] returns an object only for
    a plaintext that starts with [ocv_] and whose hash is the hash stored in
    that object, and only while the object is active. *)
Theorem validate_key_sound (qs : list request) (p : str) (r : ref) :
  fresh_ids _hash_key empty_store qs ->
  let st := run _hash_key empty_store qs in
  validate_key _hash_key st p = Some r ->
  starts_with (py "ocv_") p = true /\
  exists k, deref st r = Some k /\ active k = true /\
            key_hash k = _hash_key p.
Proof.
  intros Hf st Hv.
  assert (Hc : hash_consistent st).
  { apply run_consistent; [|exact Hf]. intros h id H. discriminate. }
  unfold validate_key in Hv.
  destruct (starts_with (py "ocv_") p); [|now rewrite orb_true_r in Hv].
  split; [reflexivity|].
  destruct (negb (truthy p) || negb true); [discriminate|].
  destruct (dict_get (_key_to_id st) (_hash_key p)) as [id|] eqn:Hid;
    [|discriminate].
  destruct (negb (truthy id)); [discriminate|].
  destruct (Hc _ _ Hid) as (r' & k & H1 & H2 & H3).
  rewrite H1, H2 in Hv. destruct (active k) eqn:A; [|discriminate].
  injection Hv as <-. eauto.
Qed.

End Facts.

Lemma generated_key_validates_witness :
  py "00ff" <> [] /\
  let '(plaintext_key, r, st') :=
    generate_key toy_hash empty_store (py "00ff") (py "abc") 0%Z
      (py "app") (py "free") 2%Z (Some 60%Z) in
  plaintext_key = py "ocv_" ++ py "abc" /\
  validate_key toy_hash st' plaintext_key = Some r /\
  exists k,
    deref st' r = Some k /\ active k = true /\
    key_id k = py "00ff" /\ name k = py "app" /\ tier k = py "free" /\
    rate_limit_per_minute k = 2%Z /\
    monthly_minutes k = Some 60%Z /\
    request_count_this_minute k = 0%Z /\ last_request_at k = None /\
    minutes_used k = 0%Q.
Proof.
  split; [discriminate|].
  apply (@generated_key_validates toy_hash empty_store (py "00ff")
           (py "abc") 0%Z (py "app") (py "free") 2%Z (Some 60%Z)).
  discriminate.
Defined.

Lemma master_key_needs_prefix_witness :
  (exists r k,
     validate_key toy_hash
       (load_keys_from_env toy_hash empty_store
          (Some (py "ocv_master_k")) 0%Z) (py "ocv_master_k") = Some r /\
     deref (load_keys_from_env toy_hash empty_store
              (Some (py "ocv_master_k")) 0%Z) r = Some k /\
     key_id k = py "master" /\ tier k = py "enterprise" /\
     features k = master_features /\ monthly_minutes k = None /\
     rate_limit_per_minute k = 1000%Z /\ active k = true) /\
  validate_key toy_hash
    (load_keys_from_env toy_hash empty_store (Some (py "master_k")) 0%Z)
    (py "master_k") = None.
Proof.
  split.
  - apply (@master_key_needs_prefix toy_hash empty_store
             (py "ocv_master_k") 0%Z). discriminate.
  - apply (@master_key_needs_prefix toy_hash empty_store
             (py "master_k") 0%Z). discriminate.
Defined.

Lemma revoke_key_refuses_the_key_witness :
  dict_get (_keys demo_store) (py "00ff") = Some 0 /\
  validate_key toy_hash demo_store (py "ocv_abc") = Some 0 /\
  exists st',
    revoke_key demo_store (py "00ff") = (true, st') /\
    forall p,
      validate_key toy_hash st' p
      = match validate_key toy_hash demo_store p with
        | Some r' => if r' =? 0 then None else Some r'
        | None => None
        end.
Proof.
  split; [reflexivity|]. split; [reflexivity|].
  apply (proj2 (@revoke_key_refuses_the_key toy_hash demo_store
                  (py "00ff"))).
  reflexivity.
Defined.


Lemma rate_limit_caps_a_burst_witness :
  fst (check_rate_limits demo_store 0 [0; 1000; 2000; 59000000]%Z)
  = [true; true; false; false].
Proof.
  apply (@rate_limit_caps_a_burst demo_store 0 demo_key
           [0; 1000; 2000; 59000000]%Z).
  - reflexivity.
  - reflexivity.
  - reflexivity.
  - intros t t' H H'. cbn in H, H'. unfold minute.
    repeat (destruct H as [<-|H]; [|]);
      repeat (destruct H' as [<-|H']; [|]); try contradiction; lia.
Defined.

Lemma rate_limit_reopens_after_a_minute_witness :
  fst (check_rate_limits
         (snd (check_rate_limits demo_store 0 [0; 1000]%Z)) 0
         ([2000; 59000000] ++ [60001000])%Z)
  = [false; false; true].
Proof.
  apply (@rate_limit_reopens_after_a_minute
           (snd (check_rate_limits demo_store 0 [0; 1000]%Z)) 0
           (with_last_request_at 1000%Z (with_request_count 2%Z demo_key))
           1000%Z 60001000%Z [2000; 59000000]%Z).
  - reflexivity.
  - reflexivity.
  - cbn. lia.
  - intros t H. cbn in H. unfold minute.
    repeat (destruct H as [<-|H]; [|]); try contradiction; lia.
  - unfold minute. lia.
Defined.

Lemma validate_key_sound_witness :
  fresh_ids toy_hash empty_store
    [GenerateKey (py "00ff") (py "abc") 0%Z (py "app") (py "free") 2%Z
       (Some 60%Z)] /\
  validate_key toy_hash demo_store (py "ocv_abc") = Some 0 /\
  starts_with (py "ocv_") (py "ocv_abc") = true /\
  exists k, deref demo_store 0 = Some k /\ active k = true /\
            key_hash k = toy_hash (py "ocv_abc").
Proof.
  assert (F : fresh_ids toy_hash empty_store
                [GenerateKey (py "00ff") (py "abc") 0%Z (py "app")
                   (py "free") 2%Z (Some 60%Z)])
    by (split; [reflexivity | exact I]).
  split; [exact F|]. split; [reflexivity|].
  apply (@validate_key_sound toy_hash _ (py "ocv_abc") 0 F).
  reflexivity.
Defined.

End AuthFacts.

(** ** Key management and admission *)

Module ApiFacts.
Import PyData PyDataFacts Auth AuthFacts Api.

Section Facts.
Variable _hash_key : str -> str.
Variable settings : Settings.

Lemma master_key_error_none (st : store) (given : option str) :
  master_key_error _hash_key settings st given = None <->
  require_auth settings = false \/ has_authority _hash_key settings st given.
Proof.
  unfold master_key_error, has_authority. cbn zeta.
  destruct (require_auth settings); [|split; auto].
  split.
  - intros H. right.
    destruct (negb (opt_truthy given) && negb (opt_truthy (master_key settings)))
      eqn:C; [discriminate|].
    destruct (master_key settings) as [m|] eqn:M.
    + destruct (str_eqb (or_empty given) m) eqn:E; cbn [negb] in H.
      * apply str_eqb_eq in E. subst m. left. split; [|reflexivity].
        intros Z. rewrite Z in *.
        destruct given as [[|c g]|]; cbn in C, Z; congruence.
      * right.
        destruct (validate_key _hash_key st (or_empty given)) as [r|] eqn:V;
          [|discriminate].
        destruct (deref st r) as [key|] eqn:D; [|discriminate].
        destruct (str_eqb (tier key) (py "enterprise")) eqn:T;
          [|discriminate].
        apply str_eqb_eq in T. exists r, key. auto.
    + right.
      destruct (validate_key _hash_key st (or_empty given)) as [r|] eqn:V;
        [|discriminate].
      destruct (deref st r) as [key|] eqn:D; [|discriminate].
      destruct (str_eqb (tier key) (py "enterprise")) eqn:T;
        [|discriminate].
      apply str_eqb_eq in T. exists r, key. auto.
  - intros [H|H]; [discriminate|].
    destruct H as [[Hne Hm] | (r & key & Hv & Hd & Ht)].
    + rewrite Hm.
      assert (T : opt_truthy given = true).
      { destruct given as [[|c g]|]; cbn in *; congruence. }
      rewrite T. cbn [negb andb]. now rewrite str_eqb_refl.
    + destruct (validate_key_deref Hv) as [Hne _].
      assert (T : opt_truthy given = true).
      { destruct given as [[|c g]|]; cbn in *; congruence. }
      rewrite T. cbn [negb andb]. rewrite Hv, Hd, Ht.
      rewrite str_eqb_refl. cbn [negb].
      destruct (master_key settings) as [m|]; [|reflexivity].
      destruct (negb (str_eqb (or_empty given) m)); reflexivity.
Qed.

(** X8.  Who may create keys. [create_api_key] makes a key exactly when the
    tier is one of [PRICING_TIERS] and, with [require_auth] on, the caller
    has authority: the key it gives is not empty and is the configured
    master key, or validates to an enterprise key. The new key gets the rate
    limit and the monthly minutes of its tier. When the answer is an error
    the token manager is left as it was. *)
Theorem create_api_key_requires_authority (st : store)
    (rand_id rand_token : str) (now : datetime) (name0 tier0 : str)
    (given : option str) :
  let '(response, st') :=
    create_api_key _hash_key settings st rand_id rand_token now name0
      tier0 given in
  let allowed :=
    (require_auth settings = false
     \/ has_authority _hash_key settings st given)
    /\ dict_in PRICING_TIERS tier0 = true in
  match response with
  | KeyError _ => st' = st /\ ~ allowed
  | KeyCreated api_key id name1 tier1 monthly rate_limit =>
      allowed /\
      api_key = py "ocv_" ++ rand_token /\ id = rand_id /\
      name1 = name0 /\ tier1 = tier0 /\
      (exists c, dict_get PRICING_TIERS tier0 = Some c /\
                 monthly = tier_monthly_minutes c /\
                 rate_limit = tier_rate_limit c) /\
      st' = snd (generate_key _hash_key st rand_id rand_token now name0
                   tier0 rate_limit monthly)
  end.
Proof.
  unfold create_api_key.
  pose proof (master_key_error_none st given) as Hm.
  destruct (master_key_error _hash_key settings st given) as [e|].
  - split; [reflexivity|]. intros [Ha _].
    apply Hm in Ha. discriminate.
  - unfold dict_in.
    destruct (dict_get PRICING_TIERS tier0) as [c|] eqn:Ht.
    + unfold generate_key. cbn zeta. split.
      * split; [now apply Hm | reflexivity].
      * repeat split. exists c. auto.
    + split; [reflexivity|]. intros [_ H]. discriminate.
Qed.

(** X9.  An enterprise key is a master key. With [require_auth] on, once
    [create_api_key] has made a key of tier [enterprise] (with a key id that
    is not empty), that key gives authority: [create_api_key] called with it
    makes a key of any tier of [PRICING_TIERS]. *)
Theorem enterprise_key_creates_keys (st st' : store)
    (rand_id rand_token : str) (now : datetime) (name0 : str)
    (given : option str) (api_key id name1 tier1 : str)
    (monthly : option Z) (rate_limit : Z) :
  rand_id <> [] ->
  create_api_key _hash_key settings st rand_id rand_token now name0
    (py "enterprise") given
  = (KeyCreated api_key id name1 tier1 monthly rate_limit, st') ->
  forall rand_id' rand_token' now' name' tier',
    dict_in PRICING_TIERS tier' = true ->
    exists monthly' rate_limit' st'',
      create_api_key _hash_key settings st' rand_id' rand_token' now'
        name' tier' (Some api_key)
      = (KeyCreated (py "ocv_" ++ rand_token') rand_id' name' tier'
           monthly' rate_limit', st'').
Proof.
  intros Hid Hc rid tok t nm tr Htr.
  set (made := generate_key _hash_key st rand_id rand_token now name0
                 (py "enterprise") 500%Z None).
  assert (E : st' = snd made /\ api_key = py "ocv_" ++ rand_token).
  { unfold create_api_key in Hc.
    destruct (master_key_error _hash_key settings st given); [discriminate|].
    change (dict_get PRICING_TIERS (py "enterprise"))
      with (Some {| tier_monthly_minutes := None; tier_rate_limit := 500;
                    tier_price := 99;
                    tier_features := [py "continuous_mode";
                                      py "voice_cloning";
                                      py "priority_queue"] |}) in Hc.
    cbn [tier_rate_limit tier_monthly_minutes] in Hc.
    unfold generate_key in Hc. injection Hc as <- <- <- <- <- <- <-.
    split; reflexivity. }
  destruct E as [-> ->].
  pose proof (@generate_key_validate _hash_key st rand_id rand_token now
                name0 (py "enterprise") 500%Z None Hid) as Hv.
  fold made in Hv.
  assert (A : master_key_error _hash_key settings (snd made)
                (Some (py "ocv_" ++ rand_token)) = None).
  { apply master_key_error_none. right. right. cbn [or_empty].
    eexists _, _. split; [exact Hv|]. split.
    - unfold made, generate_key, deref. cbn [snd heap]. apply deref_new.
    - reflexivity. }
  unfold create_api_key.
  match goal with
  | |- context [master_key_error ?a ?b ?c ?d] =>
      replace (master_key_error a b c d) with (@None str)
        by (symmetry; exact A)
  end.
  unfold dict_in in Htr.
  destruct (dict_get PRICING_TIERS tr) as [c|]; [|discriminate].
  unfold generate_key. eauto.
Qed.

Lemma connections_spec (times : list datetime) : forall st p r,
  require_auth settings = true ->
  validate_key _hash_key st p = Some r ->
  fst (connections _hash_key settings st p times)
  = map (fun ok : bool =>
           if ok then Accept (Some r)
           else CloseWith 4003 (py "Rate limit exceeded"))
        (fst (check_rate_limits st r times)).
Proof.
  induction times as [|now times IH]; intros st p r Ha Hv; [reflexivity|].
  cbn [connections check_rate_limits]. unfold authenticate. rewrite Ha.
  destruct (validate_key_deref Hv) as [Hne (k & Hk & _)].
  destruct p as [|c p]; [congruence|].
  unfold opt_or. cbn [opt_truthy truthy negb or_empty]. rewrite Hv.
  destruct (check_rate_limit_deref now Hk) as [E _]. rewrite E.
  set (st1 := assign st r _).
  assert (Hv1 : validate_key _hash_key st1 (c :: p) = Some r).
  { subst st1. rewrite validate_key_assign; [exact Hv|].
    intros k0. apply (rate_check_same k0 now). }
  specialize (IH st1 (c :: p) r Ha Hv1).
  destruct (fst (rate_check k now)).
  - destruct (connections _hash_key settings st1 (c :: p) times).
    destruct (check_rate_limits st1 r times).
    cbn [fst map] in *. now f_equal.
  - destruct (connections _hash_key settings st1 (c :: p) times).
    destruct (check_rate_limits st1 r times).
    cbn [fst map] in *. now f_equal.
Qed.

(** X10.  Connections are rate limited. With [require_auth] on, when a
    client connects again and again with a valid key that has made no
    request yet, at times all less than a minute from one another, the first
    [n] connections are accepted, [n] being the key's limit a minute, and
    every later one is closed with code 4003. *)
Theorem connections_are_rate_limited (st : store) (p : str) (r : ref)
    (k : APIKey) (times : list datetime) :
  require_auth settings = true ->
  validate_key _hash_key st p = Some r ->
  deref st r = Some k ->
  last_request_at k = None ->
  request_count_this_minute k = 0%Z ->
  (forall t t', In t times -> In t' times -> (t - t' < minute)%Z) ->
  let n := Z.to_nat (rate_limit_per_minute k) in
  fst (connections _hash_key settings st p times)
  = repeat (Accept (Some r)) (Nat.min (length times) n)
    ++ repeat (CloseWith 4003 (py "Rate limit exceeded"))
         (length times - n).
Proof.
  intros Ha Hv Hk Hl Hc Hw n.
  rewrite (connections_spec times Ha Hv).
  pose proof (@burst_from times st r k Hk) as H. cbn zeta in H.
  rewrite Hc, Z.sub_0_r in H. rewrite H; auto.
  - rewrite map_app, !map_repeat. reflexivity.
  - intros l t E. congruence.
Qed.

(** X11.  A revoked key cannot connect. With [require_auth] on, once
    [revoke_key] has revoked the id under which a key's object is stored, a
    connection that gives that key is closed with code 4002, before
    [accept], and the token manager is not touched. *)
Theorem revoked_key_cannot_connect (st : store) (id p : str) (r : ref)
    (header : option str) (now : datetime) :
  require_auth settings = true ->
  dict_get (_keys st) id = Some r ->
  validate_key _hash_key st p = Some r ->
  let st' := snd (revoke_key st id) in
  authenticate _hash_key settings st' (Some p) header now
  = (CloseWith 4002 (py "Invalid API key"), st').
Proof.
  intros Ha Hid Hv. unfold revoke_key. rewrite Hid. cbn [snd].
  unfold authenticate. rewrite Ha.
  destruct (validate_key_deref Hv) as [Hne _].
  destruct p as [|c p]; [congruence|].
  unfold opt_or. cbn [opt_truthy truthy negb or_empty].
  rewrite validate_key_revoked, Hv, Nat.eqb_refl. reflexivity.
Qed.

End Facts.

Lemma enterprise_key_creates_keys_witness :
  exists st' monthly' rate_limit' st'',
    create_api_key toy_hash demo_settings empty_store (py "0a") (py "big")
      0%Z (py "corp") (py "enterprise") (Some (py "ocv_master_k"))
    = (KeyCreated (py "ocv_big") (py "0a") (py "corp") (py "enterprise")
         None 500%Z, st') /\
    create_api_key toy_hash demo_settings st' (py "0b") (py "small") 7%Z
      (py "app") (py "pro") (Some (py "ocv_big"))
    = (KeyCreated (py "ocv_" ++ py "small") (py "0b") (py "app") (py "pro")
         monthly' rate_limit', st'').
Proof.
  eexists.
  destruct (@enterprise_key_creates_keys toy_hash demo_settings
              empty_store _ (py "0a") (py "big") 0%Z (py "corp")
              (Some (py "ocv_master_k")) _ _ _ _ _ _
              ltac:(discriminate) eq_refl
              (py "0b") (py "small") 7%Z (py "app") (py "pro") eq_refl)
    as (m & rl & st2 & H).
  exists m, rl, st2. split; [reflexivity | exact H].
Defined.

Lemma connections_are_rate_limited_witness :
  fst (connections toy_hash demo_settings demo_store (py "ocv_abc")
         [0; 1000; 2000]%Z)
  = [Accept (Some 0); Accept (Some 0);
     CloseWith 4003 (py "Rate limit exceeded")].
Proof.
  apply (@connections_are_rate_limited toy_hash demo_settings demo_store
           (py "ocv_abc") 0 demo_key [0; 1000; 2000]%Z).
  - reflexivity.
  - reflexivity.
  - reflexivity.
  - reflexivity.
  - reflexivity.
  - intros t t' H H'. cbn in H, H'. unfold minute.
    repeat (destruct H as [<-|H]; [|]);
      repeat (destruct H' as [<-|H']; [|]); try contradiction; lia.
Defined.

Lemma revoked_key_cannot_connect_witness :
  validate_key toy_hash demo_store (py "ocv_abc") = Some 0 /\
  authenticate toy_hash demo_settings
    (snd (revoke_key demo_store (py "00ff"))) (Some (py "ocv_abc")) None
    5%Z
  = (CloseWith 4002 (py "Invalid API key"),
     snd (revoke_key demo_store (py "00ff"))).
Proof.
  split; [reflexivity|].
  apply (@revoked_key_cannot_connect toy_hash demo_settings demo_store
           (py "00ff") (py "ocv_abc") 0 None 5%Z);
    reflexivity.
Defined.

End ApiFacts.

(** ** The realtime callback and the queue *)

Module AliyunCallbackFacts.
Import PyData PyDataFacts AliyunSTT AliyunCallback.

Lemma last_final_app (a b : list session_event) :
  last_final (a ++ b)
  = match last_final b with Some t => Some t | None => last_final a end.
Proof.
  induction a as [|ev a IH]; cbn [app last_final].
  - now destruct (last_final b).
  - rewrite IH. now destruct (last_final b).
Qed.

Lemma last_partial_app (a b : list session_event) :
  last_partial (a ++ b)
  = match last_partial b with Some t => Some t | None => last_partial a end.
Proof.
  induction a as [|ev a IH]; cbn [app last_partial].
  - now destruct (last_partial b).
  - rewrite IH. now destruct (last_partial b).
Qed.

Lemma fold_note_events (evs : list session_event) : forall s,
  let s' := fold_left note_event evs s in
  conversation s' = conversation s /\
  event_queue s' = event_queue s /\
  final_transcript s'
  = match last_final evs with
    | Some t => strip t
    | None => final_transcript s
    end /\
  partial_transcript s'
  = match last_partial evs with
    | Some t => strip t
    | None => partial_transcript s
    end /\
  saw_speech_started s'
  = saw_speech_started s || existsb is_speech_started evs.
Proof.
  induction evs as [|ev evs IH] using rev_ind; intros s; cbn zeta.
  - cbn. now rewrite orb_false_r.
  - rewrite fold_left_app. cbn [fold_left].
    destruct (IH s) as (H1 & H2 & H3 & H4 & H5).
    set (s1 := fold_left note_event evs s) in *.
    rewrite last_final_app, last_partial_app, existsb_app.
    destruct ev;
      cbn [note_event conversation event_queue final_transcript
           partial_transcript saw_speech_started last_final last_partial
           existsb is_speech_started];
      rewrite ?orb_false_r, ?orb_true_r;
      repeat split; auto.
Qed.

Lemma drain_put_spec (evs : list session_event) (s : session) :
  let '(got, s') := drain_events (put evs s) in
  got = event_queue s ++ evs /\
  event_queue s' = [] /\
  final_transcript s'
  = match last_final got with
    | Some t => strip t
    | None => final_transcript s
    end /\
  saw_speech_started s'
  = saw_speech_started s || existsb is_speech_started got.
Proof.
  unfold drain_events, put. cbn [event_queue conversation final_transcript
    partial_transcript saw_speech_started].
  set (s0 := {| conversation := conversation s; event_queue := [] |}).
  destruct (fold_note_events (event_queue s ++ evs) s0)
    as (_ & H2 & H3 & _ & H5).
  repeat split; assumption.
Qed.

(** X12.  What [drain_events] leaves. It returns the queued events in the
    order they arrived and empties the queue; afterwards the final
    transcript is the trimmed text of the last [final] event drained (even
    an empty one), or what it was when there was none; the partial
    transcript likewise for [partial] events; and [saw_speech_started] is
    set when it was set before or a [speech_started] event was drained: it
    is never cleared. *)
Theorem drain_events_keeps_the_latest (s : session) :
  let '(evs, s') := drain_events s in
  evs = event_queue s /\
  event_queue s' = [] /\
  conversation s' = conversation s /\
  final_transcript s'
  = match last_final evs with
    | Some t => strip t
    | None => final_transcript s
    end /\
  partial_transcript s'
  = match last_partial evs with
    | Some t => strip t
    | None => partial_transcript s
    end /\
  saw_speech_started s'
  = saw_speech_started s || existsb is_speech_started evs.
Proof.
  unfold drain_events. cbn zeta.
  set (s0 := {| conversation := conversation s; event_queue := [] |}).
  destruct (fold_note_events (event_queue s) s0) as (H1 & H2 & H3 & H4 & H5).
  split; [reflexivity|]. split; [exact H2|]. split; [exact H1|].
  split; [exact H3|]. split; [exact H4 | exact H5].
Qed.

Lemma last_final_responses (rs : list (option response)) :
  forallb (fun r => negb (is_completed r)) rs = true ->
  last_final (flat_map on_event rs) = None.
Proof.
  induction rs as [|r rs IH]; [reflexivity|].
  cbn [forallb flat_map]. intros H. apply andb_prop in H as [H1 H2].
  rewrite last_final_app, (IH H2).
  destruct r as [msg|]; [|reflexivity].
  unfold on_event. unfold is_completed in H1.
  destruct (str_eqb (rtype msg) (py "input_audio_buffer.speech_started"));
    [reflexivity|].
  destruct (str_eqb (rtype msg) (py "input_audio_buffer.speech_stopped"));
    [reflexivity|].
  destruct (str_eqb (rtype msg)
              (py "conversation.item.input_audio_transcription.text")).
  - destruct (truthy _); reflexivity.
  - destruct (str_eqb (rtype msg)
                (py "conversation.item.input_audio_transcription.completed"));
      [discriminate | reflexivity].
Qed.

(** X13.  The last [completed] response decides the final transcript. When
    the callback has received any responses, then a [completed] one, then
    responses none of which is [completed], the next [drain_events] sets the
    final transcript to the trimmed [transcript] of that response (its
    [text] when it has no transcript, the empty string when it has neither):
    a [completed] response without text erases the final transcript of an
    earlier one. *)
Theorem last_completed_response_wins (s : session)
    (before after : list (option response)) (msg : response) :
  rtype msg = py "conversation.item.input_audio_transcription.completed" ->
  forallb (fun r => negb (is_completed r)) after = true ->
  final_transcript
    (snd (drain_events (receive (before ++ Some msg :: after) s)))
  = strip (or_empty (opt_or (opt_or (transcript msg) (text msg))
                            (Some []))).
Proof.
  intros Ht Ha. unfold receive.
  pose proof (drain_put_spec (flat_map on_event (before ++ Some msg :: after))
                s) as H.
  destruct (drain_events (put (flat_map on_event (before ++ Some msg :: after))
                            s)) as [got s'].
  destruct H as (E1 & _ & E3 & _). cbn [snd]. rewrite E3, E1.
  rewrite last_final_app, flat_map_app. cbn [flat_map].
  rewrite !last_final_app, (last_final_responses Ha).
  unfold on_event at 1. rewrite Ht. cbn [last_final]. reflexivity.
Qed.

Lemma last_completed_response_wins_witness :
  final_transcript
    (snd (drain_events
            (receive
               ([Some {| rtype :=
                           py "conversation.item.input_audio_transcription.completed";
                         text := None; stash := None;
                         transcript := Some (py " lights on ") |}]
                ++ Some {| rtype :=
                             py "conversation.item.input_audio_transcription.completed";
                           text := None; stash := None;
                           transcript := None |}
                   :: [Some {| rtype := py "input_audio_buffer.speech_stopped";
                               text := None; stash := None;
                               transcript := None |}])
               new_session)))
  = [].
Proof.
  apply (@last_completed_response_wins new_session
           [Some {| rtype :=
                      py "conversation.item.input_audio_transcription.completed";
                    text := None; stash := None;
                    transcript := Some (py " lights on ") |}]
           [Some {| rtype := py "input_audio_buffer.speech_stopped";
                    text := None; stash := None; transcript := None |}]
           {| rtype :=
                py "conversation.item.input_audio_transcription.completed";
              text := None; stash := None; transcript := None |});
    reflexivity.
Defined.

#[local] Open Scope Z_scope.

Lemma drain_put_final (evs : list session_event) (s : session) :
  event_queue s = [] ->
  let s' := snd (drain_events (put evs s)) in
  event_queue s' = [] /\
  final_transcript s'
  = match last_final evs with
    | Some t => strip t
    | None => final_transcript s
    end.
Proof.
  intros Hq. pose proof (drain_put_spec evs s) as H.
  destruct (drain_events (put evs s)) as [got s'].
  destruct H as (E1 & E2 & E3 & _). cbn [snd].
  split; [exact E2|]. rewrite E3, E1, Hq. reflexivity.
Qed.

Lemma poll_loop_until_final (i : nat) : forall fuel w j now deadline s t,
  (i < fuel)%nat ->
  now + 50 * Z.of_nat i < deadline ->
  event_queue s = [] ->
  final_transcript s = [] ->
  (forall j', (j' < i)%nat -> last_final (arrivals w (j + j')) = None) ->
  last_final (arrivals w (j + i)) = Some t ->
  truthy (strip t) = true ->
  exists s' polls,
    poll_loop fuel w j now deadline s = (s', now + 50 * Z.of_nat i, polls) /\
    length polls = S i /\
    event_queue s' = [] /\
    final_transcript s' = strip t.
Proof.
  induction i as [|i IH]; intros fuel w j now deadline s t Hf Hd Hq Hs Hn Ht Hok;
    (destruct fuel as [|fuel]; [lia|]); cbn [poll_loop].
  - destruct (now <? deadline) eqn:C; [|apply Z.ltb_ge in C; lia].
    destruct (@drain_put_final (arrivals w j) s Hq) as [Q F].
    rewrite Nat.add_0_r in Ht. rewrite Ht in F. rewrite F, Hok.
    eexists _, _. split; [|split; [|split; [exact Q | exact F]]].
    + f_equal. f_equal. lia.
    + reflexivity.
  - destruct (now <? deadline) eqn:C; [|apply Z.ltb_ge in C; lia].
    destruct (@drain_put_final (arrivals w j) s Hq) as [Q F].
    pose proof (Hn 0%nat ltac:(lia)) as H0. rewrite Nat.add_0_r in H0.
    rewrite H0, Hs in F. rewrite F. cbn [truthy].
    set (s1 := snd (drain_events (put (arrivals w j) s))) in *.
    destruct (IH fuel w (S j) (now + 50) deadline s1 t) as (s' & polls & E & L & Q' & F');
      auto; try lia.
    + intros j' Hj. replace (S j + j')%nat with (j + S j')%nat by lia.
      apply Hn. lia.
    + replace (S j + i)%nat with (j + S i)%nat by lia. exact Ht.
    + rewrite E. eexists _, _. split; [|split; [|split; [exact Q' | exact F']]].
      * f_equal. f_equal. lia.
      * cbn [length]. now rewrite L.
Qed.

(** X14.  [stop_and_get_transcript] does not wait out its timeout. For a
    session with an empty queue and no final transcript yet, when the first
    [final] event to arrive comes in before poll [i] of the loop (the polls
    are 50 ms apart, poll [i] is inside the timeout), has text that is not
    blank, and no other [final] event follows it before the last drain, the
    call returns at poll [i], that is [50 * i] ms after [end_session] has
    returned, with the trimmed text of that event. *)
Theorem stop_and_get_transcript_returns_on_final (w : stop_world)
    (timeout_ms t0 : Z) (s : session) (i : nat) (t : str) :
  event_queue s = [] ->
  final_transcript s = [] ->
  (forall j, (j < i)%nat -> last_final (arrivals w j) = None) ->
  last_final (arrivals w i) = Some t ->
  truthy (strip t) = true ->
  last_final (arrivals w (S i)) = None ->
  50 * Z.of_nat i < timeout_ms ->
  let t1 := if conversation s then t0 + end_session_ms w else t0 in
  let '(text, _, t_end) := stop_and_get_transcript w timeout_ms t0 s in
  text = strip t /\ t_end = t1 + 50 * Z.of_nat i.
Proof.
  intros Hq Hs Hn Ht Hok Hl Hi t1. unfold stop_and_get_transcript.
  fold t1. cbn zeta.
  destruct (@poll_loop_until_final i (poll_fuel timeout_ms) w 0%nat t1
              (t1 + timeout_ms) s t) as (s' & polls & E & L & Q & F);
    auto; try lia.
  - unfold poll_fuel.
    assert (Z.of_nat i <= timeout_ms / 50) by (apply Z.div_le_lower_bound; lia).
    lia.
  - rewrite E, L.
    destruct (@drain_put_final (arrivals w (S i)) s' Q) as [_ F2].
    rewrite Hl, F in F2. rewrite F2. unfold py_or. rewrite Hok.
    split; reflexivity.
Qed.

Lemma stop_and_get_transcript_returns_on_final_witness :
  let '(text, _, t_end) :=
    stop_and_get_transcript
      (Deployment.stopping (Deployment.engine_hears (py " lights on ")) 0)
      3000 1000 Deployment.started_session in
  text = py "lights on" /\ t_end = 1000 + 120 + 50 * 1.
Proof.
  apply (@stop_and_get_transcript_returns_on_final
           (Deployment.stopping
              (Deployment.engine_hears (py " lights on ")) 0)
           3000 1000 Deployment.started_session 1%nat (py " lights on "));
    try reflexivity.
  intros j Hj. destruct j as [|j]; [reflexivity|].
  exfalso. apply (Nat.lt_irrefl 1). eapply Nat.le_lt_trans; [|exact Hj].
  apply le_n_S, Nat.le_0_l.
Defined.

End AliyunCallbackFacts.

(** ** The connection as a whole *)

Module ConnectionFacts.
Import AliyunSTT Main MainFacts Deployment Connection AliyunCallback
  AliyunCallbackFacts.

Section Facts.
Context {S : Type} {RS : RealtimeSession S} (E : collaborators S).

(** X15.  [stop_listening] with nothing to transcribe. When no audio is
    buffered and the connection holds no realtime session (a
    [stop_listening] that no [start_listening] or audio came before, for
    one), the handler calls no collaborator at all, sends
    [listening_stopped], an empty [transcript] and an empty
    [response_complete], and leaves the connection not listening with an
    empty buffer. *)
Theorem stop_without_audio_calls_nothing (st : state S) :
  audio_buffer st = [] ->
  asr_realtime_session st = None ->
  on_stop_listening E st
  = (Ok tt,
     {| audio_buffer := []; is_listening := false;
        asr_realtime_session := None; tick := tick st |},
     [Send ListeningStopped; Send (Transcript []);
      Send (ResponseComplete [])]).
Proof.
  destruct st as [b l s k]. cbn [audio_buffer asr_realtime_session tick].
  intros -> ->. reflexivity.
Qed.

Lemma serve_raises (msgs : list client_msg) : forall st : state S,
  exists e st' tr, serve E msgs st = (Raise e, st', tr).
Proof.
  induction msgs as [|m msgs IH]; intros st; cbn [serve].
  - eexists _, _, _. reflexivity.
  - unfold bind. destruct (handle_message E m st) as [[[[]|e] st1] tr1].
    + destruct (IH st1) as (e & st' & tr & ->). eexists _, _, _. reflexivity.
    + eexists _, _, _. reflexivity.
Qed.

Lemma cleanup_trace (e : exn) (st : state S) :
  snd (cleanup e st) = closing_calls (asr_realtime_session st) e.
Proof.
  unfold cleanup, closing_calls, bind, get, try_except, on_session, perform,
    set_session, of_result, ret, raise.
  destruct (asr_realtime_session st) as [s|] eqn:Hs; cbn.
  - rewrite Hs. cbn.
    destruct (session_stop_and_get_transcript (tick st) 500 s) as [s' [t|x]];
      cbn; destruct e; reflexivity.
  - destruct e; reflexivity.
Qed.

(** X16.  How a connection ends. The loop of [websocket_endpoint] is only
    left by an exception. Whatever the messages were, what follows the loop
    is: when the connection still holds a realtime session, one call of
    [stop_and_get_transcript] with a timeout of 0.5 s, whose failure is
    ignored; then [websocket.close()] when the exception was not the
    client's disconnect, and nothing more. *)
Theorem connection_ends_with_cleanup (msgs : list client_msg) :
  exists e st tr,
    serve E msgs (initial S) = (Raise e, st, tr) /\
    websocket_endpoint E msgs
    = tr ++ closing_calls (asr_realtime_session st) e.
Proof.
  destruct (serve_raises msgs (initial S)) as (e & st & tr & H).
  exists e, st, tr. split; [exact H|].
  unfold websocket_endpoint. rewrite H. now rewrite cleanup_trace.
Qed.

(** X17.  A message that is not JSON, or has no type, ends the connection:
    whatever the client sends after it is never handled, the trace of the
    connection is the one it would have had the client sent nothing more. *)
Theorem nothing_is_handled_after_a_malformed_message
    (pre rest : list client_msg) :
  websocket_endpoint E (pre ++ Malformed :: rest)
  = websocket_endpoint E (pre ++ [Malformed]).
Proof.
  assert (H : forall st : state S,
             serve E (pre ++ Malformed :: rest) st
             = serve E (pre ++ [Malformed]) st).
  { induction pre as [|m pre IH]; intros st; cbn [app serve].
    - reflexivity.
    - unfold bind. destruct (handle_message E m st) as [[[[]|e] st1] tr1];
        [now rewrite IH | reflexivity]. }
  unfold websocket_endpoint. now rewrite H.
Qed.

(** X18.  Audio is buffered whatever the realtime session does. While the
    connection holds a realtime session, an audio message with a decodable
    payload never raises: the chunk is appended to the buffer (so that batch
    transcription can fall back on it), the session is kept, and the only
    calls are [append_audio_float32] and [drain_events] on the session, even
    when one of them fails. *)
Theorem audio_is_buffered_whatever_the_session_does (st : state S) (s : S)
    (a : ndarray) :
  asr_realtime_session st = Some s ->
  post (on_audio E (Some a)) st (fun r st' tr =>
    r = Ok tt /\
    audio_buffer st' = audio_buffer st ++ [a] /\
    is_listening st' = is_listening st /\
    (exists s', asr_realtime_session st' = Some s') /\
    Forall is_listening_event (sent tr) /\
    Forall (audio_call a) (called tr)).
Proof.
  intros Hs. unfold on_audio, audio_call. wp. rewrite Hs. wp.
  destruct (session_append_audio_float32 (tick st) a s) as [s1 [[]|e]]; wp.
  2: { repeat split; eauto; trace_tac; auto. }
  destruct (session_drain_events (Datatypes.S (tick st)) s1) as [s2 [evs|e]]; wp.
  2: { repeat split; eauto; trace_tac; auto. }
  eapply post_conseq.
  { apply (emits_for_each (P:=is_listening_event) (C:=fun _ => False)).
    intros []; unfold on_session_event; emits_auto. }
  cbn beta. intros r st3 tr3 [[H1 H2] (Hb & Hl & Hv)].
  cbn [audio_buffer is_listening asr_realtime_session] in *.
  assert (Hc : called tr3 = []).
  { destruct (called tr3) as [|c l]; [reflexivity|].
    inversion H2; contradiction. }
  destruct r as [[]|e]; wp; repeat split; eauto;
    cbn [app]; autorewrite with trace; rewrite ?Hc;
    repeat first [ apply Forall_app; split | apply Forall_cons
                 | apply Forall_nil | assumption
                 | (left; reflexivity) | (right; reflexivity) ].
Qed.

End Facts.

(** X19.  The [vad_status] events mirror the engine. With the Aliyun
    realtime session, when the chunk is sent to the engine without error,
    the handler sends one [vad_status] for every [speech_started] and
    [speech_stopped] event the engine has queued so far, in the order they
    arrived, and nothing for the other events; the queue is left empty, and
    the session remembers whether speech has started. *)
Theorem vad_status_mirrors_the_engine (w : engine)
    (E : collaborators session) (st : state session) (s : session)
    (a : ndarray) :
  asr_realtime_session st = Some s ->
  append_audio_float32 (append_up w (tick st)) a s = Ok tt ->
  let evs := event_queue s ++ queued w (Datatypes.S (tick st)) in
  post (on_audio (RS:=aliyun_session w) E (Some a)) st (fun r st' tr =>
    r = Ok tt /\
    sent tr = vad_events evs /\
    called tr = [SessionAppendAudio a; SessionDrainEvents] /\
    audio_buffer st' = audio_buffer st ++ [a] /\
    exists s',
      asr_realtime_session st' = Some s' /\
      event_queue s' = [] /\
      saw_speech_started s'
      = saw_speech_started s || existsb is_speech_started evs).
Proof.
  intros Hs Ha evs. unfold on_audio. wp. rewrite Hs. wp.
  cbn [session_append_audio_float32 aliyun_session]. rewrite Ha. wp.
  cbn [session_drain_events aliyun_session].
  pose proof (drain_put_spec (queued w (Datatypes.S (tick st))) s) as D.
  destruct (drain_events (put (queued w (Datatypes.S (tick st))) s))
    as [evs' s'].
  destruct D as (E1 & E2 & _ & E6). fold evs in E1. subst evs'. wp.
  assert (F : forall st0 : state session,
            for_each evs (on_session_event (S:=session)) st0
            = (Ok tt, st0, map Send (vad_events evs))).
  { clear. induction evs as [|ev evs IH]; intros st0; [reflexivity|].
    cbn [for_each]. unfold bind. 
    destruct ev; cbn [on_session_event]; unfold send, ret;
      rewrite IH; reflexivity. }
  apply post_run. rewrite F. cbn [fst snd]. wp.
  assert (G : forall l, sent (map Send l) = l /\ called (map Send l) = []).
  { clear. induction l as [|x l [I1 I2]]; [split; reflexivity|].
    cbn [map]. rewrite sent_cons_send, called_cons_send, I1, I2. auto. }
  destruct (G (vad_events evs)) as [G1 G2].
  repeat split.
  - cbn [app]. autorewrite with trace. rewrite G1. reflexivity.
  - cbn [app]. autorewrite with trace. rewrite G2. reflexivity.
  - exists s'. auto.
Qed.

Lemma stop_without_audio_calls_nothing_witness :
  on_stop_listening (RS:=aliyun_session engine_silent)
    (demo true false (Ok (py "hello"))) (initial session)
  = (Ok tt, initial session,
     [Send ListeningStopped; Send (Transcript []);
      Send (ResponseComplete [])]).
Proof.
  apply (stop_without_audio_calls_nothing (RS:=aliyun_session engine_silent)
           (demo true false (Ok (py "hello"))) (st:=initial session));
    reflexivity.
Defined.

Lemma audio_is_buffered_whatever_the_session_does_witness :
  post (on_audio (RS:=aliyun_session engine_down)
          (demo true false (Ok (py "hello"))) (Some loud))
       (listening_with_session quiet)
       (fun r st' tr =>
          r = Ok tt /\
          audio_buffer st' = [quiet] ++ [loud] /\
          is_listening st' = true /\
          (exists s', asr_realtime_session st' = Some s') /\
          Forall is_listening_event (sent tr) /\
          Forall (audio_call loud) (called tr)).
Proof.
  apply (audio_is_buffered_whatever_the_session_does
           (RS:=aliyun_session engine_down)
           (demo true false (Ok (py "hello")))
           (st:=listening_with_session quiet) (s:=started_session)).
  reflexivity.
Defined.

Lemma vad_status_mirrors_the_engine_witness :
  post (on_audio (RS:=aliyun_session (engine_hears (py "lights on")))
          (demo true false (Ok (py "hello"))) (Some loud))
       {| audio_buffer := []; is_listening := true;
          asr_realtime_session := Some started_session; tick := 2 |}
       (fun r st' tr =>
          r = Ok tt /\
          sent tr = [VadStatus true (Some (py "speech_started"))] /\
          called tr = [SessionAppendAudio loud; SessionDrainEvents] /\
          audio_buffer st' = [loud] /\
          exists s',
            asr_realtime_session st' = Some s' /\
            event_queue s' = [] /\
            saw_speech_started s' = true).
Proof.
  apply (@vad_status_mirrors_the_engine (engine_hears (py "lights on"))
           (demo true false (Ok (py "hello")))
           {| audio_buffer := []; is_listening := true;
              asr_realtime_session := Some started_session; tick := 2 |}
           started_session loud);
    reflexivity.
Defined.

End ConnectionFacts.

(** ** The resampler at its edges *)

Module ResamplerEdgeFacts.
Import Resampler ResamplerFacts.


Lemma byte_val_range (b : byte) : (0 <= byte_val b < 256)%Z.
Proof.
  unfold byte_val. pose proof (Byte.to_N_bounded b). lia.
Qed.

Lemma frombuffer_range_upto (n : nat) : forall (b : bytes) src,
  length b <= n ->
  frombuffer_int16 b = Some src ->
  Forall (fun v => (-32768 <= v <= 32767)%Z) src.
Proof.
  induction n as [|n IH]; intros b src Hn H.
  - destruct b; [|cbn in Hn; lia]. injection H as <-. constructor.
  - destruct b as [|lo [|hi rest]]; cbn [frombuffer_int16] in H.
    + injection H as <-. constructor.
    + discriminate.
    + destruct (frombuffer_int16 rest) as [src'|] eqn:E; [|discriminate].
      cbn [option_map] in H. injection H as <-. constructor.
      * unfold int16_of_bytes.
        pose proof (byte_val_range lo). pose proof (byte_val_range hi).
        destruct (_ <? 32768)%Z eqn:C;
          [apply Z.ltb_lt in C | apply Z.ltb_ge in C]; lia.
      * apply (IH rest); [cbn [length] in Hn; lia | exact E].
Qed.

Lemma frombuffer_range (b : bytes) (src : list Z) :
  frombuffer_int16 b = Some src ->
  Forall (fun v => (-32768 <= v <= 32767)%Z) src.
Proof. apply (@frombuffer_range_upto (length b)). apply Nat.le_refl. Qed.

#[local] Open Scope Z_scope.

Lemma astype_int16_between (v : Q) (lo hi : Z) :
  (inject_Z lo <= v)%Q -> (v <= inject_Z hi)%Q ->
  lo <= astype_int16 v <= hi.
Proof.
  destruct v as [n d]. unfold Qle, astype_int16, inject_Z.
  cbn [Qnum Qden]. intros H1 H2. split.
  - rewrite <- (Z.quot_mul lo (Z.pos d)) by lia.
    apply Z.quot_le_mono; lia.
  - rewrite <- (Z.quot_mul hi (Z.pos d)) by lia.
    apply Z.quot_le_mono; lia.
Qed.

Lemma clip_between (v : Q) (lo hi : Z) :
  -32768 <= lo -> hi <= 32767 ->
  (inject_Z lo <= v)%Q -> (v <= inject_Z hi)%Q ->
  (inject_Z lo <= clip v)%Q /\ (clip v <= inject_Z hi)%Q.
Proof.
  intros Hlo Hhi H1 H2. unfold clip.
  destruct (Qlt_le_dec v (-32768)) as [L|L].
  - exfalso. apply (Qlt_irrefl v). eapply Qlt_le_trans; [exact L|].
    eapply Qle_trans; [|exact H1].
    change (-32768)%Q with (inject_Z (-32768)). rewrite <- Zle_Qle. exact Hlo.
  - destruct (Qlt_le_dec 32767 v) as [G|G]; [|auto].
    exfalso. apply (Qlt_irrefl v). eapply Qle_lt_trans; [|exact G].
    eapply Qle_trans; [exact H2|].
    change 32767%Q with (inject_Z 32767). rewrite <- Zle_Qle. exact Hhi.
Qed.

(** The value of [lerp] lies between the two samples around [x]. *)
Lemma lerp_between (src : list Z) (x : Q) :
  src <> [] ->
  (0 <= x)%Q -> (x <= inject_Z (Z.of_nat (length src) - 1))%Q ->
  exists a b, In a src /\ In b src /\
    (inject_Z (Z.min a b) <= lerp src x)%Q /\
    (lerp src x <= inject_Z (Z.max a b))%Q.
Proof.
  intros Hne Hlo Hhi. unfold lerp.
  set (j := Qfloor x).
  pose proof (Qfloor_le x) as F1. pose proof (Qlt_floor x) as F2.
  fold j in F1, F2.
  assert (Hj0 : 0 <= j).
  { apply Zlt_succ_le. rewrite Zlt_Qlt. unfold Z.succ.
    eapply Qle_lt_trans; [exact Hlo | exact F2]. }
  assert (Hjn : j <= Z.of_nat (length src) - 1).
  { rewrite Zle_Qle. eapply Qle_trans; [exact F1 | exact Hhi]. }
  set (a := nth (Z.to_nat j) src 0).
  set (b := nth (S (Z.to_nat j)) src a).
  assert (Ia : In a src) by (apply nth_In; lia).
  assert (Ib : In b src).
  { destruct (Nat.lt_ge_cases (S (Z.to_nat j)) (length src)) as [L|G].
    - apply nth_In. exact L.
    - unfold b. rewrite nth_overflow by exact G. exact Ia. }
  exists a, b. split; [exact Ia|]. split; [exact Ib|].
  set (f := (x - inject_Z j)%Q).
  rewrite inject_Z_plus in F2. change (inject_Z 1) with 1%Q in F2.
  assert (Hf0 : (0 <= f)%Q) by (unfold f; lra).
  assert (Hf1 : (0 <= 1 - f)%Q) by (unfold f; lra).
  assert (Hd : (inject_Z (b - a) == inject_Z b - inject_Z a)%Q).
  { unfold Z.sub. now rewrite inject_Z_plus, inject_Z_opp. }
  rewrite Hd.
  set (A := inject_Z a) in *. set (B := inject_Z b) in *.
  destruct (Z.le_ge_cases a b) as [Le|Ge].
  - rewrite Z.min_l, Z.max_r by lia. fold A B.
    assert (AB : (0 <= B - A)%Q).
    { unfold A, B. rewrite Zle_Qle in Le. lra. }
    pose proof (Qmult_le_0_compat _ _ Hf0 AB) as P1.
    pose proof (Qmult_le_0_compat _ _ Hf1 AB) as P2.
    split; lra.
  - rewrite Z.min_r, Z.max_l by lia. fold A B.
    assert (BA : (0 <= A - B)%Q).
    { unfold A, B. rewrite Zle_Qle in Ge. lra. }
    pose proof (Qmult_le_0_compat _ _ Hf0 BA) as P1.
    pose proof (Qmult_le_0_compat _ _ Hf1 BA) as P2.
    split; lra.
Qed.

Lemma resample_sample_at (src : list Z) (src_rate dst_rate : Z) (i : nat) :
  src <> [] ->
  (i < length (resample_samples src src_rate dst_rate))%nat ->
  exists x : Q,
    (x == position i (length src)
            (length (resample_samples src src_rate dst_rate)))%Q /\
    (0 <= x)%Q /\ (x <= inject_Z (Z.of_nat (length src) - 1))%Q /\
    exists v : Q,
      (v == lerp src x)%Q /\
      nth i (resample_samples src src_rate dst_rate) 0
      = astype_int16 (clip v).
Proof.
  intros Hne Hi.
  assert (Hn : (0 < length src)%nat)
    by (destruct src; [congruence | cbn [length]; lia]).
  set (out := resample_samples src src_rate dst_rate) in *.
  pose proof (@length_resample_samples src src_rate dst_rate) as Hm.
  fold out in Hm.
  set (last := inject_Z (Z.of_nat (length src) - 1)).
  set (x := nth i (linspace 0 last (length out)) 0%Q).
  destruct (@dst_grid (length src) (length out) i Hn Hi)
    as (Hx & Hlo & Hhi). fold last x in Hx, Hlo, Hhi.
  exists x. split; [exact Hx|]. split; [exact Hlo|]. split; [exact Hhi|].
  exists (interp x (linspace 0 last (length src)) (map inject_Z src)).
  split.
  - apply interp_grid; [exact Hne | exact Hlo | exact Hhi].
  - assert (Hlen : Z.to_nat (dst_len (length src) src_rate dst_rate)
                   = length out) by lia.
    unfold out at 1, resample_samples. rewrite length_map, Hlen.
    fold last.
    set (f := fun v => astype_int16 (clip v)).
    set (g := fun x0 => interp x0 (linspace 0 last (length src))
                          (map inject_Z src)).
    rewrite (nth_indep _ 0%Z (f (g 0%Q)))
      by (rewrite !length_map, length_linspace; exact Hi).
    rewrite (map_nth f), (map_nth g). reflexivity.
Qed.

Lemma resample_samples_between (src : list Z) (src_rate dst_rate : Z) :
  src <> [] ->
  Forall (fun v => -32768 <= v <= 32767) src ->
  Forall (fun v => exists a b, In a src /\ In b src /\ a <= v <= b)
         (resample_samples src src_rate dst_rate) /\
  nth 0 (resample_samples src src_rate dst_rate) 0 = nth 0 src 0.
Proof.
  intros Hne Hr. rewrite Forall_forall in Hr. split.
  - apply Forall_forall. intros v Hv.
    apply (In_nth _ _ 0) in Hv as (i & Hi & <-).
    destruct (@resample_sample_at src src_rate dst_rate _ Hne Hi)
      as (x & _ & Hlo & Hhi & q & Hq & ->).
    destruct (lerp_between Hne Hlo Hhi) as (a & b & Ia & Ib & L1 & L2).
    rewrite <- Hq in L1, L2.
    pose proof (Hr a Ia). pose proof (Hr b Ib).
    destruct (@clip_between q (Z.min a b) (Z.max a b)) as [C1 C2];
      try lia; try assumption.
    pose proof (astype_int16_between C1 C2) as T.
    destruct (Z.le_ge_cases a b).
    + exists a, b. rewrite Z.min_l, Z.max_r in T by lia. auto.
    + exists b, a. rewrite Z.min_r, Z.max_l in T by lia. auto.
  - assert (Hi : (0 < length (resample_samples src src_rate dst_rate))%nat).
    { pose proof (@length_resample_samples src src_rate dst_rate).
      pose proof (@dst_len_pos (length src) src_rate dst_rate). lia. }
    destruct (@resample_sample_at src src_rate dst_rate _ Hne Hi)
      as (x & Hx & Hlo & Hhi & q & Hq & ->).
    assert (X0 : (x == 0)%Q).
    { rewrite Hx. unfold position.
      destruct (_ =? 1)%nat; [reflexivity|].
      cbn [Z.of_nat]. change (inject_Z 0) with 0%Q.
      unfold Qdiv. now rewrite !Qmult_0_l. }
    assert (F : Qfloor x = 0).
    { rewrite (Qfloor_comp _ _ X0). reflexivity. }
    assert (V : (q == inject_Z (nth 0%nat src 0%Z))%Q).
    { rewrite Hq. unfold lerp. rewrite F. cbn [Z.to_nat nth].
      rewrite X0. change (inject_Z 0) with 0%Q. ring. }
    set (a := nth 0 src 0) in *.
    assert (Ia : In a src).
    { destruct src as [|y src]; [congruence|]. now left. }
    pose proof (Hr a Ia).
    destruct (@clip_between q a a) as [C1 C2]; try lia;
      try (rewrite V; apply Qle_refl).
    pose proof (astype_int16_between C1 C2). lia.
Qed.

(** X21.  Resampling never overshoots. Whenever [_resample_pcm16] returns
    and its input is a PCM16 buffer, its output is one too, and every output
    sample lies between two samples of the input: linear interpolation stays
    within the range of the signal (silence stays silence, and the clipping
    to 16 bits never changes a value). The first output sample is the first
    input sample. *)
Theorem resampling_never_overshoots (audio_bytes out_bytes : bytes)
    (src_rate dst_rate : Z) (src : list Z) :
  _resample_pcm16 audio_bytes src_rate dst_rate = Ok out_bytes ->
  frombuffer_int16 audio_bytes = Some src ->
  exists out,
    frombuffer_int16 out_bytes = Some out /\
    Forall (fun v => exists a b, In a src /\ In b src /\ a <= v <= b) out /\
    nth 0 out 0 = nth 0 src 0.
Proof.
  intros H Hs. pose proof (frombuffer_range Hs) as Hr.
  assert (Id : exists out,
            frombuffer_int16 audio_bytes = Some out /\
            Forall (fun v => exists a b, In a src /\ In b src /\ a <= v <= b)
                   out /\
            nth 0 out 0 = nth 0 src 0).
  { exists src. split; [exact Hs|]. split; [|reflexivity].
    apply Forall_forall. intros v Hv. exists v, v. repeat split; auto; lia. }
  unfold _resample_pcm16 in H. rewrite Hs in H.
  destruct ((src_rate =? dst_rate) || (length audio_bytes =? 0)%nat);
    [injection H as <-; exact Id|].
  destruct (length src =? 0)%nat eqn:L; [injection H as <-; exact Id|].
  destruct (src_rate =? 0); [discriminate|]. injection H as <-.
  assert (Hne : src <> []).
  { intros ->. discriminate. }
  destruct (@resample_samples_between src src_rate dst_rate Hne Hr)
    as [B1 B2].
  exists (resample_samples src src_rate dst_rate).
  split; [apply frombuffer_tobytes, resample_samples_range|].
  split; assumption.
Qed.

Lemma resampling_never_overshoots_witness :
  exists out,
    frombuffer_int16 ["001"; "000"; "003"; "000"]%byte = Some out /\
    Forall (fun v => exists a b,
              In a [1; 2; 3] /\ In b [1; 2; 3] /\ a <= v <= b) out /\
    nth 0 out 0 = nth 0 [1; 2; 3] 0.
Proof.
  apply (@resampling_never_overshoots
           ["001"; "000"; "002"; "000"; "003"; "000"]%byte
           ["001"; "000"; "003"; "000"]%byte 24000 16000 [1; 2; 3]).
  - vm_compute. reflexivity.
  - reflexivity.
Defined.


End ResamplerEdgeFacts.

(** ** The chat backend *)

Module BackendFacts.
Import PyData PyDataFacts Main Backend.

Section Facts.
Variable create_stream : list message -> stream str.
Variable create : list message -> result (option str).

Lemma Forall_filter_truthy (l : list str) :
  Forall (fun s => s <> []) (filter truthy l).
Proof.
  apply Forall_forall. intros s H. apply filter_In in H as [_ H].
  intros ->. discriminate.
Qed.

(** X22.  What [chat_stream] says and what it remembers. With an OpenAI
    client, a [chat_stream] that is consumed to its end adds exactly two
    messages to the history, the user's and the assistant's, and never
    yields an empty chunk. What it remembers as the assistant's message is
    the concatenation of the chunks it yielded when the stream ended
    normally with text that is not blank; when the stream failed, it yields
    at least one chunk and remembers only the last one (the non-stream
    answer, or the apology), not the chunks streamed before the failure. *)
Theorem chat_stream_history (b : AIBackend) (user_message : str) :
  backend_type b = py "openai" -> has_client b = true ->
  let s := create_stream
             (_build_messages
                (remember b {| role := py "user";
                               content := user_message |})) in
  let '(yielded, b') := chat_stream create_stream create b user_message in
  Forall (fun chunk => chunk <> []) yielded /\
  exists answer,
    conversation_history b'
    = conversation_history b
      ++ [ {| role := py "user"; content := user_message |};
           {| role := py "assistant"; content := answer |} ] /\
    (fails s = false ->
     truthy (strip (concat (filter truthy (items s)))) = true ->
     yielded = filter truthy (items s) /\ answer = concat yielded) /\
    (fails s = true ->
     yielded = filter truthy (items s) ++ [answer] /\ answer <> []).
Proof.
  intros Ht Hc. cbn zeta. unfold chat_stream. rewrite Ht, Hc.
  change (str_eqb (py "openai") (py "openai") && true) with true.
  cbn iota. unfold _chat_openai_stream.
  set (b1 := remember b _).
  set (s := create_stream (_build_messages b1)).
  set (fb := _chat_openai_once create (_build_messages b1)).
  assert (Hh : forall a,
            conversation_history
              (remember b1 {| role := py "assistant"; content := a |})
            = conversation_history b
              ++ [ {| role := py "user"; content := user_message |};
                   {| role := py "assistant"; content := a |} ]).
  { intros a. unfold b1, remember. cbn [conversation_history].
    now rewrite <- app_assoc. }
  pose proof (Forall_filter_truthy (items s)) as Hf.
  destruct (fails s) eqn:F.
  - destruct (truthy fb) eqn:T.
    + split.
      * apply Forall_app. split; [exact Hf|].
        constructor; [|constructor]. intros E. rewrite E in T. discriminate.
      * exists fb. split; [apply Hh|]. split; [discriminate|].
        intros _. split; [reflexivity|].
        intros E. rewrite E in T. discriminate.
    + split.
      * apply Forall_app. split; [exact Hf|].
        constructor; [discriminate | constructor].
      * exists apology. split; [apply Hh|]. split; [discriminate|].
        intros _. split; [reflexivity | discriminate].
  - destruct (truthy (strip (concat (filter truthy (items s))))) eqn:B;
      cbn [negb].
    + split; [exact Hf|]. eexists. split; [apply Hh|].
      split; [auto | discriminate].
    + destruct (truthy fb) eqn:T.
      * split.
        -- apply Forall_app. split; [exact Hf|].
           constructor; [|constructor].
           intros E. rewrite E in T. discriminate.
        -- exists fb. split; [apply Hh|]. split; discriminate.
      * split; [exact Hf|]. eexists. split; [apply Hh|].
        split; discriminate.
Qed.

Lemma last10_snoc (A : Type) (l : list A) (x : A) :
  last10 (l ++ [x]) = skipn (length l - 9) l ++ [x].
Proof.
  unfold last10. rewrite length_app. cbn [length].
  replace (length l + 1 - 10) with (length l - 9) by lia.
  rewrite skipn_app.
  replace (length l - 9 - length l) with 0 by lia. reflexivity.
Qed.

(** X23.  The window of a request. The messages [_chat_openai] and
    [_chat_openai_stream] send are the system prompt, then the last nine
    messages of the history as it was before the call (all of it when it has
    fewer), then the user's new message: never more than eleven messages,
    and the new message is always among them. *)
Theorem request_window (b : AIBackend) (user_message : str) :
  let request :=
    _build_messages
      (remember b {| role := py "user"; content := user_message |}) in
  request
  = {| role := py "system"; content := system_prompt b |}
      :: skipn (length (conversation_history b) - 9)
               (conversation_history b)
      ++ [ {| role := py "user"; content := user_message |} ] /\
  length request = 2 + Nat.min 9 (length (conversation_history b)).
Proof.
  cbn zeta. unfold _build_messages, remember.
  cbn [system_prompt conversation_history]. rewrite last10_snoc.
  split; [reflexivity|].
  cbn [length]. rewrite length_app, length_skipn. cbn [length]. lia.
Qed.

End Facts.

Lemma chat_stream_history_witness :
  let b := {| backend_type := py "openai"; has_client := true;
              system_prompt := py "Be brief.";
              conversation_history := [] |} in
  let '(yielded, b') :=
    chat_stream
      (fun _ => {| items := [py "Hi"; []; py " there."]; fails := false |})
      (fun _ => Ok None) b (py "hello") in
  Forall (fun chunk => chunk <> []) yielded /\
  exists answer,
    conversation_history b'
    = [ {| role := py "user"; content := py "hello" |};
        {| role := py "assistant"; content := answer |} ] /\
    (false = false ->
     truthy (strip (concat (filter truthy [py "Hi"; []; py " there."])))
     = true ->
     yielded = filter truthy [py "Hi"; []; py " there."] /\
     answer = concat yielded) /\
    (false = true ->
     yielded = filter truthy [py "Hi"; []; py " there."] ++ [answer] /\
     answer <> []).
Proof.
  apply (@chat_stream_history
           (fun _ => {| items := [py "Hi"; []; py " there."];
                        fails := false |})
           (fun _ => Ok None)
           {| backend_type := py "openai"; has_client := true;
              system_prompt := py "Be brief.";
              conversation_history := [] |} (py "hello"));
    reflexivity.
Defined.

End BackendFacts.

(** ** Aliyun speech synthesis *)

Module AliyunTTSFacts.
Import Resampler ResamplerFacts ResamplerEdgeFacts Main AliyunTTS.

Lemma resample_even_returns (b : bytes) (src_rate dst_rate : Z) :
  Nat.Even (length b) -> src_rate <> 0%Z ->
  exists out, _resample_pcm16 b src_rate dst_rate = Ok out.
Proof.
  intros Ev Hs. unfold _resample_pcm16.
  destruct ((src_rate =? dst_rate)%Z || (length b =? 0)); [eauto|].
  destruct (frombuffer_even Ev) as [src [-> _]].
  destruct (length src =? 0); [eauto|].
  assert ((src_rate =? 0)%Z = false) as -> by now apply Z.eqb_neq.
  eauto.
Qed.

Lemma pcm16_of_float_even (audio : list Q) :
  Nat.Even (length (pcm16_of_float audio)).
Proof.
  unfold pcm16_of_float. rewrite length_tobytes. now eexists.
Qed.

Section Facts.
Variable call : str -> stream chunk.
Variable frames_at : str -> option bytes.

Lemma on_chunk_even (c : chunk) :
  Forall (fun b => Nat.Even (length b)) (on_chunk frames_at c).
Proof.
  unfold on_chunk. destruct (negb _); [constructor|].
  destruct (truthy _); [|constructor].
  destruct (_download_audio frames_at (audio_url c)); [|constructor].
  constructor; [apply pcm16_of_float_even | constructor].
Qed.


#[local] Open Scope Z_scope.

Lemma sample_roundtrip (s : Z) :
  -32768 <= s <= 32767 ->
  astype_int16 (clip (inject_Z s / 32768 * 32767)%Q) = s - Z.sgn s.
Proof.
  intros Hs.
  set (v := (inject_Z s / 32768 * 32767)%Q).
  assert (Hn : Qnum v = s * 1 * 32767) by reflexivity.
  assert (Hd : Z.pos (Qden v) = 32768) by reflexivity.
  assert (Hc : clip v = v).
  { unfold clip.
    destruct (Qlt_le_dec v (-32768)) as [L|L].
    - exfalso. unfold Qlt in L. rewrite Hn, Hd in L. cbn in L. lia.
    - destruct (Qlt_le_dec 32767 v) as [G|G]; [|reflexivity].
      exfalso. unfold Qlt in G. rewrite Hn, Hd in G. cbn in G. lia. }
  rewrite Hc. unfold astype_int16. rewrite Hn, Hd.
  replace (s * 1 * 32767) with (s * 32767) by lia.
  destruct (Z.lt_trichotomy s 0) as [N|[->|P]]; [|reflexivity|].
  - rewrite Z.sgn_neg by exact N.
    replace (s * 32767) with (- ((- s) * 32767)) by lia.
    rewrite Z.quot_opp_l by lia.
    rewrite Z.quot_div_nonneg by lia.
    assert (Q : - s * 32767 / 32768 = - s - 1)
      by (symmetry; apply (Z.div_unique _ _ _ (32768 + s)); lia).
    rewrite Q. lia.
  - rewrite Z.sgn_pos by exact P.
    rewrite Z.quot_div_nonneg by lia.
    assert (Q : s * 32767 / 32768 = s - 1)
      by (symmetry; apply (Z.div_unique _ _ _ (32768 - s)); lia).
    rewrite Q. reflexivity.
Qed.

(** X25.  A sample does not survive the trip through [AliyunTTS]. The
    samples of the WAV file are divided by 32768 on download and multiplied
    by 32767 before they are yielded, so, in exact arithmetic, for a chunk
    whose download succeeds the stream yields the 16-bit samples of the file
    each moved one step towards zero (0 stays 0). *)
Theorem synthesized_samples_move_towards_zero (c : chunk)
    (frames : bytes) (samples : list Z) :
  status_code c = 200 ->
  audio_url c <> [] ->
  frames_at (audio_url c) = Some frames ->
  frombuffer_int16 frames = Some samples ->
  exists out,
    on_chunk frames_at c = [out] /\
    frombuffer_int16 out = Some (map (fun s => s - Z.sgn s) samples).
Proof.
  intros Hc Hu Hf Hs. unfold on_chunk, _download_audio.
  rewrite Hc, Hf, Hs. cbn [Z.eqb Pos.eqb negb option_map].
  destruct (audio_url c) as [|u0 u]; [congruence|]. cbn [truthy].
  eexists. split; [reflexivity|].
  unfold pcm16_of_float, float_of_pcm16. rewrite map_map.
  pose proof (frombuffer_range Hs) as Hr.
  assert (E : map (fun x => astype_int16 (clip (inject_Z x / 32768 * 32767)%Q))
                samples
              = map (fun s => s - Z.sgn s) samples).
  { apply map_ext_in. intros s Hin. apply sample_roundtrip.
    rewrite Forall_forall in Hr. now apply Hr. }
  rewrite E. apply frombuffer_tobytes.
  apply Forall_forall. intros v Hv. apply in_map_iff in Hv as (s & <- & Hin).
  rewrite Forall_forall in Hr. specialize (Hr s Hin).
  destruct (Z.lt_trichotomy s 0) as [N|[->|P]].
  - rewrite Z.sgn_neg by exact N. lia.
  - cbn. lia.
  - rewrite Z.sgn_pos by exact P. lia.
Qed.

End Facts.

Lemma synthesized_samples_move_towards_zero_witness :
  exists out,
    on_chunk (fun _ => Some ["001"; "000"; "254"; "255"; "000"; "000"]%byte)
      {| status_code := 200; audio_url := py "https://x/a.wav" |} = [out] /\
    frombuffer_int16 out = Some (map (fun s => s - Z.sgn s)%Z [1; -2; 0]%Z).
Proof.
  apply (@synthesized_samples_move_towards_zero
           (fun _ => Some ["001"; "000"; "254"; "255"; "000"; "000"]%byte)
           {| status_code := 200; audio_url := py "https://x/a.wav" |}
           ["001"; "000"; "254"; "255"; "000"; "000"]%byte [1; -2; 0]%Z).
  - reflexivity.
  - discriminate.
  - reflexivity.
  - reflexivity.
Defined.

End AliyunTTSFacts.

(** ** Start-up *)

Module StartupFacts.
Import PyData PyDataFacts PyStrFacts Startup.

Lemma lstrip_slash_fixed (s : str) (c : char) :
  c <> slash -> lstrip_slash (c :: s) = c :: s.
Proof.
  intros H. cbn [lstrip_slash].
  destruct (c =? slash)%N eqn:E; [apply N.eqb_eq in E; contradiction|].
  reflexivity.
Qed.

Lemma rstrip_slash_fixed (s : str) (c : char) :
  c <> slash -> rstrip_slash (s ++ [c]) = s ++ [c].
Proof.
  intros H. unfold rstrip_slash. rewrite rev_app_distr. cbn [rev app].
  rewrite lstrip_slash_fixed by exact H.
  change (c :: rev s) with ([c] ++ rev s).
  now rewrite rev_app_distr, rev_involutive.
Qed.

Lemma ends_with_app (suffix s : str) : ends_with suffix (s ++ suffix) = true.
Proof.
  unfold ends_with. rewrite rev_app_distr. apply starts_with_app.
Qed.

Lemma ends_with_split (suffix s : str) :
  ends_with suffix s = true -> exists p, s = p ++ suffix.
Proof.
  unfold ends_with. intros H.
  assert (G : forall a b, starts_with a b = true -> exists r, b = a ++ r).
  { clear. induction a as [|x a IH]; intros b H; [now exists b|].
    destruct b as [|y b]; [discriminate|]. cbn in H.
    apply andb_prop in H as [H1 H2]. apply N.eqb_eq in H1. subst y.
    destruct (IH _ H2) as [r ->]. now exists r. }
  destruct (G _ _ H) as [r Hr]. exists (rev r).
  rewrite <- (rev_involutive s), Hr, rev_app_distr, rev_involutive.
  reflexivity.
Qed.

Lemma gateway_base_suffix (gateway_url : str) :
  ends_with (py "/v1") (gateway_base gateway_url) = true.
Proof.
  unfold gateway_base.
  destruct (ends_with (py "/v1") (rstrip_slash gateway_url)) eqn:H;
    [exact H | apply ends_with_app].
Qed.

(** X26.  The base URL of the gateway. Whatever URL is configured,
    [gateway_base] ends with [/v1], and it is a fixed point of the
    normalisation: a URL that went through it once is returned as it is (no
    second [/v1], no slash taken off). *)
Theorem gateway_base_ends_with_v1 (gateway_url : str) :
  ends_with (py "/v1") (gateway_base gateway_url) = true /\
  gateway_base (gateway_base gateway_url) = gateway_base gateway_url.
Proof.
  assert (F : forall s, ends_with (py "/v1") s = true ->
                gateway_base s = s).
  { intros s H.
    assert (R : rstrip_slash s = s).
    { destruct (ends_with_split H) as [p ->].
      change (py "/v1") with (py "/v" ++ [49%N]). rewrite app_assoc.
      apply rstrip_slash_fixed. discriminate. }
    unfold gateway_base. now rewrite R, H. }
  pose proof (gateway_base_suffix gateway_url) as E.
  split; [exact E | now apply F].
Qed.

(** X27.  The local detector and the realtime session exclude each other.
    Whenever [startup] gets as far as building its globals, it loads the
    local [VoiceActivityDetector] exactly when the class it chose for [stt]
    has no [create_session]; the realtime factory is chosen exactly when the
    provider is [aliyun] and the mode is anything but [batch]; and a gateway
    backend always gets type [openai] and a URL that ends with [/v1]. *)
Theorem startup_loads_vad_without_realtime (settings : Settings)
    (env : environ) (g : globals) :
  startup settings env = Ok g ->
  vad g = negb (has_create_session (stt g)) /\
  (has_create_session (stt g) = true <->
   stt_provider settings = py "aliyun" /\
   aliyun_asr_mode settings <> py "batch") /\
  (fst (backend g) = py "openai" /\
   ends_with (py "/v1") (snd (backend g)) = true
   \/ backend g = (backend_type settings, backend_url settings)).
Proof.
  unfold startup. cbn zeta.
  destruct (str_eqb (stt_provider settings) (py "aliyun")) eqn:P.
  - apply str_eqb_eq in P.
    destruct (negb (opt_truthy _)) eqn:K; cbn [andb]; [discriminate|].
    destruct (str_eqb (tts_provider settings) (py "aliyun"));
      cbn [andb]; intros H; injection H as <-; cbn [vad stt backend];
      (destruct (str_eqb (aliyun_asr_mode settings) (py "batch")) eqn:B;
       cbn [negb andb has_create_session];
       (split; [reflexivity|]); split;
       [ (split; [discriminate|]); intros [_ N]; apply str_eqb_eq in B;
         contradiction
       | destruct (opt_truthy _ && opt_truthy _); [left|right; reflexivity];
         split; [reflexivity | apply gateway_base_suffix]
       | split; [|reflexivity]; intros _; split; [exact P|];
         intros N; rewrite N in B; discriminate
       | destruct (opt_truthy _ && opt_truthy _); [left|right; reflexivity];
         split; [reflexivity | apply gateway_base_suffix] ]).
  - cbn [andb].
    destruct (str_eqb (tts_provider settings) (py "aliyun") && _);
      [discriminate|].
    intros H. injection H as <-. cbn [vad stt backend negb has_create_session].
    split; [reflexivity|]. split.
    + split; [discriminate|]. intros [N _]. rewrite N in P. discriminate.
    + destruct (opt_truthy _ && opt_truthy _); [left|right; reflexivity].
      split; [reflexivity | apply gateway_base_suffix].
Qed.

Lemma startup_loads_vad_without_realtime_witness :
  let g := {| stt := AliyunASRRealtimeFactory; tts := AliyunTTSProxy;
              backend := (py "openai", py "http://gw/v1");
              vad := false |} in
  vad g = negb (has_create_session (stt g)) /\
  (has_create_session (stt g) = true <->
   py "aliyun" = py "aliyun" /\ py "realtime" <> py "batch") /\
  (fst (backend g) = py "openai" /\
   ends_with (py "/v1") (snd (backend g)) = true
   \/ backend g = (py "openai", py "https://api.openai.com/v1")).
Proof.
  apply (@startup_loads_vad_without_realtime
           {| stt_provider := py "aliyun"; aliyun_asr_mode := py "realtime";
              tts_provider := py "aliyun";
              dashscope_api_key := Some (py "sk-1");
              gateway_url := Some (py "http://gw//");
              gateway_token := None;
              backend_type := py "openai";
              backend_url := py "https://api.openai.com/v1" |}
           {| DASHSCOPE_API_KEY := None; OPENCLAW_GATEWAY_URL := None;
              OPENCLAW_GATEWAY_TOKEN := Some (py "tok") |}).
  reflexivity.
Defined.

End StartupFacts.

(** ** Sentence streaming *)

Module SentenceStreamsFacts.
Import Segmenter PyStrFacts Main SentenceStreams.

Lemma is_end_not_space (c : char) : is_end c = true -> is_space c = false.
Proof.
  unfold is_end. intros H.
  apply orb_prop in H as [H|H]; [apply orb_prop in H as [H|H]|];
    apply N.eqb_eq in H; subst c; reflexivity.
Qed.

Lemma ends_sentence_snoc (p : str) (c : char) :
  ends_sentence (p ++ [c]) = is_end c.
Proof. unfold ends_sentence. now rewrite rev_app_distr. Qed.

Lemma ends_sentence_split (s : str) :
  ends_sentence s = true -> exists p c, s = p ++ [c] /\ is_end c = true.
Proof.
  unfold ends_sentence. destruct (rev s) as [|c r] eqn:E; [discriminate|].
  intros H. exists (rev r), c. split; [|exact H].
  rewrite <- (rev_involutive s), E. reflexivity.
Qed.

Lemma lstrip_snoc (p : str) (c : char) :
  is_space c = false -> exists q, lstrip (p ++ [c]) = q ++ [c].
Proof.
  intros H. induction p as [|a p IH]; cbn [app lstrip].
  - rewrite H. now exists [].
  - destruct (is_space a); [exact IH|]. now exists (a :: p).
Qed.

Lemma strip_keeps_end (s : str) :
  ends_sentence s = true -> ends_sentence (strip s) = true.
Proof.
  intros H. destruct (ends_sentence_split H) as (p & c & -> & Hc).
  pose proof (is_end_not_space Hc) as Hs.
  destruct (lstrip_snoc p Hs) as [q Hq].
  unfold strip, rstrip. rewrite Hq, rev_app_distr. cbn [rev app lstrip].
  rewrite Hs. cbn [rev]. rewrite rev_involutive.
  now rewrite ends_sentence_snoc.
Qed.

Lemma re_split_nonempty (text : str) : forall piece a g,
  re_split piece a g text <> [].
Proof.
  induction text as [|c text IH]; intros piece a g; cbn [re_split].
  - discriminate.
  - destruct (g && is_space c); [apply IH|].
    destruct (a && is_space c); [discriminate | apply IH].
Qed.

Lemma re_split_ends (text : str) : forall piece a g,
  (a = true -> ends_sentence piece = true) ->
  Forall (fun s => ends_sentence s = true)
         (removelast (re_split piece a g text)).
Proof.
  induction text as [|c text IH]; intros piece a g Ha; cbn [re_split].
  - constructor.
  - destruct (g && is_space c); [apply IH; intros; discriminate|].
    destruct (a && is_space c) eqn:A.
    + apply andb_prop in A as [A _].
      pose proof (@re_split_nonempty text [] false true) as Hne.
      destruct (re_split [] false true text) as [|x l] eqn:E; [congruence|].
      cbn [removelast]. constructor; [now apply Ha|].
      specialize (IH [] false true ltac:(intros; discriminate)).
      rewrite E in IH. exact IH.
    + apply IH. intros Hc. now rewrite ends_sentence_snoc.
Qed.

Lemma re_split_nonspace (text : str) : forall piece a g,
  nonspace (concat (re_split piece a g text))
  = nonspace piece ++ nonspace text.
Proof.
  induction text as [|c text IH]; intros piece a g; cbn [re_split].
  - unfold nonspace. cbn [concat filter]. now rewrite !app_nil_r.
  - destruct (g && is_space c) eqn:G.
    + apply andb_prop in G as [_ G]. rewrite IH.
      unfold nonspace at 4. cbn [filter]. now rewrite G.
    + destruct (a && is_space c) eqn:A.
      * apply andb_prop in A as [_ A]. cbn [concat].
        rewrite nonspace_app, IH.
        unfold nonspace at 5. cbn [filter]. now rewrite A.
      * rewrite IH, nonspace_app, <- app_assoc.
        change (c :: text) with ([c] ++ text).
        now rewrite (nonspace_app [c]).
Qed.

Lemma removelast_map (A B : Type) (f : A -> B) (l : list A) :
  removelast (map f l) = map f (removelast l).
Proof.
  induction l as [|x l IH]; [reflexivity|].
  destruct l as [|y l]; [reflexivity|].
  cbn [map removelast] in *. now rewrite IH.
Qed.

Lemma Forall_removelast_filter (A : Type) (P : A -> Prop) (f : A -> bool)
    (l : list A) :
  Forall P (removelast l) -> Forall P (removelast (filter f l)).
Proof.
  induction l as [|x l IH]; [auto|].
  destruct l as [|y l].
  - intros _. cbn [filter]. destruct (f x); constructor.
  - change (removelast (x :: y :: l)) with (x :: removelast (y :: l)).
    intros H. inversion H as [|? ? Hx Hl]; subst.
    specialize (IH Hl). cbn [filter] in *. destruct (f x); [|exact IH].
    destruct (if f y then y :: filter f l else filter f l) as [|z r];
      [constructor|].
    change (removelast (x :: z :: r)) with (x :: removelast (z :: r)).
    now constructor.
Qed.

Lemma concat_filter_truthy (l : list str) :
  concat (filter truthy l) = concat l.
Proof.
  induction l as [|s l IH]; [reflexivity|].
  cbn [filter concat]. destruct s as [|c s]; cbn [truthy app concat];
    [exact IH | now rewrite IH].
Qed.

(** X28.  What [stream_sentences] yields. Nothing but whitespace is lost:
    the characters of the sentences that are not whitespace are those of the
    text, in order. No sentence is empty, and none starts or ends with
    whitespace. Every sentence but the last ends with one of [.!?]. *)
Theorem stream_sentences_spec (text : str) :
  nonspace (concat (stream_sentences text)) = nonspace text /\
  Forall (fun s => s <> [] /\ strip s = s) (stream_sentences text) /\
  Forall (fun s => ends_sentence s = true)
         (removelast (stream_sentences text)).
Proof.
  unfold stream_sentences. split; [|split].
  - rewrite concat_filter_truthy, nonspace_concat, map_map.
    rewrite (map_ext _ nonspace) by (intros; apply nonspace_strip).
    rewrite <- nonspace_concat. apply re_split_nonspace.
  - apply Forall_forall. intros s H. apply filter_In in H as [H T].
    apply in_map_iff in H as (p & <- & _).
    split; [|apply strip_idem]. intros E. rewrite E in T. discriminate.
  - apply Forall_removelast_filter. rewrite removelast_map.
    apply Forall_forall. intros s H. apply in_map_iff in H as (p & <- & H).
    apply strip_keeps_end.
    pose proof (@re_split_ends text [] false false
                  ltac:(intros; discriminate)) as R.
    rewrite Forall_forall in R. now apply R.
Qed.

Lemma search_sentence_spec (buffer : str) : forall seen sentence rest,
  search_sentence seen buffer = Some (sentence, rest) ->
  exists p c tail,
    buffer = p ++ c :: tail /\ sentence = seen ++ p ++ [c] /\
    is_end c = true /\
    Forall (fun x => is_end x = false /\ x <> newline) p /\
    rest = lstrip tail.
Proof.
  induction buffer as [|c buffer IH]; intros seen sentence rest H;
    cbn [search_sentence] in H; [discriminate|].
  destruct (is_end c) eqn:E.
  - injection H as <- <-. exists [], c, buffer. repeat split; auto.
  - destruct (c =? newline)%N eqn:N; [discriminate|].
    destruct (IH _ _ _ H) as (p & c' & tail & -> & -> & Hc & Hp & ->).
    exists (c :: p), c', tail. rewrite <- app_assoc.
    repeat split; auto. constructor; [|exact Hp].
    split; [exact E|]. now apply N.eqb_neq.
Qed.

Lemma length_lstrip (s : str) : length (lstrip s) <= length s.
Proof.
  induction s as [|c s IH]; cbn [lstrip length]; [lia|].
  destruct (is_space c); cbn [length]; lia.
Qed.

Lemma take_sentences_spec (fuel : nat) : forall buffer,
  length buffer <= fuel ->
  let (sentences, final) := take_sentences fuel buffer in
  Forall one_sentence sentences /\
  search_sentence [] final = None /\
  nonspace (concat sentences ++ final) = nonspace buffer.
Proof.
  induction fuel as [|fuel IH]; intros buffer Hf; cbn [take_sentences].
  - destruct buffer; [|cbn in Hf; lia]. repeat split; auto.
  - destruct (search_sentence [] buffer) as [[sentence rest]|] eqn:S.
    + destruct (search_sentence_spec S)
        as (p & c & tail & -> & -> & Hc & Hp & ->).
      specialize (IH (lstrip tail)).
      destruct (take_sentences fuel (lstrip tail)) as [more final].
      destruct IH as (H1 & H2 & H3).
      { pose proof (length_lstrip tail). rewrite length_app in Hf.
        cbn [length] in Hf. lia. }
      split; [|split; [exact H2|]].
      * constructor; [|exact H1]. exists p, c. cbn [app]. auto.
      * cbn [concat app]. rewrite <- !app_assoc, !nonspace_app.
        rewrite <- nonspace_app, H3, nonspace_lstrip.
        change (c :: tail) with ([c] ++ tail).
        now rewrite !nonspace_app.
    + repeat split; auto.
Qed.

Lemma on_texts_spec (texts : list str) : forall buffer,
  search_sentence [] buffer = None ->
  let (during, final) := on_texts buffer texts in
  Forall one_sentence during /\
  search_sentence [] final = None /\
  nonspace (concat during ++ final) = nonspace (buffer ++ concat texts).
Proof.
  induction texts as [|text texts IH]; intros buffer Hb; cbn [on_texts].
  - split; [constructor|]. split; [exact Hb|].
    cbn [concat app]. now rewrite app_nil_r.
  - unfold on_text. destruct (truthy text) eqn:T.
    + pose proof (@take_sentences_spec (length (buffer ++ text))
                    (buffer ++ text) (Nat.le_refl _)) as H.
      destruct (take_sentences _ (buffer ++ text)) as [now buffer1].
      destruct H as (H1 & H2 & H3).
      specialize (IH buffer1 H2).
      destruct (on_texts buffer1 texts) as [later final].
      destruct IH as (I1 & I2 & I3). split; [now apply Forall_app|].
      split; [exact I2|].
      cbn [concat]. rewrite concat_app, <- !app_assoc, nonspace_app, I3.
      rewrite (app_assoc buffer), (nonspace_app (buffer ++ text)), <- H3.
      now rewrite !nonspace_app, <- app_assoc.
    + destruct text; [|discriminate]. specialize (IH buffer Hb).
      destruct (on_texts buffer texts) as [later final]. exact IH.
Qed.

(** X29.  What [stream_openai_response] yields while the completion streams.
    After every chunk the loop runs until the pattern matches no more. Every
    sentence yielded before the end of the stream has one of [.!?] as its
    last character and, before it, neither another of them nor a newline.
    When the stream ends without an exception, what is left in the buffer is
    yielded trimmed, if it is not blank, and nothing but whitespace is lost:
    the characters yielded that are not whitespace are those of the
    completion, in order. When it ends with an exception, the apology is
    yielded instead of what is left. *)
Theorem stream_openai_response_spec (response : stream str) :
  exists during buffer,
    on_texts [] (items response) = (during, buffer) /\
    search_sentence [] buffer = None /\
    Forall one_sentence during /\
    stream_openai_response response
    = during
      ++ (if fails response
          then [py "Sorry, I had trouble processing that."]
          else if truthy (strip buffer) then [strip buffer] else []) /\
    (fails response = false ->
     nonspace (concat (stream_openai_response response))
     = nonspace (concat (items response))).
Proof.
  unfold stream_openai_response.
  pose proof (on_texts_spec (items response) (buffer:=[]) eq_refl) as H.
  destruct (on_texts [] (items response)) as [during buffer].
  destruct H as (H1 & H2 & H3). cbn [app] in H3.
  exists during, buffer. split; [reflexivity|]. split; [exact H2|].
  split; [exact H1|]. split; [now destruct (fails response)|].
  intros ->. rewrite <- H3.
  rewrite concat_app, !nonspace_app. f_equal.
  destruct (truthy (strip buffer)) eqn:T; cbn [concat].
  - now rewrite app_nil_r, nonspace_strip.
  - now rewrite (truthy_strip_nonspace T).
Qed.

Lemma newline_first_search (buffer : str) : forall seen,
  newline_first buffer = true -> search_sentence seen buffer = None.
Proof.
  induction buffer as [|c buffer IH]; intros seen H; [discriminate|].
  cbn [newline_first search_sentence] in *.
  destruct (is_end c); [discriminate|].
  destruct (c =? newline)%N; [reflexivity | now apply IH].
Qed.

Lemma newline_first_app (buffer text : str) :
  newline_first buffer = true -> newline_first (buffer ++ text) = true.
Proof.
  induction buffer as [|c buffer IH]; [discriminate|].
  cbn [newline_first app]. destruct (is_end c); [discriminate|].
  destruct (c =? newline)%N; [reflexivity | exact IH].
Qed.

(** X30.  A line break stalls [stream_openai_response]. Once the buffer
    holds a newline before its first [.!?], the pattern can no longer match,
    whatever text arrives: the loop yields no sentence for the rest of the
    stream and the whole of it piles up in the buffer (to be yielded in one
    piece when the stream ends). *)
Theorem newline_stalls_the_sentences (buffer : str) (texts : list str) :
  newline_first buffer = true ->
  on_texts buffer texts = ([], buffer ++ concat texts).
Proof.
  revert buffer. induction texts as [|text texts IH]; intros buffer H;
    cbn [on_texts concat].
  - now rewrite app_nil_r.
  - unfold on_text. destruct text as [|c text]; cbn [truthy].
    + rewrite (IH buffer H). reflexivity.
    + pose proof (newline_first_app (c :: text) H) as H'.
      destruct (length (buffer ++ c :: text)) as [|n] eqn:L.
      * destruct buffer; discriminate.
      * cbn [take_sentences]. rewrite (newline_first_search [] H').
        rewrite (IH _ H'). now rewrite <- app_assoc.
Qed.

Lemma newline_stalls_the_sentences_witness :
  on_texts (py "Dear all" ++ [newline]) [py "Hello. "; py "Bye."]
  = ([], (py "Dear all" ++ [newline]) ++ concat [py "Hello. "; py "Bye."]).
Proof.
  apply (@newline_stalls_the_sentences (py "Dear all" ++ [newline])
           [py "Hello. "; py "Bye."]).
  reflexivity.
Defined.

End SentenceStreamsFacts.
